(** * Multi-PR Manager: buckets, dependency order and the per-bucket pipeline

    A shallow embedding of the bucket model of [treeViewProvider.ts]
    ([MultiPRTreeProvider]), of the git adapter of [gitOperations.ts]
    ([GitManager]) and of the [multiPR.createBucket] and [multiPR.processAll]
    commands of [extension.ts], with the properties the specification states
    about them.

    Conventions.
    - A JavaScript string is modelled by the [string] of the bytes of its
      UTF-8 encoding (a string with an unpaired surrogate has none and is
      outside the model). The functions of the source that look at characters
      ([trim], the classes [\s] and [a-z0-9] of the regular expressions,
      [toLowerCase]) read the bytes as code points ([Js.codePoints]); a
      search for an ASCII text finds the same places in the bytes as in
      the characters.
    - [string | undefined] fields are [option string]; JavaScript truthiness
      of such a value is [truthy].
    - Bucket objects are shared by reference between the provider's array and
      the arrays derived from it; an object of the array is denoted by its
      position, and an object that is not in the array is passed by value
      ([Detached]).
    - External processes ([execSync]), the file system and the clock are an
      oracle [Env]; the commands issued are recorded in a log. *)

From Stdlib Require Import Ascii String DecimalString.
From stdpp Require Import base list strings gmap.

Local Open Scope string_scope.
Local Open Scope list_scope.

(** ** Strings *)

Module Js.

(** The double quote character, used to quote shell arguments. *)
Definition dq : string := String "034"%char EmptyString.

(** A newline. *)
Definition nl : string := String "010"%char EmptyString.

Definition quote (s : string) : string := dq +:+ s +:+ dq.

(** The bytes [10xxxxxx], which continue a character. *)
Definition isContinuation (c : ascii) : bool :=
  (128 <=? N_of_ascii c)%N && (N_of_ascii c <? 192)%N.

Definition low6 (c : ascii) : N := (N_of_ascii c - 128)%N.

(** A byte that begins no well-formed character stands alone, under the
    code of the replacement character, which belongs to no class. *)
Definition stray (c : ascii) : N * list ascii := (0xFFFD%N, [c]).

(** The characters of a text: the code point of each, with the bytes
    that encode it. *)
Fixpoint codePoints (l : list ascii) : list (N * list ascii) :=
  match l with
  | [] => []
  | a :: r =>
      let n := N_of_ascii a in
      if (n <? 128)%N then (n, [a]) :: codePoints r
      else
        match r with
        | b :: r1 =>
            let two := ((n - 192) * 64 + low6 b)%N in
            if (194 <=? n)%N && (n <? 224)%N && isContinuation b
            then (two, [a; b]) :: codePoints r1
            else
              match r1 with
              | c :: r2 =>
                  let three :=
                    ((n - 224) * 4096 + low6 b * 64 + low6 c)%N in
                  if (224 <=? n)%N && (n <? 240)%N &&
                     isContinuation b && isContinuation c &&
                     (0x800 <=? three)%N &&
                     negb ((0xD800 <=? three)%N && (three <? 0xE000)%N)
                  then (three, [a; b; c]) :: codePoints r2
                  else
                    match r2 with
                    | d :: r3 =>
                        let four :=
                          ((n - 240) * 262144 + low6 b * 4096 +
                           low6 c * 64 + low6 d)%N in
                        if (240 <=? n)%N && (n <? 248)%N &&
                           isContinuation b && isContinuation c &&
                           isContinuation d &&
                           (0x10000 <=? four)%N && (four <? 0x110000)%N
                        then (four, [a; b; c; d]) :: codePoints r3
                        else stray a :: codePoints r
                    | [] => stray a :: codePoints r
                    end
              | [] => stray a :: codePoints r
              end
        | [] => [stray a]
        end
  end.

(** The bytes of a list of characters. *)
Definition bytes (l : list (N * list ascii)) : list ascii :=
  concat (snd <$> l).

(** [\s] and the characters that [trim] removes: the white space and the
    line terminators of ECMAScript. *)
Definition isSpace (code : N) : bool :=
  ((0x9 <=? code)%N && (code <=? 0xD)%N) ||
  (code =? 0x20)%N || (code =? 0xA0)%N || (code =? 0x1680)%N ||
  ((0x2000 <=? code)%N && (code <=? 0x200A)%N) ||
  (code =? 0x2028)%N || (code =? 0x2029)%N || (code =? 0x202F)%N ||
  (code =? 0x205F)%N || (code =? 0x3000)%N || (code =? 0xFEFF)%N.

(** [a-z0-9] *)
Definition isLowerOrDigit (c : ascii) : bool :=
  let n := nat_of_ascii c in
  (Nat.leb 97 n && Nat.leb n 122) || (Nat.leb 48 n && Nat.leb n 57).

Definition chars (s : string) : list ascii := list_ascii_of_string s.
Definition unchars (l : list ascii) : string := string_of_list_ascii l.

Fixpoint dropWhile {A} (p : A -> bool) (l : list A) : list A :=
  match l with
  | [] => []
  | x :: r => if p x then dropWhile p r else l
  end.

Definition dropWhileEnd {A} (p : A -> bool) (l : list A) : list A :=
  reverse (dropWhile p (reverse l)).

(** [s.trim()] *)
Definition trim (s : string) : string :=
  unchars (bytes (dropWhileEnd (λ c, isSpace c.1)
                    (dropWhile (λ c, isSpace c.1) (codePoints (chars s))))).

(** [s.substring(0, n)]. The positions of JavaScript and the positions
    in the bytes agree as long as the characters before them are ASCII,
    as they are where the source cuts: in the status columns of a line
    of [git status --porcelain], and in a sanitized name. *)
Definition substring0 (n : nat) (s : string) : string :=
  unchars (take n (chars s)).

(** [s.slice(-n)] for [n > 0]: the last [n] characters. *)
Definition sliceLast (n : nat) (s : string) : string :=
  unchars (drop (length (chars s) - n) (chars s)).

(** [s.startsWith(p)] *)
Definition startsWith (p s : string) : bool := String.prefix p s.

(** [s.indexOf(p)]: the position of the first occurrence. *)
Definition indexOf (p s : string) : option nat := String.index 0 p s.

(** [s.includes(p)] *)
Definition includes (p s : string) : bool :=
  match indexOf p s with Some _ => true | None => false end.

(** [s.replace(p, r)] with a string pattern: the first occurrence only. *)
Definition replaceFirst (p r s : string) : string :=
  match indexOf p s with
  | Some i =>
      String.substring 0 i s +:+ r +:+
      String.substring (i + String.length p)
                       (String.length s - (i + String.length p)) s
  | None => s
  end.

(** [l.join(sep)] *)
Fixpoint join (sep : string) (l : list string) : string :=
  match l with
  | [] => ""
  | [x] => x
  | x :: r => x +:+ sep +:+ join sep r
  end.

(** JavaScript truthiness of a [string | undefined] value: the value when
    it is a non-empty string. *)
Definition truthy (o : option string) : option string :=
  match o with
  | Some s => if decide (s = "") then None else Some s
  | None => None
  end.

(** [String(error)] and [`${error}`] for an [Error] with message [m]. *)
Definition renderError (m : string) : string := "Error: " +:+ m.

End Js.

(** ** Data model ([treeViewProvider.ts]) *)

Record FileItem := {
  path : string;
  status : string;
  label : string;
  isDirectory : option bool;
  size : option N;
  lastModified : option Z;
  gitStatus : option string
}.

Record PRBucket := {
  name : string;
  title : string;
  description : string;
  files : list FileItem;
  branchName : option string;
  dependsOn : option string;
  order : option nat
}.

Definition with_files (b : PRBucket) (fs : list FileItem) : PRBucket :=
  {| name := name b; title := title b; description := description b;
     files := fs; branchName := branchName b; dependsOn := dependsOn b;
     order := order b |}.

Definition with_branchName (b : PRBucket) (n : option string) : PRBucket :=
  {| name := name b; title := title b; description := description b;
     files := files b; branchName := n; dependsOn := dependsOn b;
     order := order b |}.

Definition with_dependsOn (b : PRBucket) (d : option string) : PRBucket :=
  {| name := name b; title := title b; description := description b;
     files := files b; branchName := branchName b; dependsOn := d;
     order := order b |}.

Definition with_order (b : PRBucket) (o : option nat) : PRBucket :=
  {| name := name b; title := title b; description := description b;
     files := files b; branchName := branchName b; dependsOn := dependsOn b;
     order := o |}.

(** The two fields of [MultiPRTreeProvider] that hold the model. *)
Record MultiPRTreeProvider := {
  buckets : list PRBucket;
  gitChanges : list FileItem
}.

(** A reference to a bucket object: the object at a position of
    [this.buckets], or an object that is not in the array (a bucket deleted
    earlier that a caller still holds). A position past the end of the
    array denotes no object; an operation given one has no effect. *)
Inductive BucketRef :=
| Stored (i : nat)
| Detached (b : PRBucket).

(** ** File registry and bucket store ([MultiPRTreeProvider]) *)

(** [fs.find(f => f.path === p)], used for its truthiness. *)
Definition hasPath (p : string) (fs : list FileItem) : bool :=
  match list_find (λ f, path f = p) fs with Some _ => true | None => false end.

(** [i = fs.findIndex(f => f.path === p); if (i > -1) fs.splice(i, 1)];
    the flag tells whether an entry was removed. *)
Definition splicePath (p : string) (fs : list FileItem) : list FileItem * bool :=
  match list_find (λ f, path f = p) fs with
  | Some (i, _) => (delete i fs, true)
  | None => (fs, false)
  end.

(** [isFileInBucket] *)
Definition isFileInBucket (t : MultiPRTreeProvider) (filePath : string) : bool :=
  existsb (λ b, hasPath filePath (files b)) (buckets t).

(** [createBucket]: pushes a new bucket; there is no check of any kind. *)
Definition createBucket (t : MultiPRTreeProvider) (n ti d : string)
  : MultiPRTreeProvider :=
  {| buckets := buckets t ++
       [ {| name := n; title := ti; description := d; files := [];
            branchName := None; dependsOn := None; order := None |} ];
     gitChanges := gitChanges t |}.

(** The [forEach] of [deleteBucket]: each file goes back to the pool unless a
    file of that path is there already. *)
Definition giveBack (pool : list FileItem) (fs : list FileItem) : list FileItem :=
  foldl (λ pool f, if hasPath (path f) pool then pool else pool ++ [f]) pool fs.

(** [deleteBucket]: [indexOf] is [-1] for an object that is not stored. *)
Definition deleteBucket (t : MultiPRTreeProvider) (r : BucketRef)
  : MultiPRTreeProvider :=
  match r with
  | Detached _ => t
  | Stored i =>
      match buckets t !! i with
      | None => t
      | Some b =>
          {| buckets := delete i (buckets t);
             gitChanges := giveBack (gitChanges t) (files b) |}
      end
  end.

(** [getBuckets] *)
Definition getBuckets (t : MultiPRTreeProvider) : list PRBucket := buckets t.

(** The body of the loops that remove a path from every bucket. *)
Definition strip (p : string) (b : PRBucket) : PRBucket :=
  with_files b (splicePath p (files b)).1.

(** [moveFileToBucket]: returns the new provider and the boolean result. A
    file pushed to a detached bucket is in no container of the provider. *)
Definition moveFileToBucket (t : MultiPRTreeProvider) (file : FileItem)
    (r : BucketRef) : MultiPRTreeProvider * bool :=
  let p := path file in
  let moved (target : option nat) :=
    {| buckets :=
         match target with
         | Some i => alter (λ b, with_files b (files b ++ [file])) i
                           (strip p <$> buckets t)
         | None => strip p <$> buckets t
         end;
       gitChanges := (splicePath p (gitChanges t)).1 |} in
  match r with
  | Stored i =>
      match buckets t !! i with
      | None => (t, false)
      | Some b => if hasPath p (files b) then (t, false) else (moved (Some i), true)
      end
  | Detached b => if hasPath p (files b) then (t, false) else (moved None, true)
  end.

(** [moveFileToGitChanges] *)
Definition moveFileToGitChanges (t : MultiPRTreeProvider) (file : FileItem)
  : MultiPRTreeProvider * bool :=
  let p := path file in
  if hasPath p (gitChanges t) then (t, false)
  else
    let removed := existsb (λ b, (splicePath p (files b)).2) (buckets t) in
    let bs := strip p <$> buckets t in
    ({| buckets := bs;
        gitChanges := if removed then gitChanges t ++ [file] else gitChanges t |},
     removed).

(** The operations of the exclusivity property and their sequencing. *)
Inductive StoreOp :=
| OpCreate (n ti d : string)
| OpMoveToBucket (file : FileItem) (r : BucketRef)
| OpMoveToPool (file : FileItem)
| OpDelete (r : BucketRef).

Definition applyOp (t : MultiPRTreeProvider) (o : StoreOp) : MultiPRTreeProvider :=
  match o with
  | OpCreate n ti d => createBucket t n ti d
  | OpMoveToBucket f r => (moveFileToBucket t f r).1
  | OpMoveToPool f => (moveFileToGitChanges t f).1
  | OpDelete r => deleteBucket t r
  end.

Definition applyOps (t : MultiPRTreeProvider) (ops : list StoreOp)
  : MultiPRTreeProvider := foldl applyOp t ops.



(** Every path held by the buckets, and every path held by the provider,
    with repetitions. *)
Definition bucketPaths (bs : list PRBucket) : list string :=
  concat ((λ b, path <$> files b) <$> bs).

Definition allPaths (t : MultiPRTreeProvider) : list string :=
  (path <$> gitChanges t) ++ bucketPaths (buckets t).

(** Every path is held once: no container lists a path twice and no path
    lies in two containers. The provider starts in such a state: no bucket,
    and one pool entry per line of [git status --porcelain]. *)
Definition WellFormed (t : MultiPRTreeProvider) : Prop := NoDup (allPaths t).

(** ** Creating a bucket from the command ([multiPR.createBucket]) *)

(** What the commands show to the user. The texts carry a pictogram in the
    source; the constructors keep the variable parts. *)
Inductive Notification :=
| InfoCreatedBucket (bucketName : string)
    (* showInformationMessage: Created bucket: [bucketName] *)
| InfoCreated (successCount : nat) (automatic : bool)
    (* showInformationMessage: Successfully created n PRs (automatic) or
       Created n branches (otherwise) *)
| ErrorFailed (failureCount : nat) (errors : string)
    (* showErrorMessage: n PRs failed, followed by the list *)
| ErrorRun (error : string).
    (* showErrorMessage: Error creating PRs: [error] *)

(** [vscode.window.showInputBox({validateInput})]: the box yields a value only
    when [validateInput] returns [null] on it; an entry that does not
    validate cannot be accepted, so the box is left without a value. *)
Definition showInputBox (validateInput : string → option string)
    (entry : option string) : option string :=
  entry ≫= λ v, match validateInput v with None => Some v | Some _ => None end.

(** [validateInput] of the bucket-name box. *)
Definition validateBucketName (t : MultiPRTreeProvider) (value : string)
  : option string :=
  if bool_decide (value = "") || bool_decide (Js.trim value = "")
  then Some "Bucket name cannot be empty"
  else if existsb (λ b, bool_decide (name b = Js.trim value)) (getBuckets t)
  then Some "Bucket with this name already exists"
  else None.

(** [validateInput] of the title box. *)
Definition validateTitle (value : string) : option string :=
  if bool_decide (value = "") || bool_decide (Js.trim value = "")
  then Some "PR title cannot be empty"
  else None.

(** The command: the three arguments are what the user enters in the name,
    title and description boxes ([None] when a box is dismissed). *)
Definition createBucketCommand (t : MultiPRTreeProvider)
    (nameEntry titleEntry descriptionEntry : option string)
  : MultiPRTreeProvider * list Notification :=
  match Js.truthy (showInputBox (validateBucketName t) nameEntry) with
  | Some bucketName =>
      match Js.truthy (showInputBox validateTitle titleEntry) with
      | Some ti =>
          let d := match descriptionEntry with
                   | Some d => Js.trim d
                   | None => ""
                   end in
          (createBucket t (Js.trim bucketName) (Js.trim ti) d,
           [InfoCreatedBucket bucketName])
      | None => (t, [])
      end
  | None => (t, [])
  end.

(** ** Dependency order ([setBucketDependency], [updateBucketOrder]) *)

(** [bs.find(b => b.name === n)]: the first bucket of that name. *)
Definition findBucket (bs : list PRBucket) (n : string) : option PRBucket :=
  snd <$> list_find (λ b, name b = n) bs.

(** The name a bucket name depends on, as [visit] reads it:
    [bucket?.dependsOn] when truthy. *)
Definition dependencyOf (bs : list PRBucket) (n : string) : option string :=
  findBucket bs n ≫= λ b, Js.truthy (dependsOn b).

(** The three locals of [updateBucketOrder]; [orderNames] is the array
    [order]. *)
Record SortState := {
  visited : gset string;
  visiting : gset string;
  orderNames : list string
}.

Definition emptySort : SortState :=
  {| visited := ∅; visiting := ∅; orderNames := [] |}.

Definition enter (n : string) (st : SortState) : SortState :=
  {| visited := visited st; visiting := {[n]} ∪ visiting st;
     orderNames := orderNames st |}.

Definition leave (n : string) (st : SortState) : SortState :=
  {| visited := {[n]} ∪ visited st; visiting := visiting st ∖ {[n]};
     orderNames := orderNames st ++ [n] |}.

(** The closure [visit]. The recursion of the source is not structural;
    [fuel] bounds its depth and [None] means the bound was reached. *)
Fixpoint visit (fuel : nat) (bs : list PRBucket) (bucketName : string)
    (st : SortState) : option (bool * SortState) :=
  match fuel with
  | 0 => None
  | S fuel' =>
      if decide (bucketName ∈ visiting st) then Some (false, st)
      else if decide (bucketName ∈ visited st) then Some (true, st)
      else
        match dependencyOf bs bucketName with
        | Some d =>
            match visit fuel' bs d (enter bucketName st) with
            | None => None
            | Some (false, st') => Some (false, st')
            | Some (true, st') => Some (true, leave bucketName st')
            end
        | None => Some (true, leave bucketName (enter bucketName st))
        end
  end.

(** How the loop over [this.buckets] ends. *)
Inductive SortOutcome :=
| Ordered (st : SortState)
| Circular (i : nat) (b : PRBucket)
| Exhausted.

(** The loop [for (const bucket of this.buckets)]: [i] is the position of
    the head of [rest] in [bs]. *)
Fixpoint visitAll (fuel : nat) (bs : list PRBucket) (i : nat)
    (rest : list PRBucket) (st : SortState) : SortOutcome :=
  match rest with
  | [] => Ordered st
  | b :: rest' =>
      if decide (name b ∈ visited st) then visitAll fuel bs (S i) rest' st
      else
        match visit fuel bs (name b) st with
        | None => Exhausted
        | Some (false, _) => Circular i b
        | Some (true, st') => visitAll fuel bs (S i) rest' st'
        end
  end.

(** The callback of [order.forEach((bucketName, index) => ...)]: the first
    bucket of the name receives the index. *)
Definition numbered (index : nat) (n : string) (bs : list PRBucket)
  : list PRBucket :=
  match list_find (λ b, name b = n) bs with
  | Some (i, b) => <[i := with_order b (Some index)]> bs
  | None => bs
  end.

(** [order.forEach(...)], from position [index] on. *)
Fixpoint assignOrder (index : nat) (names : list string) (bs : list PRBucket)
  : list PRBucket :=
  match names with
  | [] => bs
  | n :: names' => assignOrder (S index) names' (numbered index n bs)
  end.

Definition circularWarning (n : string) : string :=
  "Circular dependency detected involving " +:+ n +:+ ". Dependency removed.".

(** [updateBucketOrder] with a bound on the number of passes; the result is
    the new array and the warnings shown, oldest first. *)
Fixpoint updateBucketOrderWithin (passes : nat) (bs : list PRBucket)
  : option (list PRBucket * list string) :=
  match passes with
  | 0 => None
  | S passes' =>
      match visitAll (S (length bs)) bs 0 bs emptySort with
      | Exhausted => None
      | Circular i b =>
          '(bs', ws) ← updateBucketOrderWithin passes'
                         (<[i := with_dependsOn b None]> bs);
          Some (bs', circularWarning (name b) :: ws)
      | Ordered st => Some (assignOrder 0 (orderNames st) bs, [])
      end
  end.

(** [updateBucketOrder]: one more pass than there are buckets is always
    enough ([updateBucketOrder_spec]), and more passes or a deeper
    recursion return the same ([updateBucketOrderWithin_more],
    [visit_more]). *)
Definition updateBucketOrder (bs : list PRBucket)
  : option (list PRBucket * list string) :=
  updateBucketOrderWithin (S (length bs)) bs.

(** [setBucketDependency] *)
Definition setBucketDependency (t : MultiPRTreeProvider) (bucketName : string)
    (d : option string) : option (MultiPRTreeProvider * list string) :=
  match list_find (λ b, name b = bucketName) (buckets t) with
  | Some (i, b) =>
      '(bs', ws) ← updateBucketOrder (<[i := with_dependsOn b d]> (buckets t));
      Some ({| buckets := bs'; gitChanges := gitChanges t |}, ws)
  | None => Some (t, [])
  end.

(** [a.order || 0] *)
Definition orderKey (b : PRBucket) : nat := default 0 (order b).

(** [Array.prototype.sort] with the comparator
    [(a, b) => (a.order || 0) - (b.order || 0)]: the sort is stable, so its
    result is the one of insertion from the right. *)
Fixpoint insertByOrder (b : PRBucket) (l : list PRBucket) : list PRBucket :=
  match l with
  | [] => [b]
  | x :: r =>
      if decide (orderKey b ≤ orderKey x)%nat then b :: x :: r
      else x :: insertByOrder b r
  end.

Definition sortByOrder (l : list PRBucket) : list PRBucket :=
  foldr insertByOrder [] l.

(** [getBucketsInOrder] *)
Definition getBucketsInOrder (t : MultiPRTreeProvider) : list PRBucket :=
  sortByOrder (buckets t).

(** The dependency graph as the resolver reads it: an edge from a bucket
    name to the name its first bucket depends on. *)
Definition dependsEdge (bs : list PRBucket) (n d : string) : Prop :=
  dependencyOf bs n = Some d.

Definition Acyclic (bs : list PRBucket) : Prop :=
  ∀ n, ¬ tc (dependsEdge bs) n n.

(** [x] stands before [y] in [l]. *)
Definition before {A} (x y : A) (l : list A) : Prop :=
  ∃ i j, l !! i = Some x ∧ l !! j = Some y ∧ (i < j)%nat.

(** The number of dependency edges held by the buckets. *)
Definition edgeCount (bs : list PRBucket) : nat :=
  length (filter (λ b, is_Some (Js.truthy (dependsOn b))) bs).

(** The names of the buckets, as a set. *)
Definition bucketNames (bs : list PRBucket) : gset string :=
  list_to_set (name <$> bs).

(** What holds of the locals of [updateBucketOrder] between two visits:
    [order] lists the visited names once each, and the name a visited name
    depends on stands before it. *)
Record SortInv (bs : list PRBucket) (st : SortState) : Prop := {
  sort_nodup : NoDup (orderNames st);
  sort_visited : ∀ x, x ∈ orderNames st ↔ x ∈ visited st;
  sort_before : ∀ n d, n ∈ visited st → dependencyOf bs n = Some d →
                before d n (orderNames st)
}.

(** Two buckets that differ at most in [order]. *)
Definition sameButOrder (b b' : PRBucket) : Prop :=
  with_order b None = with_order b' None.

(** [b'] is [b] with another [order], and with [dependsOn] kept or
    cleared. *)
Definition keptOrCleared (b b' : PRBucket) : Prop :=
  sameButOrder b b' ∨ sameButOrder (with_dependsOn b None) b'.

(** The [order] values rise along every dependency edge between buckets. *)
Definition Ranked (bs : list PRBucket) : Prop :=
  ∀ n d b a,
    findBucket bs n = Some b → Js.truthy (dependsOn b) = Some d →
    findBucket bs d = Some a →
    ∃ i j, order a = Some i ∧ order b = Some j ∧ (i < j)%nat.

(** Along a listing the order keys never fall. *)
Definition keysRise (l : list PRBucket) : Prop :=
  ∀ i j x y, l !! i = Some x → l !! j = Some y → (i < j)%nat →
             (orderKey x ≤ orderKey y)%nat.

(** Every bucket name has its first bucket numbered, and two names do not
    share a number. *)
Definition Numbered (bs : list PRBucket) : Prop :=
  (∀ b, b ∈ bs →
        ∃ b1 k, findBucket bs (name b) = Some b1 ∧ order b1 = Some k) ∧
  (∀ n m b a k, findBucket bs n = Some b → findBucket bs m = Some a →
                order b = Some k → order a = Some k → n = m).

(** From the name [n] the chain of dependencies comes to a name that lies
    on a cycle. *)
Definition ReachesCycle (bs : list PRBucket) (n : string) : Prop :=
  ∃ c, rtc (dependsEdge bs) n c ∧ tc (dependsEdge bs) c c.

(** What the resolver makes of the buckets [bs]: as long as the name of a
    bucket reaches a cycle, the first such bucket in store order loses its
    dependency and a warning names it; the buckets that are left keep all
    but [order], and their order numbers rise along the edges. *)
Inductive Resolves : list PRBucket → list PRBucket → list string → Prop :=
| Resolves_ordered bs bs' :
    Acyclic bs → Forall2 sameButOrder bs bs' → Ranked bs' → Numbered bs' →
    Resolves bs bs' []
| Resolves_cleared bs i b bs' ws :
    bs !! i = Some b →
    ReachesCycle bs (name b) →
    is_Some (Js.truthy (dependsOn b)) →
    (∀ j a, (j < i)%nat → bs !! j = Some a → ¬ ReachesCycle bs (name a)) →
    Resolves (<[i := with_dependsOn b None]> bs) bs' ws →
    Resolves bs bs' (circularWarning (name b) :: ws).

(** ** The outside world of [GitManager] *)

(** What [GitManager] does to the outside: a child process run by
    [execSync] (with its working directory when one is given), a file
    written, a file removed. *)
Inductive Effect :=
| Exec (cwd : option string) (cmd : string)
| WriteFile (file content : string)
| Unlink (file : string).

(** A call returns a value or throws an [Error] with a message. *)
Inductive Result (A : Type) :=
| Ok (a : A)
| Throw (message : string).
Arguments Ok {A} a.
Arguments Throw {A} message.

(** The oracle: what an effect answers after the effects so far (the
    standard output of a process, or the message of the error thrown), the
    value of [Date.now()], and the two library functions the adapter calls. *)
Record Env := {
  respond : list Effect → Effect → Result string;
  clock : list Effect → N;
  pathJoin : list string → string;
  encodeURIComponent : string → string
}.

(** A computation of the adapter: it reads the log of effects so far and
    returns its result with the extended log. *)
Definition Git (A : Type) : Type := list Effect → Result A * list Effect.

Definition ret {A} (a : A) : Git A := λ log, (Ok a, log).

Definition throw {A} (message : string) : Git A := λ log, (Throw message, log).

Definition bind {A B} (m : Git A) (k : A → Git B) : Git B :=
  λ log, match m log with
         | (Ok a, log') => k a log'
         | (Throw e, log') => (Throw e, log')
         end.

(** [try { m } catch (error) { h error }] *)
Definition tryCatch {A} (m : Git A) (h : string → Git A) : Git A :=
  λ log, match m log with
         | (Ok a, log') => (Ok a, log')
         | (Throw e, log') => h e log'
         end.

#[global] Instance Git_ret : MRet Git := @ret.
#[global] Instance Git_bind : MBind Git := λ A B k m, bind m k.

(** [for (const x of l) { body x }] *)
Fixpoint forEach {A} (l : list A) (body : A → Git ()) : Git () :=
  match l with
  | [] => ret ()
  | x :: r => bind (body x) (λ _, forEach r body)
  end.

Inductive RepoType := github | bitbucket | unknown.

#[global] Instance RepoType_eq_dec : EqDecision RepoType.
Proof. solve_decision. Defined.

(** The two fields of [GitManager]. *)
Record GitManager := {
  workspaceRoot : string;
  repoType : RepoType
}.

(** [config.get('useGitHubCLI', true)] and
    [config.get('defaultBaseBranch', 'main')]. *)
Record Config := {
  useGitHubCLI : bool;
  defaultBaseBranch : string
}.

(** One entry of the array [results]. *)
Module ProcessingResult.
Record t := {
  bucketName : string;
  branchName : string;
  url : option string;
  success : bool;
  manual : option bool;
  error : option string
}.
End ProcessingResult.

(** The bucket array of one run and the entries pushed so far. *)
Record RunState := {
  runBuckets : list PRBucket;
  results : list ProcessingResult.t
}.

(** How the body of the progress callback ends: the [try] block ran to its
    end, or the [catch] clause took over. *)
Inductive Outcome :=
| Completed (rs : RunState) (shown : list Notification) (cleared : bool)
| Aborted (shown : list Notification).

(** ** Branch names *)

Module BranchName.

(** What [toLowerCase()] and then [.replace(/[^a-z0-9\s]/g, '')] leave
    of a character: a letter or a digit, white space ([None]), or
    nothing. A capital letter of ASCII is kept as its small letter.
    Outside ASCII two characters have a lower-case form that holds a
    character of the class: U+0130, lowered to [i] followed by U+0307,
    and U+212A, lowered to [k]. *)
Definition lowerKept (code : N) : list (option ascii) :=
  if Js.isSpace code then [None]
  else if (65 <=? code)%N && (code <=? 90)%N
  then [Some (ascii_of_nat (N.to_nat code + 32))]
  else if ((97 <=? code)%N && (code <=? 122)%N) ||
          ((48 <=? code)%N && (code <=? 57)%N)
  then [Some (ascii_of_nat (N.to_nat code))]
  else if (code =? 0x130)%N then [Some "i"%char]
  else if (code =? 0x212A)%N then [Some "k"%char]
  else [].

(** [.replace(/\s+/g, '-')]: [inRun] tells that the previous character
    was white space. *)
Fixpoint dashSpaces (inRun : bool) (l : list (option ascii)) : list ascii :=
  match l with
  | [] => []
  | None :: r =>
      if inRun then dashSpaces true r else "-"%char :: dashSpaces true r
  | Some c :: r => c :: dashSpaces false r
  end.

Definition isDash (c : ascii) : bool := bool_decide (c = "-"%char).

(** The chain of replacements applied to the bucket name. *)
Definition sanitize (bucketName : string) : string :=
  let kept :=
    concat ((λ c, lowerKept c.1) <$> Js.codePoints (Js.chars bucketName)) in
  let dashed := dashSpaces false kept in
  let stripped := Js.dropWhileEnd isDash (Js.dropWhile isDash dashed) in
  Js.substring0 40 (Js.unchars stripped).

(** [n.toString()] *)
Definition decimal (n : N) : string :=
  DecimalString.NilEmpty.string_of_uint (N.to_uint n).

(** [`feature/${sanitized}-${timestamp}`] *)
Definition make (bucketName : string) (now : N) : string :=
  "feature/" +:+ sanitize bucketName +:+ "-" +:+ Js.sliceLast 6 (decimal now).

End BranchName.

(** ** The adapter ([GitManager]) *)

Section GitManager.

Variable env : Env.
Variable gm : GitManager.

(** Runs one effect and logs it. *)
Definition perform (e : Effect) : Git string :=
  λ log, (respond env log e, log ++ [e]).

(** [execSync(cmd, { cwd: this.workspaceRoot })] *)
Definition execSync (cmd : string) : Git string :=
  perform (Exec (Some (workspaceRoot gm)) cmd).

(** [Date.now()] *)
Definition dateNow : Git N := λ log, (Ok (clock env log), log).

(** [try { m } catch {}] *)
Definition ignoreErrors (m : Git string) : Git () :=
  tryCatch (bind m (λ _, ret ())) (λ _, ret ()).

(** [catch (error) { throw new Error(`${prefix}${error}`) }] *)
Definition rethrow {A} (prefix : string) (m : Git A) : Git A :=
  tryCatch m (λ e, throw (prefix +:+ Js.renderError e)).

(** [!this.workspaceRoot] *)
Definition noWorkspace : bool := bool_decide (workspaceRoot gm = "").

Definition getRepoType : RepoType := repoType gm.

Definition getCurrentBranch : Git string :=
  rethrow "Failed to get current branch: "
    (branch ← execSync "git branch --show-current"; ret (Js.trim branch)).

Definition getRepositoryUrl : Git string :=
  rethrow "Failed to get repository URL: "
    (out ← execSync "git config --get remote.origin.url";
     let remoteUrl := Js.trim out in
     ret (if Js.startsWith "git@github.com:" remoteUrl then
            Js.replaceFirst ".git" ""
              (Js.replaceFirst "git@github.com:" "https://github.com/" remoteUrl)
          else if Js.startsWith "git@bitbucket.org:" remoteUrl then
            Js.replaceFirst ".git" ""
              (Js.replaceFirst "git@bitbucket.org:" "https://bitbucket.org/"
                 remoteUrl)
          else if Js.includes "github.com" remoteUrl then
            Js.replaceFirst ".git" "" remoteUrl
          else if Js.includes "bitbucket.org" remoteUrl then
            Js.replaceFirst ".git" "" remoteUrl
          else remoteUrl)).

(** [file.status === 'Deleted' || file.gitStatus === 'D'] *)
Definition isDeletion (file : FileItem) : bool :=
  bool_decide (status file = "Deleted") || bool_decide (gitStatus file = Some "D").

Definition gitReset : string := "git reset".
Definition gitRm (p : string) : string :=
  "git rm -f --ignore-unmatch " +:+ Js.quote p.
Definition gitAdd (p : string) : string := "git add " +:+ Js.quote p.

(** The body of the loop of [stageFilesForBucket]. *)
Definition stageFile (file : FileItem) : Git () :=
  if isDeletion file
  then ignoreErrors (execSync (gitRm (path file)))
  else bind (execSync (gitAdd (path file))) (λ _, ret ()).



Definition stageFilesForBucket (bucket : PRBucket) : Git () :=
  if noWorkspace || bool_decide (length (files bucket) = 0) then ret ()
  else
    rethrow ("Failed to stage files for " +:+ name bucket +:+ ": ")
      (bind (execSync gitReset) (λ _, forEach (files bucket) stageFile)).

Definition gitCheckout (branch : string) : string :=
  "git checkout " +:+ Js.quote branch.
Definition gitCheckoutNew (branch : string) : string :=
  "git checkout -b " +:+ Js.quote branch.

Definition createBranchForBucket (bucketName : string)
    (baseBranch : option string) : Git string :=
  if noWorkspace then throw "No workspace root found"
  else
    rethrow ("Failed to create branch for " +:+ bucketName +:+ ": ")
      (now ← dateNow;
       let branch := BranchName.make bucketName now in
       match Js.truthy baseBranch with
       | Some base =>
           if bool_decide (Js.trim base = "") then ret ()
           else
             tryCatch
               (bind (execSync (gitCheckout base)) (λ _,
                  ignoreErrors (execSync "git pull --ff-only")))
               (λ _, ret ())
       | None => ret ()
       end;;
       execSync (gitCheckoutNew branch);;
       ret branch).

(** The commit message of [commitBucket]. *)
Definition commitMessage (bucket : PRBucket) : string :=
  let filesList := Js.join Js.nl ((λ f, "- " +:+ path f) <$> files bucket) in
  title bucket +:+ Js.nl +:+ Js.nl +:+
  (if bool_decide (description bucket = "") then ""
   else description bucket +:+ Js.nl +:+ Js.nl) +:+
  "Files modified:" +:+ Js.nl +:+ filesList.

Definition commitBucket (bucket : PRBucket) : Git () :=
  if noWorkspace then ret ()
  else
    rethrow ("Failed to commit " +:+ name bucket +:+ ": ")
      (let tempFile :=
         pathJoin env [workspaceRoot gm; ".git"; "COMMIT_EDITMSG_TEMP"] in
       perform (WriteFile tempFile (commitMessage bucket));;
       execSync ("git commit -F " +:+ Js.quote tempFile);;
       ignoreErrors (perform (Unlink tempFile))).

Definition gitPush (branch : string) : string :=
  "git push -u origin " +:+ Js.quote branch.

Definition pushBranch (branch : string) : Git () :=
  if noWorkspace then ret ()
  else
    rethrow ("Failed to push branch " +:+ branch +:+ ": ")
      (bind (execSync (gitPush branch)) (λ _, ret ())).

Definition switchToBranch (branch : string) : Git () :=
  if noWorkspace then ret ()
  else
    rethrow ("Failed to switch to branch " +:+ branch +:+ ": ")
      (bind (execSync (gitCheckout branch)) (λ _, ret ())).

(** [output.match(/https:\/\/github\.com\/[^\s]+/)]: the first place where
    the prefix is followed by at least one character that is not white
    space, with the longest such run. *)
Fixpoint stripPrefix (p l : list ascii) : option (list ascii) :=
  match p, l with
  | [], _ => Some l
  | _ :: _, [] => None
  | a :: p', b :: l' => if decide (a = b) then stripPrefix p' l' else None
  end.

Fixpoint takeWhile {A} (f : A → bool) (l : list A) : list A :=
  match l with
  | [] => []
  | x :: r => if f x then x :: takeWhile f r else []
  end.

Fixpoint matchGitHubUrl (l : list ascii) : option string :=
  let prefix := Js.chars "https://github.com/" in
  let here :=
    match stripPrefix prefix l with
    | Some rest =>
        match takeWhile (λ c, negb (Js.isSpace c.1)) (Js.codePoints rest) with
        | [] => None
        | run => Some (Js.unchars (prefix ++ Js.bytes run))
        end
    | None => None
    end in
  match here, l with
  | Some u, _ => Some u
  | None, [] => None
  | None, _ :: r => matchGitHubUrl r
  end.

(** The command of [createGitHubPR]. *)
Definition ghPrCreate (bucket : PRBucket) (baseBranch : string) : string :=
  "gh pr create --title " +:+ Js.quote (title bucket) +:+
  " --body " +:+ Js.quote (description bucket) +:+
  " --base " +:+ Js.quote baseBranch +:+
  " --head " +:+ Js.quote (default "undefined" (branchName bucket)).

Definition createGitHubPR (bucket : PRBucket) (baseBranch : string) : Git string :=
  rethrow "Failed to create GitHub PR: "
    (let cmd := ghPrCreate bucket baseBranch in
     output ← execSync cmd;
     match matchGitHubUrl (Js.chars output) with
     | Some u => ret u
     | None => repoUrl ← getRepositoryUrl; ret (repoUrl +:+ "/pulls")
     end).

Definition createBitbucketPR (bucket : PRBucket) (baseBranch : string)
  : Git string :=
  rethrow "Failed to create Bitbucket PR URL: "
    (repoUrl ← getRepositoryUrl;
     ret (repoUrl +:+ "/pull-requests/new?source=" +:+
          encodeURIComponent env (default "undefined" (branchName bucket)) +:+
          "&dest=" +:+ encodeURIComponent env baseBranch +:+
          "&title=" +:+ encodeURIComponent env (title bucket) +:+
          "&description=" +:+ encodeURIComponent env (description bucket))).

Definition createPRWithCLI (bucket : PRBucket) (baseBranch : string)
  : Git string :=
  if noWorkspace || bool_decide (Js.truthy (branchName bucket) = None)
  then throw "Invalid bucket or branch name"
  else
    match repoType gm with
    | github => createGitHubPR bucket baseBranch
    | bitbucket => createBitbucketPR bucket baseBranch
    | unknown => throw "Unsupported repository type for PR creation"
    end.

(** ** The run of [multiPR.processAll] *)

Variable config : Config.

(** [bucketByName[n]] for
    [bucketByName = Object.fromEntries(buckets.map(b => [b.name, b]))]: the
    last bucket of that name. A key inherited from the prototype yields an
    object without [branchName], which the caller treats as no bucket. *)
Definition bucketByName (bs : list PRBucket) (n : string) : option PRBucket :=
  findBucket (reverse bs) n.

(** The base branch of a bucket, given the buckets of the run as they are
    when the bucket's turn comes. *)
Definition baseBranchOf (bs : list PRBucket) (bucket : PRBucket) : string :=
  match Js.truthy (dependsOn bucket) with
  | Some d =>
      match bucketByName bs d ≫= λ a, Js.truthy (branchName a) with
      | Some branch => branch
      | None => defaultBaseBranch config
      end
  | None => defaultBaseBranch config
  end.

Definition pushResult (rs : RunState) (bs : list PRBucket)
    (r : ProcessingResult.t) : RunState :=
  {| runBuckets := bs; results := results rs ++ [r] |}.

(** Steps 1 to 4 for the bucket at position [i]: the array with the
    branch name assigned, the base branch and the branch name. *)
Definition gitSteps (i : nat) (bucket : PRBucket) (rs : RunState)
  : Git (list PRBucket * PRBucket * string * string) :=
  let baseBranch := baseBranchOf (runBuckets rs) bucket in
  branch ← createBranchForBucket (name bucket) (Some baseBranch);
  let bucket' := with_branchName bucket (Some branch) in
  let bs := <[i := bucket']> (runBuckets rs) in
  stageFilesForBucket bucket';;
  commitBucket bucket';;
  pushBranch branch;;
  ret (bs, bucket', baseBranch, branch).

(** The last step: the pull request, or the comparison URL. *)
Definition requestStep (rs : RunState)
    (done : list PRBucket * PRBucket * string * string) : Git RunState :=
  let '(bs, bucket, baseBranch, branch) := done in
  if useGitHubCLI config || bool_decide (getRepoType = bitbucket) then
    tryCatch
      (prUrl ← createPRWithCLI bucket baseBranch;
       ret (pushResult rs bs
              {| ProcessingResult.bucketName := name bucket;
                 ProcessingResult.branchName := branch;
                 ProcessingResult.url := Some prUrl;
                 ProcessingResult.success := true;
                 ProcessingResult.manual :=
                   Some (bool_decide (getRepoType = bitbucket));
                 ProcessingResult.error := None |}))
      (λ e,
       ret (pushResult rs bs
              {| ProcessingResult.bucketName := name bucket;
                 ProcessingResult.branchName := branch;
                 ProcessingResult.url := None;
                 ProcessingResult.success := false;
                 ProcessingResult.manual := None;
                 ProcessingResult.error := Some (Js.renderError e) |}))
  else
    repoUrl ← getRepositoryUrl;
    ret (pushResult rs bs
           {| ProcessingResult.bucketName := name bucket;
              ProcessingResult.branchName := branch;
              ProcessingResult.url := Some (repoUrl +:+ "/compare/" +:+ branch);
              ProcessingResult.success := true;
              ProcessingResult.manual := Some true;
              ProcessingResult.error := None |}).

(** The body of [for (const bucket of buckets)] for the bucket at
    position [i]. *)
Definition processBucket (i : nat) (rs : RunState) : Git RunState :=
  match runBuckets rs !! i with
  | Some bucket => bind (gitSteps i bucket rs) (requestStep rs)
  | None => ret rs
  end.

(** The loop, for [n] buckets from position [i] on. *)
Fixpoint processFrom (i n : nat) (rs : RunState) : Git RunState :=
  match n with
  | 0 => ret rs
  | S n' => bind (processBucket i rs) (processFrom (S i) n')
  end.

(** What is shown after the loop, and whether the buckets are cleared
    ([clearBuckets]). The bullet in front of each error line, and the
    opening of the result URLs when the user asks for it, belong to the
    presentation and are left out. *)
Definition report (rs : RunState) : list Notification * bool :=
  let successCount := length (filter (λ r, ProcessingResult.success r = true)
                                     (results rs)) in
  let failureCount := length (results rs) - successCount in
  let hasManualPRs :=
    existsb (λ r, ProcessingResult.success r &&
                  bool_decide (ProcessingResult.manual r = Some true))
            (results rs) in
  let errors :=
    Js.join Js.nl
      ((λ r, ProcessingResult.bucketName r +:+ ": " +:+
             default "undefined" (ProcessingResult.error r)) <$>
       filter (λ r, ProcessingResult.success r = false) (results rs)) in
  ((if decide (0 < successCount)%nat
    then [InfoCreated successCount
            (useGitHubCLI config && bool_decide (getRepoType = github) &&
             negb hasManualPRs)]
    else []) ++
   (if decide (0 < failureCount)%nat
    then [ErrorFailed failureCount errors] else []),
   bool_decide (0 < successCount)%nat).

(** The [try] block of the progress callback and its [catch] clause;
    [buckets] are the ordered buckets that have files. The calls of
    [progress.report] have no effect on the run and are left out. *)
Definition processAll (buckets : list PRBucket) : list Effect → Outcome * list Effect :=
  λ log,
    match
      (originalBranch ← getCurrentBranch;
       rs ← processFrom 0 (length buckets)
              {| runBuckets := buckets; results := [] |};
       switchToBranch originalBranch;;
       ret rs) log
    with
    | (Ok rs, log') => (Completed rs (report rs).1 (report rs).2, log')
    | (Throw e, log') => (Aborted [ErrorRun (Js.renderError e)], log')
    end.

End GitManager.

(** What holds of the run state when the loop comes to position [j] of the
    buckets [bs] it was started on: the buckets before [j] have one result
    each and carry the branch name of their result, the others are as they
    were. *)
Record RunInv (bs : list PRBucket) (j : nat) (rs : RunState) : Prop := {
  run_results : length (results rs) = j;
  run_length : length (runBuckets rs) = length bs;
  run_rest : ∀ k, (j ≤ k)%nat → runBuckets rs !! k = bs !! k;
  run_done : ∀ i r, results rs !! i = Some r →
    ∃ A, bs !! i = Some A ∧
         ProcessingResult.bucketName r = name A ∧
         Js.truthy (Some (ProcessingResult.branchName r))
         = Some (ProcessingResult.branchName r) ∧
         runBuckets rs !! i
         = Some (with_branchName A (Some (ProcessingResult.branchName r)))
}.

(** The entry pushed when the request step of a bucket throws. *)
Definition failureResult (bucket : PRBucket) (branch e : string)
  : ProcessingResult.t :=
  {| ProcessingResult.bucketName := name bucket;
     ProcessingResult.branchName := branch;
     ProcessingResult.url := None;
     ProcessingResult.success := false;
     ProcessingResult.manual := None;
     ProcessingResult.error := Some (Js.renderError e) |}.

(** The checkouts among the effects of a log. *)
Definition checkouts (log : list Effect) : list string :=
  omap (λ e, match e with
             | Exec _ cmd =>
                 if Js.startsWith "git checkout" cmd then Some cmd else None
             | _ => None
             end) log.

(** The buckets [multiPR.processAll] works on. *)
Definition bucketsToProcess (t : MultiPRTreeProvider) : list PRBucket :=
  filter (λ b, (0 < length (files b))%nat) (getBucketsInOrder t).

(** A computation only adds to the log of effects. *)
Definition Extends {A} (m : Git A) : Prop :=
  ∀ log, log `prefix_of` (m log).2.

(** ** Concrete stores, runs and oracles

    The inputs at which the properties below are exercised. *)

Module Examples.

Definition file (p st : string) (gs : option string) : FileItem :=
  {| path := p; status := st; label := p; isDirectory := Some false;
     size := None; lastModified := None; gitStatus := gs |}.

Definition bucket (n : string) (fs : list FileItem) (d : option string)
  : PRBucket :=
  {| name := n; title := n; description := ""; files := fs;
     branchName := None; dependsOn := d; order := None |}.

Definition readme : FileItem := file "README.md" "Modified" (Some "M").
Definition main_ts : FileItem := file "src/main.ts" "Added" (Some "A").
Definition old_ts : FileItem := file "src/old.ts" "Deleted" (Some "D").

(** A freshly loaded provider: three changed files, no bucket. *)
Definition loaded : MultiPRTreeProvider :=
  {| buckets := []; gitChanges := [readme; main_ts; old_ts] |}.


(** A store that holds one bucket named A. *)
Definition storeA : MultiPRTreeProvider :=
  {| buckets := [bucket "A" [] None]; gitChanges := [] |}.

(** Bucket A depends on bucket B; the user then makes B depend on A. *)
Definition storeAB : MultiPRTreeProvider :=
  {| buckets := [bucket "A" [] (Some "B"); bucket "B" [] None];
     gitChanges := [] |}.

(** A chain: C depends on B, B depends on A; C was created first. *)
Definition storeChain : MultiPRTreeProvider :=
  {| buckets := [bucket "C" [] (Some "B"); bucket "B" [] (Some "A");
                 bucket "A" [] None];
     gitChanges := [] |}.

(** An oracle: the processes that [fails] selects throw, the two queries
    answer with the branch [main] and a GitHub remote, everything else
    succeeds silently; the clock stands still. *)
Definition oracle (fails : string → bool) : Env :=
  {| respond := λ _ e,
       match e with
       | Exec _ cmd =>
           if fails cmd then Throw ("Command failed: " +:+ cmd)
           else if bool_decide (cmd = "git branch --show-current")
           then Ok ("main" +:+ Js.nl)
           else if bool_decide (cmd = "git config --get remote.origin.url")
           then Ok ("git@github.com:acme/shop.git" +:+ Js.nl)
           else Ok ""
       | _ => Ok ""
       end;
     clock := λ _, 1730000123456%N;
     pathJoin := Js.join "/";
     encodeURIComponent := id |}.

Definition quiet : Env := oracle (λ _, false).

(** The push of the branch of bucket A fails; every other process
    succeeds. *)
Definition pushFails : Env :=
  oracle (Js.startsWith ("git push -u origin " +:+ Js.dq +:+ "feature/a-")).

(** The hosting CLI fails. *)
Definition ghFails : Env := oracle (Js.startsWith "gh pr create").

Definition inRepo : GitManager :=
  {| workspaceRoot := "/work/shop"; repoType := github |}.

Definition noFolder : GitManager :=
  {| workspaceRoot := ""; repoType := github |}.

Definition withCLI : Config :=
  {| useGitHubCLI := true; defaultBaseBranch := "main" |}.

(** Two buckets with files; B depends on A. *)
Definition bucketA : PRBucket := bucket "A" [readme] None.
Definition bucketB : PRBucket := bucket "B" [main_ts; old_ts] (Some "A").
Definition stacked : list PRBucket := [bucketA; bucketB].

(** Two independent buckets with files. *)
Definition bucketC : PRBucket := bucket "C" [main_ts] None.
Definition independent : list PRBucket := [bucketA; bucketC].

End Examples.

(** ** Loading the changed files ([loadGitChanges], [clearBuckets]) *)

(** [getStatusLabel] *)
Definition getStatusLabel (st : string) : string :=
  if bool_decide (st = "M") then "Modified"
  else if bool_decide (st = "A") then "Added"
  else if bool_decide (st = "D") then "Deleted"
  else if bool_decide (st = "R") then "Renamed"
  else if bool_decide (st = "C") then "Copied"
  else if bool_decide (st = "??") then "Untracked"
  else "Changed".

(** What [fs.statSync] tells of a path. *)
Record Stats := {
  statIsDirectory : bool;
  statSize : N;
  statMtime : Z
}.

Module Lines.

(** [s.split('\n')], on characters; [cur] holds the current piece,
    reversed. *)
Fixpoint splitFrom (cur : list ascii) (l : list ascii) : list (list ascii) :=
  match l with
  | [] => [reverse cur]
  | c :: r =>
      if bool_decide (c = "010"%char) then reverse cur :: splitFrom [] r
      else splitFrom (c :: cur) r
  end.

Definition split (s : string) : list string :=
  Js.unchars <$> splitFrom [] (Js.chars s).

(** A slash or a backslash. *)
Definition isSlash (c : ascii) : bool :=
  bool_decide (c = "/"%char) || bool_decide (c = "092"%char).

(** [s.endsWith('/') || s.endsWith('\\')] *)
Definition hasTrailingSlash (s : string) : bool :=
  match last (Js.chars s) with
  | Some c => isSlash c
  | None => false
  end.

(** [s.replace(/[\\/]+$/g, '')] *)
Definition stripSlashes (s : string) : string :=
  Js.unchars (Js.dropWhileEnd isSlash (Js.chars s)).

(** [s.substring(3)] *)
Definition substringFrom3 (s : string) : string :=
  Js.unchars (drop 3 (Js.chars s)).

End Lines.

Section LoadGitChanges.

(** The two other fields of the provider, the oracle of processes and the
    oracle of [fs.statSync] ([None] when it throws). *)
Variable env : Env.
Variable providerRoot : string.
Variable isGitRepo : bool.
Variable statSync : string → option Stats.

(** The callback of [map] in [loadGitChanges]: [None] for an entry that is
    a directory. *)
Definition parseStatusLine (line : string) : option FileItem :=
  let st := Js.trim (Js.substring0 2 line) in
  let filePath0 := Lines.substringFrom3 line in
  let trailing := Lines.hasTrailingSlash filePath0 in
  let filePath := if trailing then Lines.stripSlashes filePath0 else filePath0 in
  let fullPath := pathJoin env [providerRoot; filePath] in
  let found := statSync fullPath in
  let isDir := match found with
               | Some stats => statIsDirectory stats
               | None => trailing
               end in
  if isDir then None
  else Some {| path := filePath;
               status := getStatusLabel st;
               label := filePath;
               isDirectory := Some false;
               size := statSize <$> found;
               lastModified := statMtime <$> found;
               gitStatus := Some st |}.

(** The chain of [split], [filter], [map] and the two [filter]s. *)
Definition parseStatus (t : MultiPRTreeProvider) (output : string)
  : list FileItem :=
  filter (λ f, isFileInBucket t (path f) = false)
    (omap parseStatusLine
       (filter (λ line, Js.trim line ≠ "") (Lines.split output))).

Definition gitStatusPorcelain : Effect :=
  Exec (Some providerRoot) "git status --porcelain".

Definition with_gitChanges (t : MultiPRTreeProvider) (fs : list FileItem)
  : MultiPRTreeProvider :=
  {| buckets := buckets t; gitChanges := fs |}.

(** [loadGitChanges]: it never throws. *)
Definition loadGitChanges (t : MultiPRTreeProvider) : Git MultiPRTreeProvider :=
  tryCatch
    (if bool_decide (providerRoot = "") then ret (with_gitChanges t [])
     else if negb isGitRepo then ret (with_gitChanges t [])
     else
       bind (perform env gitStatusPorcelain) (λ output,
         ret (with_gitChanges t (parseStatus t output))))
    (λ _, ret (with_gitChanges t [])).

(** [clearBuckets] *)
Definition clearBuckets (t : MultiPRTreeProvider) : Git MultiPRTreeProvider :=
  loadGitChanges {| buckets := []; gitChanges := gitChanges t |}.

End LoadGitChanges.

(** ** Drag and drop ([handleDrag], [handleDrop]) *)

(** What can be dragged: a bucket or a file entry (a folder entry is a
    file entry whose [isDirectory] is true). *)
Inductive TreeElement :=
| BucketElement (b : PRBucket)
| FileElement (f : FileItem).

(** [handleDrag]: the files put in the transfer, when there are some. *)
Definition handleDrag (source : list TreeElement) : option (list FileItem) :=
  let fileItems :=
    omap (λ e, match e with
               | FileElement f =>
                   if bool_decide (isDirectory f = Some true) then None
                   else Some f
               | BucketElement _ => None
               end) source in
  if bool_decide (fileItems = []) then None else Some fileItems.

(** Where the files are dropped: on a bucket, or anywhere else (the root,
    a file, a placeholder). *)
Inductive DropTarget :=
| OnBucket (r : BucketRef)
| Elsewhere.

(** The two loops of [handleDrop]: the provider after the moves and the
    number of moves that returned true. *)
Definition dropOnBucket (t : MultiPRTreeProvider) (r : BucketRef)
    (fileItems : list FileItem) : MultiPRTreeProvider * nat :=
  foldl (λ acc file,
           let res := moveFileToBucket acc.1 file r in
           (res.1, if res.2 then S acc.2 else acc.2))
        (t, 0) fileItems.

Definition dropElsewhere (t : MultiPRTreeProvider) (fileItems : list FileItem)
  : MultiPRTreeProvider * nat :=
  foldl (λ acc file,
           let res := moveFileToGitChanges acc.1 file in
           (res.1, if res.2 then S acc.2 else acc.2))
        (t, 0) fileItems.

(** [handleDrop]: the provider and the number of files reported as moved
    (a message is shown when it is not zero). *)
Definition handleDrop (t : MultiPRTreeProvider) (target : DropTarget)
    (transfer : option (list FileItem)) : MultiPRTreeProvider * nat :=
  match transfer with
  | None => (t, 0)
  | Some fileItems =>
      match target with
      | OnBucket r => dropOnBucket t r fileItems
      | Elsewhere => dropElsewhere t fileItems
      end
  end.

(** ** Setting a dependency from the command ([multiPR.setDependency]) *)

(** [vscode.window.showQuickPick(picks)]: one of the picks, or nothing. *)
Definition showQuickPick (picks : list string) (choice : option string)
  : option string :=
  choice ≫= λ c, if bool_decide (c ∈ picks) then Some c else None.

(** The entries offered for a bucket: [None], then the names of the other
    buckets. *)
Definition dependencyPicks (t : MultiPRTreeProvider) (bucket : PRBucket)
  : list string :=
  "None" :: filter (λ n, n ≠ name bucket) (name <$> getBuckets t).

Definition setDependencyCommand (t : MultiPRTreeProvider) (bucket : PRBucket)
    (choice : option string) : option (MultiPRTreeProvider * list string) :=
  match showQuickPick (dependencyPicks t bucket) choice with
  | None => Some (t, [])
  | Some c =>
      setBucketDependency t (name bucket)
        (if bool_decide (c = "None") then None else Some c)
  end.

(** ** The checks of the adapter and the start of [multiPR.processAll] *)

Section Preflight.

Variable env : Env.

(** [execSync(cmd, { stdio: 'ignore' })], in the directory of the
    extension host. *)
Definition execSyncHere (cmd : string) : Git string :=
  perform env (Exec None cmd).

(** [detectRepoType], for the workspace root [root]: it never throws. *)
Definition detectRepoType (root : string) : Git RepoType :=
  tryCatch
    (bind (perform env (Exec (Some root) "git config --get remote.origin.url"))
       (λ out,
          let remoteUrl := Js.trim out in
          ret (if Js.includes "github.com" remoteUrl then github
               else if Js.includes "bitbucket.org" remoteUrl then bitbucket
               else unknown)))
    (λ _, ret unknown).

(** [new GitManager()], for the first workspace folder, if any. *)
Definition newGitManager (folder : option string) : Git GitManager :=
  let root := default "" folder in
  bind (detectRepoType root) (λ ty,
    ret {| workspaceRoot := root; repoType := ty |}).

Variable gm : GitManager.

Definition notAuthenticated : string :=
  "GitHub CLI found but not authenticated. Run: gh auth login".
Definition cliNotFound : string :=
  "GitHub CLI not found. Install from: https://cli.github.com/".
Definition unsupportedRepository : string :=
  "Unsupported repository type. Only GitHub and Bitbucket are supported.".

(** [checkGitHubCLI]: the inner [throw] happens inside the outer [try]. *)
Definition checkGitHubCLI : Git () :=
  tryCatch
    (bind (execSyncHere "gh --version") (λ _,
       tryCatch (bind (execSyncHere "gh auth status") (λ _, ret ()))
                (λ _, throw notAuthenticated)))
    (λ _, throw cliNotFound).

Definition checkBitbucketCLI : Git () := ret ().

Definition checkCLI : Git () :=
  match repoType gm with
  | github => checkGitHubCLI
  | bitbucket => checkBitbucketCLI
  | unknown => throw unsupportedRepository
  end.

Variable config : Config.

(** [`${repoType}`] *)
Definition repoTypeName (ty : RepoType) : string :=
  match ty with
  | github => "github"
  | bitbucket => "bitbucket"
  | unknown => "unknown"
  end.

(** The lines of the plan preview. *)
Definition previewBucket (buckets : list PRBucket) (b : PRBucket) : list string :=
  ["## " +:+ name b;
   "- Base branch: " +:+ baseBranchOf config buckets b] ++
  match Js.truthy (dependsOn b) with
  | Some d => ["- Depends on: " +:+ d]
  | None => []
  end ++
  ["- Files (" +:+ BranchName.decimal (N.of_nat (length (files b))) +:+ "):"] ++
  ((λ f, "  - " +:+ path f +:+ " (" +:+ status f +:+ ")") <$> files b) ++
  [""].

Definition previewLines (buckets : list PRBucket) : list string :=
  ["# Multi-PR Plan Preview"; "";
   "Repository type: " +:+ repoTypeName (getRepoType gm);
   "Default base branch: " +:+ defaultBaseBranch config; ""] ++
  concat (previewBucket buckets <$> buckets).

(** How the command ends. *)
Inductive CommandEnd :=
| NoBucketsWithFiles
    (* warning: No buckets with files found *)
| InstallPageOpened
    (* the error dialog was answered with Install GitHub CLI *)
| DialogDismissed
    (* the error dialog was closed *)
| UnknownRepository
    (* warning: Unknown repository type *)
| NotConfirmed (preview : list string)
| Ran (preview : list string) (outcome : Outcome).

(** The command up to the progress callback, then [processAll]:
    [installChoice] is the answer to the error dialog about the CLI and
    [proceed] the answer to the confirmation. What the command does to the
    provider afterwards ([clearBuckets]) is told by the outcome. *)
Definition processAllCommand (t : MultiPRTreeProvider)
    (installChoice proceed : option string)
  : list Effect → CommandEnd * list Effect :=
  λ log,
    let buckets := bucketsToProcess t in
    if bool_decide (length buckets = 0) then (NoBucketsWithFiles, log)
    else
      let confirm (log1 : list Effect) : CommandEnd * list Effect :=
        let preview := previewLines buckets in
        if bool_decide (proceed = Some "Yes, Create PRs")
        then let (outcome, log2) := processAll env gm config buckets log1 in
             (Ran preview outcome, log2)
        else (NotConfirmed preview, log1) in
      if useGitHubCLI config && bool_decide (getRepoType gm = github) then
        match checkCLI log with
        | (Ok _, log1) => confirm log1
        | (Throw _, log1) =>
            if bool_decide (installChoice = Some "Install GitHub CLI")
            then (InstallPageOpened, log1)
            else if bool_decide (installChoice = Some "Use Manual Method")
            then confirm log1
            else (DialogDismissed, log1)
        end
      else if bool_decide (getRepoType gm = bitbucket) then
        confirm (checkCLI log).2
      else if bool_decide (getRepoType gm = unknown) then
        (UnknownRepository, log)
      else confirm log.

End Preflight.

(** An entry of [results] as the loop pushes them: a success has a URL, no
    error, and is marked manual on Bitbucket and without the CLI; a failure
    has an error and no URL, and comes from the request step of the CLI
    path. *)
Definition WellReported (gm : GitManager) (config : Config)
    (r : ProcessingResult.t) : Prop :=
  if ProcessingResult.success r
  then is_Some (ProcessingResult.url r) ∧
       ProcessingResult.error r = None ∧
       ProcessingResult.manual r
       = Some (bool_decide (repoType gm = bitbucket) || negb (useGitHubCLI config))
  else ProcessingResult.url r = None ∧
       is_Some (ProcessingResult.error r) ∧
       useGitHubCLI config || bool_decide (repoType gm = bitbucket) = true.

(** ** More concrete inputs *)

Module MoreExamples.

(** The hosting CLI is installed but not logged in. *)
Definition loggedOut : Env := Examples.oracle (Js.startsWith "gh auth").

(** A store with the two buckets of [Examples.independent]. *)
Definition filled : MultiPRTreeProvider :=
  {| buckets := Examples.independent; gitChanges := [Examples.old_ts] |}.

Definition unknownRepo : GitManager :=
  {| workspaceRoot := "/work/shop"; repoType := unknown |}.

(** The answer of [git status --porcelain] for three changed files and an
    untracked folder. *)
Definition porcelain : string :=
  " M README.md" +:+ Js.nl +:+ "A  src/main.ts" +:+ Js.nl +:+
  " D src/old.ts" +:+ Js.nl +:+ "?? docs/" +:+ Js.nl.

Definition statusOracle : Env :=
  {| respond := λ _ e,
       match e with
       | Exec _ cmd =>
           if bool_decide (cmd = "git status --porcelain") then Ok porcelain
           else Ok ""
       | _ => Ok ""
       end;
     clock := λ _, 1730000123456%N;
     pathJoin := Js.join "/";
     encodeURIComponent := id |}.

(** [docs] is a directory, the deleted file is not found, the others are
    plain files. *)
Definition stat (p : string) : option Stats :=
  if bool_decide (p = "/work/shop/docs")
  then Some {| statIsDirectory := true; statSize := 0; statMtime := 0 |}
  else if bool_decide (p = "/work/shop/src/old.ts") then None
  else Some {| statIsDirectory := false; statSize := 120; statMtime := 0 |}.

(** A store in which bucket A holds the readme. *)
Definition holdingReadme : MultiPRTreeProvider :=
  {| buckets := [Examples.bucketA]; gitChanges := [] |}.

(** The remote is the SSH address of a repository whose name holds the
    text [.git] before its end; [gh pr create] prints the address of the
    pull request. *)
Definition pagesRemote : Env :=
  {| respond := λ _ e,
       match e with
       | Exec _ cmd =>
           if bool_decide (cmd = "git config --get remote.origin.url")
           then Ok ("git@github.com:acme/acme.github.io.git" +:+ Js.nl)
           else if Js.startsWith "gh pr create" cmd
           then Ok ("Creating pull request for feature/a-123456 into main" +:+
                    Js.nl +:+ "https://github.com/acme/shop/pull/7" +:+ Js.nl)
           else Ok ""
       | _ => Ok ""
       end;
     clock := λ _, 1730000123456%N;
     pathJoin := Js.join "/";
     encodeURIComponent := id |}.

(** The no-break space U+00A0, the em space U+2003 and the Kelvin sign
    U+212A, as their UTF-8 bytes. *)
Definition nbsp : string := String "194"%char (String "160"%char EmptyString).
Definition emsp : string :=
  String "226"%char (String "128"%char (String "131"%char EmptyString)).
Definition kelvin : string :=
  String "226"%char (String "132"%char (String "170"%char EmptyString)).


(** C depends on A, A depends on B; the user then makes B depend on A. *)
Definition storeTail : MultiPRTreeProvider :=
  {| buckets := [Examples.bucket "C" [] (Some "A");
                 Examples.bucket "A" [] (Some "B");
                 Examples.bucket "B" [] None];
     gitChanges := [] |}.

(** [gh pr create] prints the address of the pull request followed by a
    no-break space and a remark. *)
Definition draftRemark : Env :=
  {| respond := λ _ e,
       match e with
       | Exec _ cmd =>
           if Js.startsWith "gh pr create" cmd
           then Ok ("https://github.com/acme/shop/pull/7" +:+ nbsp +:+ "(draft)")
           else Ok ""
       | _ => Ok ""
       end;
     clock := λ _, 1730000123456%N;
     pathJoin := Js.join "/";
     encodeURIComponent := id |}.

End MoreExamples.

(** * Properties *)

(** ** The file registry *)

Section Registry.

Implicit Types (fs pool : list FileItem) (bs : list PRBucket) (p : string).

Lemma hasPath_false p fs : hasPath p fs = false → p ∉ path <$> fs.
Proof.
  unfold hasPath. destruct (list_find _ fs) eqn:E; [done|]. intros _.
  apply list_find_None in E. rewrite list_elem_of_fmap.
  intros (f & -> & Hf). rewrite Forall_forall in E. by apply (E f).
Qed.

Lemma hasPath_true p fs : hasPath p fs = true → p ∈ path <$> fs.
Proof.
  unfold hasPath. destruct (list_find _ fs) as [[i f]|] eqn:E; [|done].
  intros _. apply list_find_Some in E as (Hi & <- & _).
  apply list_elem_of_fmap. exists f. split; [done|].
  by eapply list_elem_of_lookup_2.
Qed.

Lemma splicePath_sublist p fs : (splicePath p fs).1 `sublist_of` fs.
Proof.
  unfold splicePath. destruct (list_find _ fs) as [[i f]|]; simpl;
    [apply sublist_delete | done].
Qed.

Lemma splicePath_paths_sublist p fs :
  path <$> (splicePath p fs).1 `sublist_of` path <$> fs.
Proof. apply fmap_sublist, splicePath_sublist. Qed.

(** With one entry per path, the entry removed was the only one. *)
Lemma splicePath_gone p fs :
  NoDup (path <$> fs) → p ∉ path <$> (splicePath p fs).1.
Proof.
  intros Hnd. unfold splicePath.
  destruct (list_find _ fs) as [[i f]|] eqn:E; simpl.
  - apply list_find_Some in E as (Hi & Hp & _).
    rewrite list_elem_of_fmap. intros (g & Hg & Hin).
    apply list_elem_of_lookup in Hin as [j Hj].
    assert (∃ k, k ≠ i ∧ fs !! k = Some g) as (k & Hk & Hlk).
    { destruct (decide (j < i)%nat).
      - exists j. split; [lia|]. by rewrite list_lookup_delete_lt in Hj.
      - exists (S j). split; [lia|]. rewrite list_lookup_delete_ge in Hj; [done|lia]. }
    apply Hk. eapply (NoDup_lookup (path <$> fs)); [done| |].
    + rewrite list_lookup_fmap, Hlk. simpl. by rewrite <- Hg.
    + rewrite list_lookup_fmap, Hi. simpl. by rewrite Hp.
  - apply list_find_None in E. rewrite list_elem_of_fmap.
    intros (f & -> & Hf). rewrite Forall_forall in E. by apply (E f).
Qed.

Lemma bucketPaths_cons b bs :
  bucketPaths (b :: bs) = (path <$> files b) ++ bucketPaths bs.
Proof. done. Qed.


Lemma strip_sublist p bs :
  bucketPaths (strip p <$> bs) `sublist_of` bucketPaths bs.
Proof.
  induction bs as [|b bs IH]; [done|].
  rewrite fmap_cons, !bucketPaths_cons.
  apply sublist_app; [apply splicePath_paths_sublist | done].
Qed.

Lemma strip_gone p bs :
  NoDup (bucketPaths bs) → p ∉ bucketPaths (strip p <$> bs).
Proof.
  induction bs as [|b bs IH]; [intros _; apply not_elem_of_nil|].
  rewrite fmap_cons, !bucketPaths_cons. intros (Hb & _ & Hbs)%NoDup_app.
  rewrite elem_of_app. intros [H|H].
  - by apply (splicePath_gone p (files b)).
  - by apply IH.
Qed.

Lemma push_paths file i bs :
  (i < length bs)%nat →
  bucketPaths (alter (λ b, with_files b (files b ++ [file])) i bs)
    ≡ₚ path file :: bucketPaths bs.
Proof.
  revert i. induction bs as [|b bs IH]; intros i Hi; simpl in Hi; [lia|].
  destruct i as [|i].
  - change (alter ?f 0 (b :: bs)) with (f b :: bs).
    rewrite !bucketPaths_cons. simpl. rewrite fmap_app. simpl.
    rewrite <- (assoc_L (++)). simpl.
    by rewrite <- Permutation_middle.
  - change (alter ?f (S i) (b :: bs)) with (b :: alter f i bs).
    rewrite !bucketPaths_cons, IH by lia.
    by rewrite <- Permutation_middle.
Qed.


Lemma moved_wf t file target :
  WellFormed t →
  from_option (λ i, (i < length (buckets t))%nat) True target →
  WellFormed
    {| buckets :=
         match target with
         | Some i => alter (λ b, with_files b (files b ++ [file])) i
                           (strip (path file) <$> buckets t)
         | None => strip (path file) <$> buckets t
         end;
       gitChanges := (splicePath (path file) (gitChanges t)).1 |}.
Proof.
  unfold WellFormed, allPaths. simpl. intros Hwf Hi.
  apply NoDup_app in Hwf as (Hpool & Hdisj & Hbs).
  assert (NoDup ((path <$> (splicePath (path file) (gitChanges t)).1) ++
                 bucketPaths (strip (path file) <$> buckets t))) as Hnd.
  { apply NoDup_app. split_and!.
    - eapply sublist_NoDup; [apply Hpool | apply splicePath_paths_sublist].
    - intros x Hx Hx'. apply (Hdisj x).
      + eapply elem_of_sublist; [apply Hx | apply splicePath_paths_sublist].
      + eapply elem_of_sublist; [apply Hx' | apply strip_sublist].
    - eapply sublist_NoDup; [apply Hbs | apply strip_sublist]. }
  destruct target as [i|]; [|done]. simpl in Hi.
  rewrite push_paths by by rewrite length_fmap.
  rewrite <- Permutation_middle. apply NoDup_cons. split; [|done].
  rewrite elem_of_app. intros [H|H].
  - by apply (splicePath_gone (path file) (gitChanges t)).
  - by apply (strip_gone (path file) (buckets t)).
Qed.

Lemma moveFileToBucket_wf t file r :
  WellFormed t → WellFormed (moveFileToBucket t file r).1.
Proof.
  intros Hwf. unfold moveFileToBucket. destruct r as [i|b].
  - destruct (buckets t !! i) as [b|] eqn:Hb; [|done].
    destruct (hasPath _ (files b)); [done|]. simpl.
    apply (moved_wf t file (Some i)); [done|]. simpl.
    by eapply lookup_lt_Some.
  - destruct (hasPath _ (files b)); [done|]. simpl.
    by apply (moved_wf t file None).
Qed.









End Registry.



(** ** Creating a bucket *)

Lemma existsb_name_elem_of (n : string) (bs : list PRBucket) :
  n ∈ name <$> bs → existsb (λ b, bool_decide (name b = n)) bs = true.
Proof.
  rewrite list_elem_of_fmap. intros (b & -> & Hb).
  apply existsb_exists. exists b. split; [by apply list_elem_of_In|].
  by apply bool_decide_eq_true.
Qed.

(** C8, as the code has it: the duplicate check belongs to the input box of
    the command. An entry whose trimmed value is the name of a bucket does
    not validate, and the command then leaves the provider as it is. *)
Theorem createBucketCommand_rejects_duplicate (t : MultiPRTreeProvider)
    (entry : string) (titleEntry descriptionEntry : option string) :
  Js.trim entry ∈ name <$> getBuckets t →
  is_Some (validateBucketName t entry) ∧
  (Js.trim entry ≠ "" →
   validateBucketName t entry = Some "Bucket with this name already exists") ∧
  createBucketCommand t (Some entry) titleEntry descriptionEntry = (t, []).
Proof.
  intros Hin. apply existsb_name_elem_of in Hin.
  assert (is_Some (validateBucketName t entry)) as Hsome.
  { unfold validateBucketName. destruct (_ || _); [by eexists|].
    rewrite Hin. by eexists. }
  split_and!; [done| |].
  - intros Hne. unfold validateBucketName.
    rewrite (bool_decide_eq_false_2 (Js.trim entry = "")) by done.
    destruct (bool_decide (entry = "")) eqn:He.
    + apply bool_decide_eq_true in He. by subst.
    + simpl. by rewrite Hin.
  - unfold createBucketCommand, showInputBox. simpl.
    by destruct Hsome as [m ->].
Qed.

Lemma createBucketCommand_rejects_duplicate_witness :
  validateBucketName Examples.storeA (" A" +:+ MoreExamples.nbsp)
  = Some "Bucket with this name already exists" ∧
  createBucketCommand Examples.storeA (Some (" A" +:+ MoreExamples.nbsp))
    (Some "A again") None
  = (Examples.storeA, []).
Proof.
  destruct (createBucketCommand_rejects_duplicate Examples.storeA
              (" A" +:+ MoreExamples.nbsp) (Some "A again") None)
    as (_ & Hmessage & Hsame).
  - vm_compute. apply list_elem_of_here.
  - split; [|exact Hsame]. apply Hmessage. vm_compute. discriminate.
Defined.

(** C8, as stated, fails on the store operation: [createBucket] makes no
    check and throws nothing; called with the name of an existing bucket it
    adds a second bucket of that name. *)
Lemma createBucket_duplicate_counterexample :
  name <$> buckets (createBucket Examples.storeA "A" "A" "") = ["A"; "A"].
Proof. reflexivity. Qed.

(** ** The dependency order *)

Section Visit.

Variable bs : list PRBucket.

Implicit Types (st : SortState) (n d : string).

Lemma findBucket_name n b : findBucket bs n = Some b → name b = n ∧ b ∈ bs.
Proof.
  unfold findBucket. destruct (list_find _ bs) as [[i x]|] eqn:E; [|done].
  simpl. intros [= ->]. apply list_find_Some in E as (Hi & Hn & _).
  split; [done|]. by eapply list_elem_of_lookup_2.
Qed.

Lemma dependencyOf_bucketNames n d :
  dependencyOf bs n = Some d → n ∈ bucketNames bs.
Proof.
  unfold dependencyOf. destruct (findBucket bs n) as [b|] eqn:E; [|done].
  intros _. apply findBucket_name in E as [<- Hb].
  unfold bucketNames. rewrite elem_of_list_to_set.
  apply list_elem_of_fmap. by exists b.
Qed.

Lemma size_list_to_set_le (l : list string) :
  (base.size (list_to_set l : gset string) ≤ length l)%nat.
Proof.
  induction l as [|x l IH].
  - by rewrite list_to_set_nil, size_empty.
  - rewrite list_to_set_cons, size_union_alt, size_singleton.
    assert (list_to_set l ∖ {[x]} ⊆ (list_to_set l : gset string)) as Hs
      by set_solver.
    apply subseteq_size in Hs. simpl. lia.
Qed.

Lemma size_bucketNames : (base.size (bucketNames bs) ≤ length bs)%nat.
Proof.
  unfold bucketNames. rewrite <- (length_fmap name bs).
  apply size_list_to_set_le.
Qed.

(** The depth of the recursion is bounded by the number of bucket names:
    each nested call adds a bucket name to [visiting]. *)
Lemma visit_enough_fuel fuel n st :
  visiting st ⊆ bucketNames bs →
  (base.size (bucketNames bs) < fuel + base.size (visiting st))%nat →
  is_Some (visit fuel bs n st).
Proof.
  revert n st. induction fuel as [|fuel IH]; intros n st Hsub Hlt.
  { apply subseteq_size in Hsub. lia. }
  simpl. destruct (decide (n ∈ visiting st)) as [|Hn]; [by eexists|].
  destruct (decide (n ∈ visited st)); [by eexists|].
  destruct (dependencyOf bs n) as [d|] eqn:Hd; [|by eexists].
  destruct (IH d (enter n st)) as [[[] st'] Hv].
  - simpl. apply dependencyOf_bucketNames in Hd. set_solver.
  - simpl. rewrite size_union by set_solver. rewrite size_singleton. lia.
  - rewrite Hv. by eexists.
  - rewrite Hv. by eexists.
Qed.

Lemma before_app_l {A} (x y : A) (l k : list A) :
  before x y l → before x y (l ++ k).
Proof.
  intros (i & j & Hi & Hj & Hij). exists i, j.
  split_and!; [by apply lookup_app_l_Some..|done].
Qed.

Lemma before_snoc {A} (x y : A) (l : list A) :
  x ∈ l → before x y (l ++ [y]).
Proof.
  intros [i Hi]%list_elem_of_lookup. exists i, (length l).
  split_and!.
  - by apply lookup_app_l_Some.
  - by rewrite list_lookup_middle.
  - by eapply lookup_lt_Some.
Qed.

(** A visit that succeeds keeps the invariant, leaves [visiting] as it
    was, and marks the name visited. *)
Lemma visit_true fuel n st st' :
  visit fuel bs n st = Some (true, st') →
  SortInv bs st → visited st ## visiting st →
  SortInv bs st' ∧ visiting st' = visiting st ∧ n ∈ visited st' ∧
  visited st ⊆ visited st' ∧ visited st' ## visiting st.
Proof.
  revert n st st'. induction fuel as [|fuel IH]; intros n st st' Hv Hinv Hdisj;
    [done|].
  simpl in Hv. destruct (decide (n ∈ visiting st)) as [|Hn]; [done|].
  destruct (decide (n ∈ visited st)) as [|Hn'].
  { by simplify_eq. }
  assert (SortInv bs (enter n st)) as Hinv1 by by destruct Hinv.
  assert (visited (enter n st) ## visiting (enter n st)) as Hdisj1
    by (simpl; set_solver).
  assert (∀ st2, SortInv bs st2 → visiting st2 = {[n]} ∪ visiting st →
            visited st ⊆ visited st2 →
            visited st2 ## {[n]} ∪ visiting st →
            (∀ d, dependencyOf bs n = Some d → d ∈ visited st2) →
            SortInv bs (leave n st2) ∧
            visiting (leave n st2) = visiting st ∧
            n ∈ visited (leave n st2) ∧
            visited st ⊆ visited (leave n st2) ∧
            visited (leave n st2) ## visiting st) as Hleave.
  { intros st2 [Hnd Hvis Hbef] Hving Hsub Hdisj2 Hdep. simpl.
    assert (n ∉ visited st2) as Hfresh by set_solver.
    split_and!; [|set_solver..].
    split; simpl.
    - apply NoDup_app. split_and!; [done| |apply NoDup_singleton].
      intros x Hx ->%list_elem_of_singleton. by apply Hfresh, Hvis.
    - intros x. rewrite elem_of_app, list_elem_of_singleton, Hvis. set_solver.
    - intros m d [->%elem_of_singleton|Hm]%elem_of_union Hmd.
      + apply before_snoc, Hvis. by apply Hdep.
      + by apply before_app_l, Hbef. }
  destruct (dependencyOf bs n) as [d|] eqn:Hd.
  - destruct (visit fuel bs d (enter n st)) as [[[] st2]|] eqn:Hv2; [|done..].
    simplify_eq.
    destruct (IH _ _ _ Hv2 Hinv1 Hdisj1) as (Hinv2 & Hving & Hd2 & Hsub & Hdisj2).
    apply Hleave; try done. by intros ? [= <-].
  - simplify_eq. apply Hleave; try done.
Qed.

(** A visit fails only on a name that is being visited, and every such
    name reaches the name at hand: a failure exhibits a cycle. *)
Lemma visit_false_cycle fuel n st st' :
  visit fuel bs n st = Some (false, st') →
  (∀ v, v ∈ visiting st → tc (dependsEdge bs) v n) →
  ∃ c, tc (dependsEdge bs) c c.
Proof.
  revert n st st'. induction fuel as [|fuel IH]; intros n st st' Hv Hreach;
    [done|].
  simpl in Hv. destruct (decide (n ∈ visiting st)) as [Hn|Hn].
  { exists n. by apply Hreach. }
  destruct (decide (n ∈ visited st)); [done|].
  destruct (dependencyOf bs n) as [d|] eqn:Hd; [|done].
  destruct (visit fuel bs d (enter n st)) as [[[] st2]|] eqn:Hv2; [done| |done].
  eapply IH; [apply Hv2|]. simpl.
  intros v [->%elem_of_singleton|Hv']%elem_of_union.
  - by apply tc_once.
  - eapply tc_r; [by apply Hreach|done].
Qed.

(** A visit that fails from outside [visiting] went through an edge. *)
Lemma visit_false_edge fuel n st st' :
  visit fuel bs n st = Some (false, st') → n ∉ visiting st →
  is_Some (dependencyOf bs n).
Proof.
  destruct fuel as [|fuel]; [done|]. simpl. intros Hv Hn.
  destruct (decide (n ∈ visiting st)); [done|].
  destruct (decide (n ∈ visited st)); [done|].
  destruct (dependencyOf bs n); [by eexists|done].
Qed.

End Visit.

Section VisitAll.

Variable bs : list PRBucket.

(** The loop over the buckets, with [pre] the buckets already passed. *)
Lemma visitAll_spec fuel pre rest st :
  bs = pre ++ rest →
  (base.size (bucketNames bs) < fuel)%nat →
  SortInv bs st → visiting st = ∅ →
  (∀ b, b ∈ pre → name b ∈ visited st) →
  match visitAll fuel bs (length pre) rest st with
  | Ordered st' =>
      SortInv bs st' ∧ visiting st' = ∅ ∧ ∀ b, b ∈ bs → name b ∈ visited st'
  | Circular i b =>
      list_find (λ x, name x = name b) bs = Some (i, b) ∧
      is_Some (Js.truthy (dependsOn b)) ∧
      ∃ c, tc (dependsEdge bs) c c
  | Exhausted => False
  end.
Proof.
  revert pre st. induction rest as [|b rest IH]; intros pre st Hbs Hfuel Hinv Hving Hpre.
  { simpl. rewrite (right_id_L [] (++)) in Hbs. subst. done. }
  assert (bs = (pre ++ [b]) ++ rest) as Hbs' by by rewrite <- (assoc_L (++)).
  assert (length (pre ++ [b]) = S (length pre)) as Hlen
    by (rewrite length_app; simpl; lia).
  simpl. destruct (decide (name b ∈ visited st)) as [Hb|Hb].
  { rewrite <- Hlen. apply IH; try done.
    intros x [Hx| ->%list_elem_of_singleton]%elem_of_app; [by apply Hpre|done]. }
  destruct (visit_enough_fuel bs fuel (name b) st) as [[[] st'] Hv].
  { rewrite Hving. set_solver. }
  { rewrite Hving, size_empty. lia. }
  - rewrite Hv.
    destruct (visit_true bs _ _ _ _ Hv Hinv) as (Hinv' & Hving' & Hb' & Hsub & _).
    { rewrite Hving. set_solver. }
    rewrite <- Hlen. apply IH; try done; [congruence|].
    intros x [Hx| ->%list_elem_of_singleton]%elem_of_app; [|done].
    by apply Hsub, Hpre.
  - rewrite Hv.
    assert (list_find (λ x, name x = name b) bs = Some (length pre, b)) as Hfind.
    { apply list_find_Some. split_and!; [|done|].
      - rewrite Hbs. by rewrite list_lookup_middle.
      - intros j y Hj Hlt Hname. apply Hb. rewrite <- Hname. apply Hpre.
        rewrite Hbs, lookup_app_l in Hj by done.
        by eapply list_elem_of_lookup_2. }
    split_and!; [done| |].
    + destruct (visit_false_edge bs _ _ _ _ Hv) as [d Hd].
      { rewrite Hving. set_solver. }
      unfold dependencyOf, findBucket in Hd. rewrite Hfind in Hd.
      simpl in Hd. by eexists.
    + eapply visit_false_cycle; [apply Hv|].
      intros v. rewrite Hving. set_solver.
Qed.

Lemma SortInv_empty : SortInv bs emptySort.
Proof.
  split; simpl.
  - apply NoDup_nil_2.
  - intros x. set_solver.
  - intros n d. set_solver.
Qed.

(** One pass over all the buckets, as [updateBucketOrder] starts it. *)
Lemma visitAll_pass :
  match visitAll (S (length bs)) bs 0 bs emptySort with
  | Ordered st =>
      SortInv bs st ∧ ∀ b, b ∈ bs → name b ∈ visited st
  | Circular i b =>
      list_find (λ x, name x = name b) bs = Some (i, b) ∧
      is_Some (Js.truthy (dependsOn b)) ∧
      ∃ c, tc (dependsEdge bs) c c
  | Exhausted => False
  end.
Proof.
  pose proof (visitAll_spec (S (length bs)) [] bs emptySort) as H.
  simpl in H. pose proof size_bucketNames bs.
  assert (∀ b : PRBucket, b ∈ [] → name b ∈ visited emptySort) as Hnil
    by by intros ? ?%elem_of_nil.
  specialize (H eq_refl ltac:(lia) SortInv_empty eq_refl Hnil).
  destruct (visitAll _ bs 0 bs emptySort); [|done..].
  by destruct H as (? & _ & ?).
Qed.

End VisitAll.

Section AssignOrder.

Implicit Types (bs : list PRBucket) (b : PRBucket) (n m : string).

Lemma sameButOrder_name b b' : sameButOrder b b' → name b = name b'.
Proof. intros H. apply (f_equal name H). Qed.

Lemma sameButOrder_dependsOn b b' : sameButOrder b b' → dependsOn b = dependsOn b'.
Proof. intros H. apply (f_equal dependsOn H). Qed.

#[local] Instance sameButOrder_equivalence : Equivalence sameButOrder.
Proof.
  unfold sameButOrder. split.
  - by intros b.
  - by intros b b'.
  - intros b1 b2 b3. congruence.
Qed.

Lemma sameButOrder_with_order b o : sameButOrder b (with_order b o).
Proof. done. Qed.

Lemma findBucket_cons b bs n :
  findBucket (b :: bs) n = if decide (name b = n) then Some b else findBucket bs n.
Proof.
  unfold findBucket. simpl. destruct (decide (name b = n)); [done|].
  by destruct (list_find _ bs) as [[]|].
Qed.

(** Buckets that differ in [order] only answer alike to a search by
    name. *)
Lemma findBucket_sameButOrder bs bs' n :
  Forall2 sameButOrder bs bs' →
  option_Forall2 sameButOrder (findBucket bs n) (findBucket bs' n).
Proof.
  induction 1 as [|b b' bs bs' Hb _ IH]; [constructor|].
  rewrite !findBucket_cons, <- (sameButOrder_name _ _ Hb).
  destruct (decide (name b = n)); [by constructor|done].
Qed.

Lemma dependencyOf_sameButOrder bs bs' n :
  Forall2 sameButOrder bs bs' → dependencyOf bs' n = dependencyOf bs n.
Proof.
  intros H. unfold dependencyOf.
  destruct (findBucket_sameButOrder bs bs' n H) as [b b' Hb|]; [|done].
  simpl. by rewrite (sameButOrder_dependsOn _ _ Hb).
Qed.

Lemma Acyclic_sameButOrder bs bs' :
  Forall2 sameButOrder bs bs' → Acyclic bs' → Acyclic bs.
Proof.
  intros H Hac n Hn. apply (Hac n).
  eapply tc_congruence with (f := id); [|apply Hn].
  intros x y. unfold dependsEdge. simpl.
  by rewrite (dependencyOf_sameButOrder _ _ _ H).
Qed.

Lemma edgeCount_sameButOrder bs bs' :
  Forall2 sameButOrder bs bs' → edgeCount bs' = edgeCount bs.
Proof.
  unfold edgeCount. induction 1 as [|b b' bs bs' Hb _ IH]; [done|].
  rewrite !filter_cons, <- (sameButOrder_dependsOn _ _ Hb).
  destruct (decide _); simpl; by rewrite IH.
Qed.

Lemma numbered_same index n bs : Forall2 sameButOrder bs (numbered index n bs).
Proof.
  unfold numbered. destruct (list_find _ bs) as [[i b]|] eqn:E; [|done].
  apply list_find_Some in E as (Hi & _ & _).
  rewrite <- (list_insert_id bs i b Hi) at 1.
  apply Forall2_insert; [done|apply sameButOrder_with_order].
Qed.

Lemma numbered_here index n bs :
  findBucket (numbered index n bs) n
  = (λ b, with_order b (Some index)) <$> findBucket bs n.
Proof.
  unfold numbered, findBucket.
  destruct (list_find _ bs) as [[i b]|] eqn:E; [|by rewrite E].
  simpl. pose proof E as (Hi & Hn & Hfirst)%list_find_Some.
  assert (list_find (λ b, name b = n) (<[i:=with_order b (Some index)]> bs)
          = Some (i, with_order b (Some index))) as ->; [|done].
  apply list_find_Some. split_and!; [|done|].
  - apply list_lookup_insert_eq. by eapply lookup_lt_Some.
  - intros j y Hj Hlt. rewrite list_lookup_insert_ne in Hj by lia.
    by eapply Hfirst.
Qed.

Lemma numbered_other index n m bs :
  n ≠ m → findBucket (numbered index n bs) m = findBucket bs m.
Proof.
  intros Hne. unfold numbered.
  destruct (list_find _ bs) as [[i b]|] eqn:E; [|done].
  apply list_find_Some in E as (Hi & Hn & _).
  revert i Hi. induction bs as [|x bs IH]; intros i Hi; [done|].
  destruct i as [|i]; simpl in Hi.
  - simplify_eq. simpl. rewrite !findBucket_cons. simpl.
    by rewrite !decide_False by done.
  - simpl. rewrite !findBucket_cons. destruct (decide _); [done|].
    by apply IH.
Qed.

Lemma assignOrder_same index names bs :
  Forall2 sameButOrder bs (assignOrder index names bs).
Proof.
  revert index bs. induction names as [|n names IH]; intros index bs; [done|].
  simpl.
  etrans; [apply numbered_same | apply IH].
Qed.

Lemma assignOrder_other index names bs m :
  m ∉ names → findBucket (assignOrder index names bs) m = findBucket bs m.
Proof.
  revert index bs. induction names as [|n names IH]; intros index bs Hm; [done|].
  simpl.
  apply not_elem_of_cons in Hm as [Hne Hm].
  rewrite IH by done. by apply numbered_other.
Qed.

(** The first bucket of a name receives the position of the name. *)
Lemma assignOrder_here index names bs n j :
  NoDup names → names !! j = Some n →
  findBucket (assignOrder index names bs) n
  = (λ b, with_order b (Some (index + j))) <$> findBucket bs n.
Proof.
  revert index bs j. induction names as [|m names IH]; intros index bs j Hnd Hj;
    [done|].
  simpl. apply NoDup_cons in Hnd as [Hm Hnd].
  destruct j as [|j]; simpl in Hj.
  - simplify_eq. rewrite assignOrder_other by done.
    by rewrite numbered_here, Nat.add_0_r.
  - rewrite (IH _ _ j) by done.
    rewrite numbered_other.
    + by replace (S index + j) with (index + S j) by lia.
    + intros ->. apply Hm. by eapply list_elem_of_lookup_2.
Qed.

(** After a pass without failure the order numbers rise along the
    edges. *)
Lemma assignOrder_order bs st n b' :
  SortInv bs st → (∀ b, b ∈ bs → name b ∈ visited st) →
  findBucket (assignOrder 0 (orderNames st) bs) n = Some b' →
  ∃ j, orderNames st !! j = Some n ∧ order b' = Some j.
Proof.
  intros [Hnd Hvis Hbef] Hall Hfind.
  pose proof (findBucket_sameButOrder _ _ n
                (assignOrder_same 0 (orderNames st) bs)) as Hsame.
  rewrite Hfind in Hsame.
  destruct (findBucket bs n) as [b|] eqn:Hfb; [|by inversion Hsame].
  apply findBucket_name in Hfb as Hn. destruct Hn as [Hn Hin].
  assert (n ∈ orderNames st) as [j Hj]%list_elem_of_lookup.
  { apply Hvis. rewrite <- Hn. by apply Hall. }
  exists j. split; [done|].
  rewrite (assignOrder_here 0 _ _ _ j Hnd Hj), Hfb in Hfind.
  simpl in Hfind. by simplify_eq.
Qed.

Lemma assignOrder_Ranked bs st :
  SortInv bs st → (∀ b, b ∈ bs → name b ∈ visited st) →
  Ranked (assignOrder 0 (orderNames st) bs).
Proof.
  intros Hinv Hall n d b' a' Hb' Hd Ha'.
  destruct (assignOrder_order _ _ _ _ Hinv Hall Hb') as (j & Hj & Hoj).
  destruct (assignOrder_order _ _ _ _ Hinv Hall Ha') as (i & Hi & Hoi).
  exists i, j. split_and!; [done..|].
  assert (dependencyOf bs n = Some d) as Hdep.
  { rewrite <- (dependencyOf_sameButOrder _ _ n
                  (assignOrder_same 0 (orderNames st) bs)).
    unfold dependencyOf. by rewrite Hb'. }
  destruct Hinv as [Hnd Hvis Hbef].
  destruct (Hbef n d) as (i' & j' & Hi' & Hj' & Hlt); [|done|].
  { apply Hvis. by eapply list_elem_of_lookup_2. }
  by rewrite (NoDup_lookup _ _ _ _ Hnd Hi Hi'), (NoDup_lookup _ _ _ _ Hnd Hj Hj').
Qed.

Lemma dependsEdge_source bs n d :
  dependsEdge bs n d → is_Some (findBucket bs n).
Proof.
  unfold dependsEdge, dependencyOf.
  by destruct (findBucket bs n); [eexists|].
Qed.

Lemma tc_dependsEdge_source bs n d :
  tc (dependsEdge bs) n d → is_Some (findBucket bs n).
Proof. intros [? ? H|? ? ? H _]; by eapply dependsEdge_source. Qed.

(** Rising order numbers leave no room for a cycle. *)
Lemma Ranked_Acyclic bs : Ranked bs → Acyclic bs.
Proof.
  intros Hr.
  assert (∀ n d, tc (dependsEdge bs) n d →
            ∀ b, findBucket bs n = Some b →
            ∀ a, findBucket bs d = Some a →
            ∃ i j, order a = Some i ∧ order b = Some j ∧ (i < j)%nat) as Htc.
  { induction 1 as [n d Hnd|n m d Hnm Hmd IH]; intros b Hb a Ha.
    - unfold dependsEdge, dependencyOf in Hnd. rewrite Hb in Hnd. simpl in Hnd.
      by eapply Hr.
    - unfold dependsEdge, dependencyOf in Hnm. rewrite Hb in Hnm. simpl in Hnm.
      destruct (tc_dependsEdge_source _ _ _ Hmd) as [c Hc].
      destruct (Hr n m b c Hb Hnm Hc) as (k & j & Hk & Hj & Hkj).
      destruct (IH c Hc a Ha) as (i & k' & Hi & Hk' & Hik).
      exists i, j. split_and!; [done..|]. rewrite Hk in Hk'. simplify_eq. lia. }
  intros n Hn.
  destruct (tc_dependsEdge_source _ _ _ Hn) as [b Hb].
  destruct (Htc n n Hn b Hb b Hb) as (i & j & Hi & Hj & Hlt).
  rewrite Hi in Hj. simplify_eq. lia.
Qed.

End AssignOrder.

Section Fuel.

Variable bs : list PRBucket.

(** The bound on the recursion does not show in the result. *)
Lemma visit_more fuel fuel' n st r :
  visit fuel bs n st = Some r → (fuel ≤ fuel')%nat →
  visit fuel' bs n st = Some r.
Proof.
  revert fuel' n st r. induction fuel as [|fuel IH]; intros fuel' n st r Hv Hle;
    [done|].
  destruct fuel' as [|fuel']; [lia|]. simpl in *.
  destruct (decide (n ∈ visiting st)); [done|].
  destruct (decide (n ∈ visited st)); [done|].
  destruct (dependencyOf bs n) as [d|]; [|done].
  destruct (visit fuel bs d (enter n st)) as [r'|] eqn:Hd; [|done].
  by rewrite (IH fuel' _ _ _ Hd) by lia.
Qed.

Lemma visitAll_more fuel fuel' i rest st :
  visitAll fuel bs i rest st ≠ Exhausted → (fuel ≤ fuel')%nat →
  visitAll fuel' bs i rest st = visitAll fuel bs i rest st.
Proof.
  revert i st. induction rest as [|b rest IH]; intros i st Hv Hle; [done|].
  simpl in *. destruct (decide (name b ∈ visited st)); [by apply IH|].
  destruct (visit fuel bs (name b) st) as [[[] st']|] eqn:Hb; [| |done].
  - rewrite (visit_more _ _ _ _ _ Hb Hle). by apply IH.
  - by rewrite (visit_more _ _ _ _ _ Hb Hle).
Qed.

End Fuel.

(** The bound on the number of passes does not show in the result. *)
Lemma updateBucketOrderWithin_more (passes passes' : nat) (bs : list PRBucket)
    (r : list PRBucket * list string) :
  updateBucketOrderWithin passes bs = Some r → (passes ≤ passes')%nat →
  updateBucketOrderWithin passes' bs = Some r.
Proof.
  revert passes' bs r. induction passes as [|passes IH]; intros passes' bs r Hu Hle;
    [done|].
  destruct passes' as [|passes']; [lia|]. simpl in *.
  destruct (visitAll _ bs 0 bs emptySort) as [st|i b|]; [done| |done].
  destruct (updateBucketOrderWithin passes _) as [[bs' ws]|] eqn:Hrec; [|done].
  by rewrite (IH passes' _ _ Hrec) by lia.
Qed.

(** ** The bucket at which the sort fails *)

Section FirstCycle.

Variable bs : list PRBucket.

Implicit Types (st : SortState) (n d c : string).

(** A visit that fails has followed the dependencies from its name to a
    name that is being visited, or to a name that lies on a cycle. *)
Lemma visit_false_reaches fuel n st st' :
  visit fuel bs n st = Some (false, st') →
  ∃ c, rtc (dependsEdge bs) n c ∧
       (c ∈ visiting st ∨ tc (dependsEdge bs) c c).
Proof.
  revert n st st'. induction fuel as [|fuel IH]; intros n st st' Hv; [done|].
  simpl in Hv. destruct (decide (n ∈ visiting st)) as [Hn|Hn].
  { exists n. split; [done|by left]. }
  destruct (decide (n ∈ visited st)); [done|].
  destruct (dependencyOf bs n) as [d|] eqn:Hd; [|done].
  destruct (visit fuel bs d (enter n st)) as [[[] st2]|] eqn:Hv2; [done| |done].
  destruct (IH _ _ _ Hv2) as (c & Hdc & Hc). simpl in Hc.
  destruct Hc as [[->%elem_of_singleton|Hc]%elem_of_union|Hc].
  - exists n. split; [done|]. right. by eapply tc_rtc_r; [apply tc_once|].
  - exists c. split; [by eapply rtc_l|by left].
  - exists c. split; [by eapply rtc_l|by right].
Qed.

(** Along a path from a visited name the positions in [order] fall. *)
Lemma SortInv_tc_positions st n d :
  SortInv bs st → n ∈ visited st → tc (dependsEdge bs) n d →
  d ∈ visited st ∧
  ∃ i j, orderNames st !! i = Some d ∧ orderNames st !! j = Some n ∧ (i < j)%nat.
Proof.
  intros [Hnd Hvis Hbef] Hn Htc.
  induction Htc as [n d Hedge|n m d Hnm Hmd IH].
  - destruct (Hbef n d Hn Hedge) as (i & j & Hi & Hj & Hij).
    split; [|by exists i, j]. apply Hvis. by eapply list_elem_of_lookup_2.
  - destruct (Hbef n m Hn Hnm) as (k & j & Hk & Hj & Hkj).
    assert (m ∈ visited st) as Hm
      by (apply Hvis; by eapply list_elem_of_lookup_2).
    destruct (IH Hm) as (Hd & i & k' & Hi & Hk' & Hik).
    split; [done|]. exists i, j. split_and!; [done..|].
    rewrite (NoDup_lookup _ _ _ _ Hnd Hk Hk') in Hkj. lia.
Qed.

(** A visited name reaches no cycle. *)
Lemma visited_no_cycle st n :
  SortInv bs st → n ∈ visited st → ¬ ReachesCycle bs n.
Proof.
  intros Hinv Hn (c & Hnc & Hcc).
  assert (c ∈ visited st) as Hc.
  { apply rtc_tc in Hnc as [->|Hnc]; [done|].
    by destruct (SortInv_tc_positions _ _ _ Hinv Hn Hnc). }
  destruct (SortInv_tc_positions _ _ _ Hinv Hc Hcc) as (_ & i & j & Hi & Hj & Hij).
  destruct Hinv as [Hnd _ _].
  rewrite (NoDup_lookup _ _ _ _ Hnd Hi Hj) in Hij. lia.
Qed.

(** When the loop fails at a bucket, the name of that bucket reaches a
    cycle and the name of no bucket before it does. *)
Lemma visitAll_first_cycle fuel pre rest st i b :
  bs = pre ++ rest →
  SortInv bs st → visiting st = ∅ →
  (∀ a, a ∈ pre → name a ∈ visited st) →
  visitAll fuel bs (length pre) rest st = Circular i b →
  bs !! i = Some b ∧ ReachesCycle bs (name b) ∧
  is_Some (Js.truthy (dependsOn b)) ∧
  ∀ j a, (j < i)%nat → bs !! j = Some a → ¬ ReachesCycle bs (name a).
Proof.
  revert pre st. induction rest as [|x rest IH]; intros pre st Hbs Hinv Hving Hpre;
    [done|].
  assert (bs = (pre ++ [x]) ++ rest) as Hbs' by by rewrite <- (assoc_L (++)).
  assert (length (pre ++ [x]) = S (length pre)) as Hlen
    by (rewrite length_app; simpl; lia).
  simpl. destruct (decide (name x ∈ visited st)) as [Hx|Hx].
  { rewrite <- Hlen. apply IH; try done.
    intros a [Ha| ->%list_elem_of_singleton]%elem_of_app; [by apply Hpre|done]. }
  destruct (visit fuel bs (name x) st) as [[[] st1]|] eqn:Hv; [| |done].
  - destruct (visit_true bs _ _ _ _ Hv Hinv) as (Hinv' & Hving' & Hx' & Hsub & _).
    { rewrite Hving. set_solver. }
    rewrite <- Hlen. apply IH; try done; [congruence|].
    intros a [Ha| ->%list_elem_of_singleton]%elem_of_app; [|done].
    by apply Hsub, Hpre.
  - intros [= <- <-].
    assert (bs !! length pre = Some x) as Hi
      by (rewrite Hbs; by rewrite list_lookup_middle).
    split_and!; [done| | |].
    + destruct (visit_false_reaches _ _ _ _ Hv) as (c & Hc & [Hin|Hcc]).
      * rewrite Hving in Hin. set_solver.
      * by exists c.
    + destruct (visit_false_edge bs _ _ _ _ Hv) as [d Hd].
      { rewrite Hving. set_solver. }
      unfold dependencyOf, findBucket in Hd.
      assert (list_find (λ y, name y = name x) bs = Some (length pre, x)) as Hfind.
      { apply list_find_Some. split_and!; [done|done|].
        intros j y Hj Hlt Hname. apply Hx. rewrite <- Hname. apply Hpre.
        rewrite Hbs, lookup_app_l in Hj by done.
        by eapply list_elem_of_lookup_2. }
      rewrite Hfind in Hd. simpl in Hd. by eexists.
    + intros j a Hj Ha. apply (visited_no_cycle st); [done|]. apply Hpre.
      rewrite Hbs, lookup_app_l in Ha by done.
      by eapply list_elem_of_lookup_2.
Qed.

Lemma visitAll_pass_first i b :
  visitAll (S (length bs)) bs 0 bs emptySort = Circular i b →
  bs !! i = Some b ∧ ReachesCycle bs (name b) ∧
  is_Some (Js.truthy (dependsOn b)) ∧
  ∀ j a, (j < i)%nat → bs !! j = Some a → ¬ ReachesCycle bs (name a).
Proof.
  apply (visitAll_first_cycle (S (length bs)) [] bs emptySort);
    [done|apply SortInv_empty|done|by intros a ?%elem_of_nil].
Qed.

(** A pass that does not fail has found no cycle. *)
Lemma visitAll_pass_acyclic st :
  visitAll (S (length bs)) bs 0 bs emptySort = Ordered st → Acyclic bs.
Proof.
  intros Hv. pose proof (visitAll_pass bs) as Hpass. rewrite Hv in Hpass.
  destruct Hpass as [Hinv Hall]. intros c Hcc.
  destruct (tc_dependsEdge_source _ _ _ Hcc) as [b Hb].
  apply findBucket_name in Hb as [<- Hb].
  apply (visited_no_cycle st (name b)); [done|by apply Hall|].
  by exists (name b).
Qed.

End FirstCycle.

Lemma findBucket_elem_of (bs : list PRBucket) (b : PRBucket) :
  b ∈ bs → is_Some (findBucket bs (name b)).
Proof.
  intros Hb. unfold findBucket.
  destruct (list_find_elem_of (λ x, name x = name b) bs b Hb eq_refl)
    as [[i x] ->].
  by eexists.
Qed.

(** After a pass without failure every name is numbered by its position
    in [order]. *)
Lemma assignOrder_Numbered (bs : list PRBucket) (st : SortState) :
  SortInv bs st → (∀ b, b ∈ bs → name b ∈ visited st) →
  Numbered (assignOrder 0 (orderNames st) bs).
Proof.
  intros Hinv Hall. split.
  - intros b Hb. destruct (findBucket_elem_of _ b Hb) as [b1 Hb1].
    destruct (assignOrder_order _ _ _ _ Hinv Hall Hb1) as (k & _ & Hk).
    by exists b1, k.
  - intros n m b a k Hb Ha Hkb Hka.
    destruct (assignOrder_order _ _ _ _ Hinv Hall Hb) as (i & Hi & Hib).
    destruct (assignOrder_order _ _ _ _ Hinv Hall Ha) as (j & Hj & Hja).
    rewrite Hkb in Hib. rewrite Hka in Hja. simplify_eq. congruence.
Qed.

(** The resolver does what [Resolves] tells. *)
Lemma updateBucketOrderWithin_resolves (passes : nat) (bs bs' : list PRBucket)
    (ws : list string) :
  updateBucketOrderWithin passes bs = Some (bs', ws) → Resolves bs bs' ws.
Proof.
  revert bs bs' ws. induction passes as [|passes IH]; intros bs bs' ws; [done|].
  simpl. pose proof (visitAll_pass bs) as Hpass.
  destruct (visitAll _ bs 0 bs emptySort) as [st|i b|] eqn:Hv; [| |done].
  - intros [= <- <-]. destruct Hpass as [Hinv Hall].
    apply Resolves_ordered.
    + by eapply visitAll_pass_acyclic.
    + apply assignOrder_same.
    + by apply assignOrder_Ranked.
    + by apply assignOrder_Numbered.
  - destruct (visitAll_pass_first bs i b Hv) as (Hi & Hreach & Hdep & Hfirst).
    destruct (updateBucketOrderWithin passes _) as [[bs1 ws1]|] eqn:Hrec; [|done].
    simpl. intros [= <- <-].
    eapply Resolves_cleared; [done..|]. by apply IH.
Qed.

Lemma Resolves_Numbered (bs bs' : list PRBucket) (ws : list string) :
  Resolves bs bs' ws → Numbered bs'.
Proof. by induction 1. Qed.

Section UpdateBucketOrder.

Implicit Types (bs : list PRBucket) (b : PRBucket).

Lemma sameButOrder_cleared b b' :
  sameButOrder b b' →
  sameButOrder (with_dependsOn b None) (with_dependsOn b' None).
Proof.
  unfold sameButOrder. destruct b, b'. simpl. intros [= -> -> -> -> -> ->].
  done.
Qed.

#[local] Instance keptOrCleared_preorder : PreOrder keptOrCleared.
Proof.
  split.
  - intros b. by left.
  - intros b1 b2 b3 [H12|H12] [H23|H23].
    + left. by etrans.
    + right. etrans; [by apply sameButOrder_cleared|done].
    + right. by etrans.
    + right. etrans; [|done].
      by apply sameButOrder_cleared in H12.
Qed.

Lemma edgeCount_le bs : (edgeCount bs ≤ length bs)%nat.
Proof. apply length_filter. Qed.

(** Clearing a dependency that is set removes one edge. *)
Lemma edgeCount_clear bs i b :
  bs !! i = Some b → is_Some (Js.truthy (dependsOn b)) →
  edgeCount bs = S (edgeCount (<[i := with_dependsOn b None]> bs)).
Proof.
  intros Hi Hdep. unfold edgeCount.
  rewrite insert_take_drop by by eapply lookup_lt_Some.
  rewrite <- (take_drop_middle bs i b Hi) at 1.
  rewrite !filter_app, !filter_cons, !length_app.
  rewrite decide_True by done.
  rewrite decide_False; [simpl; lia|].
  simpl. by intros [? ?].
Qed.

Lemma cleared_keptOrCleared bs i b :
  bs !! i = Some b →
  Forall2 keptOrCleared bs (<[i := with_dependsOn b None]> bs).
Proof.
  intros Hi. rewrite <- (list_insert_id bs i b Hi) at 1.
  apply Forall2_insert; [done|]. by right.
Qed.

(** [updateBucketOrder] returns as soon as the passes allowed exceed the
    number of edges: every restart clears one edge that was set. The
    buckets it returns are the given ones up to [order] and cleared
    dependencies, and their order numbers rise along the edges. *)
Lemma updateBucketOrderWithin_spec passes bs :
  (edgeCount bs < passes)%nat →
  ∃ bs' ws,
    updateBucketOrderWithin passes bs = Some (bs', ws) ∧
    Forall2 keptOrCleared bs bs' ∧
    edgeCount bs = (edgeCount bs' + length ws)%nat ∧
    Ranked bs' ∧
    (ws = [] → Forall2 sameButOrder bs bs') ∧
    (Acyclic bs → ws = []).
Proof.
  revert bs. induction passes as [|passes IH]; intros bs Hlt; [lia|].
  simpl. pose proof (visitAll_pass bs) as Hpass.
  destruct (visitAll _ bs 0 bs emptySort) as [st|i b|]; [| |done].
  - destruct Hpass as [Hinv Hall].
    pose proof (assignOrder_same 0 (orderNames st) bs) as Hsame.
    eexists _, []. split_and!; [done| | | |done..].
    + eapply Forall2_impl; [apply Hsame|]. by left.
    + simpl. by rewrite (edgeCount_sameButOrder _ _ Hsame), Nat.add_0_r.
    + by apply assignOrder_Ranked.
  - destruct Hpass as (Hfind & Hdep & Hcyc).
    apply list_find_Some in Hfind as (Hi & _ & _).
    pose proof (edgeCount_clear bs i b Hi Hdep) as Hcount.
    destruct (IH (<[i := with_dependsOn b None]> bs)) as (bs' & ws & -> & Hk & He & Hr & _);
      [lia|].
    simpl. eexists _, _. split_and!; [done| | |done|done|].
    + etrans; [by apply cleared_keptOrCleared|done].
    + simpl. lia.
    + intros Hac. destruct Hcyc as [c Hc]. by destruct (Hac c).
Qed.

Lemma updateBucketOrder_spec bs :
  ∃ bs' ws,
    updateBucketOrder bs = Some (bs', ws) ∧
    Forall2 keptOrCleared bs bs' ∧
    edgeCount bs = (edgeCount bs' + length ws)%nat ∧
    Ranked bs' ∧
    (ws = [] → Forall2 sameButOrder bs bs') ∧
    (Acyclic bs → ws = []).
Proof.
  apply updateBucketOrderWithin_spec. pose proof (edgeCount_le bs). lia.
Qed.

End UpdateBucketOrder.

(** C4. Cycle termination: for every set of buckets and dependency edges,
    cyclic or not, the order computation returns. The buckets it returns
    are the given ones, each with its fields kept but [order], and with
    [dependsOn] kept or cleared. Each restart clears one edge that was set
    (there are as many warnings as edges removed, so at most as many
    restarts as buckets), the one of the first bucket in store order
    whose name reaches a cycle, and nothing is cleared when there is no
    cycle ([Resolves]). The result carries an assignment of order values:
    the first bucket of every name has a number, two names do not share a
    number, and the numbers rise along every remaining edge, so that the
    remaining graph is acyclic. *)
Theorem updateBucketOrder_terminates (bs : list PRBucket) :
  ∃ bs' ws,
    updateBucketOrder bs = Some (bs', ws) ∧
    Forall2 keptOrCleared bs bs' ∧
    Resolves bs bs' ws ∧
    (edgeCount bs' + length ws = edgeCount bs)%nat ∧
    (length ws ≤ length bs)%nat ∧
    Numbered bs' ∧ Ranked bs' ∧ Acyclic bs'.
Proof.
  destruct (updateBucketOrder_spec bs) as (bs' & ws & Hu & Hk & He & Hr & _).
  pose proof (updateBucketOrderWithin_resolves _ _ _ _ Hu) as Hres.
  exists bs', ws. pose proof (edgeCount_le bs).
  split_and!; [done|done|done|lia|lia| |done|by apply Ranked_Acyclic].
  by eapply Resolves_Numbered.
Qed.

Section Sorting.

Implicit Types (l : list PRBucket) (a b : PRBucket).

Lemma insertByOrder_perm b l : insertByOrder b l ≡ₚ b :: l.
Proof.
  induction l as [|x l IH]; [done|]. simpl.
  destruct (decide _); [done|]. by rewrite IH, Permutation_swap.
Qed.

Lemma sortByOrder_perm l : sortByOrder l ≡ₚ l.
Proof.
  induction l as [|x l IH]; [done|]. simpl.
  by rewrite insertByOrder_perm, IH.
Qed.

Lemma keysRise_cons x l :
  keysRise (x :: l) ↔
  (∀ y, y ∈ l → (orderKey x ≤ orderKey y)%nat) ∧ keysRise l.
Proof.
  split.
  - intros H. split.
    + intros y [j Hj]%list_elem_of_lookup. apply (H 0 (S j)); [done..|lia].
    + intros i j a b Hi Hj Hlt. apply (H (S i) (S j)); [done..|lia].
  - intros [Hx Hl] i j a b Hi Hj Hlt. destruct j as [|j]; [lia|].
    simpl in Hj. destruct i as [|i]; simpl in Hi.
    + simplify_eq. apply Hx. by eapply list_elem_of_lookup_2.
    + apply (Hl i j); [done..|lia].
Qed.

Lemma insertByOrder_keysRise b l : keysRise l → keysRise (insertByOrder b l).
Proof.
  induction l as [|x l IH]; intros Hl; simpl.
  - apply keysRise_cons. split; [by intros ? ?%elem_of_nil|done].
  - apply keysRise_cons in Hl as Hxl. destruct Hxl as [Hx Hl'].
    destruct (decide _) as [Hle|Hgt].
    + apply keysRise_cons. split; [|done].
      intros y [->|Hy]%elem_of_cons; [done|]. etrans; [done|by apply Hx].
    + apply keysRise_cons. split; [|by apply IH].
      intros y Hy. rewrite insertByOrder_perm in Hy.
      apply elem_of_cons in Hy as [->|Hy]; [lia|by apply Hx].
Qed.

Lemma sortByOrder_keysRise l : keysRise (sortByOrder l).
Proof.
  induction l as [|x l IH]; simpl.
  - by intros i j x y ?.
  - by apply insertByOrder_keysRise.
Qed.


End Sorting.

Section Topological.

Implicit Types (bs : list PRBucket) (a b : PRBucket) (n d : string).







(** The resolver decides acyclicity: a graph on which it shows no
    warning has no cycle. *)
Lemma no_warning_Acyclic bs :
  snd <$> updateBucketOrder bs = Some [] → Acyclic bs.
Proof.
  destruct (updateBucketOrder_spec bs) as (bs' & ws & -> & _ & _ & Hr & Hsame & _).
  simpl. intros [= ->].
  eapply Acyclic_sameButOrder; [by apply Hsame|by apply Ranked_Acyclic].
Qed.

End Topological.




(** C6, as the code has it: a call of [setBucketDependency] on a bucket
    that exists always returns. As long as the name of a bucket reaches a
    cycle, the resolver clears the dependency of the first such bucket in
    store order and shows a warning that names it ([Resolves]); when the
    new edge closes a cycle at least one warning is shown. Every bucket
    keeps its fields but [order], with [dependsOn] kept or cleared; there
    are as many warnings as dependencies cleared, and the graph that
    results is acyclic. *)
Theorem setBucketDependency_breaks_cycles (t : MultiPRTreeProvider)
    (bucketName : string) (d : option string) (i : nat) (b : PRBucket) :
  list_find (λ x, name x = bucketName) (buckets t) = Some (i, b) →
  ∃ t' ws,
    setBucketDependency t bucketName d = Some (t', ws) ∧
    gitChanges t' = gitChanges t ∧
    Resolves (<[i := with_dependsOn b d]> (buckets t)) (buckets t') ws ∧
    Forall2 keptOrCleared (<[i := with_dependsOn b d]> (buckets t)) (buckets t') ∧
    (edgeCount (buckets t') + length ws
     = edgeCount (<[i := with_dependsOn b d]> (buckets t)))%nat ∧
    Acyclic (buckets t') ∧
    (¬ Acyclic (<[i := with_dependsOn b d]> (buckets t)) → ws ≠ []).
Proof.
  intros Hfind. unfold setBucketDependency. rewrite Hfind.
  destruct (updateBucketOrder_spec (<[i := with_dependsOn b d]> (buckets t)))
    as (bs' & ws & Hu & Hk & He & Hr & Hsame & _).
  rewrite Hu. simpl. eexists _, _. split_and!; [done|done| |done|simpl; lia| |].
  - simpl. by eapply updateBucketOrderWithin_resolves.
  - by apply Ranked_Acyclic.
  - intros Hcyc ->. apply Hcyc.
    eapply Acyclic_sameButOrder; [by apply Hsame|by apply Ranked_Acyclic].
Qed.

Lemma setBucketDependency_breaks_cycles_witness :
  ∃ t' ws,
    setBucketDependency Examples.storeAB "B" (Some "A") = Some (t', ws) ∧
    ws = [circularWarning "A"] ∧
    Resolves
      (<[1 := with_dependsOn (Examples.bucket "B" [] None) (Some "A")]>
         (buckets Examples.storeAB))
      (buckets t') ws ∧
    Acyclic (buckets t').
Proof.
  destruct (setBucketDependency_breaks_cycles Examples.storeAB "B" (Some "A") 1
              (Examples.bucket "B" [] None))
    as (t' & ws & Hset & _ & Hres & _ & _ & Hac & _).
  - vm_compute. reflexivity.
  - exists t', ws. split_and!; [done| |done|done].
    vm_compute in Hset. by simplify_eq.
Defined.

(** The bucket that loses its dependency need not lie on the cycle: C
    depends on A and A on B, and the call makes B depend on A. The first
    bucket from which the cycle of A and B is reached is C: C loses its
    dependency, then A does, and the edge just set stays. *)
Lemma setBucketDependency_clears_off_cycle :
  (λ '(t', ws), ((λ x, (name x, dependsOn x)) <$> buckets t', ws))
    <$> setBucketDependency MoreExamples.storeTail "B" (Some "A")
  = Some ([("C", None); ("A", None); ("B", Some "A")],
          [circularWarning "C"; circularWarning "A"]).
Proof. vm_compute. reflexivity. Qed.

(** C6, as stated, fails: bucket A depends on bucket B, and the call makes
    B depend on A. The call returns with one warning; the edge it clears is
    the one of A, which was there before, and the edge just set on B
    stays. *)
Lemma setBucketDependency_counterexample :
  (λ '(t', ws), ((λ x, (name x, dependsOn x)) <$> buckets t', ws))
    <$> setBucketDependency Examples.storeAB "B" (Some "A")
  = Some ([("A", None); ("B", Some "A")], [circularWarning "A"]).
Proof. vm_compute. reflexivity. Qed.

(** ** The adapter *)

Ltac git_unfold :=
  cbv beta delta [mbind mret Git_bind Git_ret bind ret throw tryCatch rethrow
                  ignoreErrors execSync perform dateNow] in *.

(** Case analysis on the answer of the oracle. *)
Ltac destruct_oracle :=
  match goal with
  | |- context [respond ?env ?l ?e] => destruct (respond env l e)
  end.

Section Adapter.

Variable env : Env.
Variable gm : GitManager.

Lemma noWorkspace_true : workspaceRoot gm = "" → noWorkspace gm = true.
Proof. intros H. unfold noWorkspace. by apply bool_decide_eq_true. Qed.

Lemma noWorkspace_false : workspaceRoot gm ≠ "" → noWorkspace gm = false.
Proof. intros H. unfold noWorkspace. by apply bool_decide_eq_false. Qed.



End Adapter.



(** C10. Without a workspace folder the commit, push and switch steps
    return successfully without running anything, whereas branch creation
    throws "No workspace root found"; so the per-bucket pipeline fails at
    its first step, branch creation, with nothing run. *)
Theorem noWorkspace_steps (env : Env) (gm : GitManager) (config : Config)
    (bucket : PRBucket) (rest : list PRBucket) (branch : string)
    (base : option string) (log : list Effect) :
  workspaceRoot gm = "" →
  commitBucket env gm bucket log = (Ok (), log) ∧
  pushBranch env gm branch log = (Ok (), log) ∧
  switchToBranch env gm branch log = (Ok (), log) ∧
  createBranchForBucket env gm (name bucket) base log
  = (Throw "No workspace root found", log) ∧
  processFrom env gm config 0 (length (bucket :: rest))
    {| runBuckets := bucket :: rest; results := [] |} log
  = (Throw "No workspace root found", log).
Proof.
  intros Hroot. pose proof (noWorkspace_true gm Hroot) as Hno.
  unfold commitBucket, pushBranch, switchToBranch, createBranchForBucket.
  rewrite Hno. split_and!; try done.
  simpl. unfold processBucket. simpl. unfold gitSteps, createBranchForBucket.
  rewrite Hno. done.
Qed.

Lemma noWorkspace_steps_witness :
  commitBucket Examples.quiet Examples.noFolder Examples.bucketA [] = (Ok (), []) ∧
  pushBranch Examples.quiet Examples.noFolder "feature/a-123456" [] = (Ok (), []) ∧
  switchToBranch Examples.quiet Examples.noFolder "main" [] = (Ok (), []) ∧
  createBranchForBucket Examples.quiet Examples.noFolder "A" (Some "main") []
  = (Throw "No workspace root found", []) ∧
  processFrom Examples.quiet Examples.noFolder Examples.withCLI 0 2
    {| runBuckets := Examples.independent; results := [] |} []
  = (Throw "No workspace root found", []).
Proof.
  apply (noWorkspace_steps Examples.quiet Examples.noFolder Examples.withCLI
           Examples.bucketA [Examples.bucketC] "feature/a-123456" (Some "main") []).
  reflexivity.
Defined.

(** ** The run *)

Section Run.

Variable env : Env.
Variable gm : GitManager.
Variable config : Config.

Implicit Types (bs : list PRBucket) (rs : RunState) (log : list Effect).

(** A branch that was created has a name made by [BranchName.make]; such
    a name is not empty. *)
Lemma createBranchForBucket_ok n base log branch log' :
  createBranchForBucket env gm n base log = (Ok branch, log') →
  ∃ now, branch = BranchName.make n now.
Proof.
  unfold createBranchForBucket. destruct (noWorkspace gm); [done|].
  git_unfold. intros H. exists (clock env log).
  repeat case_match; by simplify_eq.
Qed.

Lemma make_truthy n now :
  Js.truthy (Some (BranchName.make n now)) = Some (BranchName.make n now).
Proof. done. Qed.

(** What steps 1 to 4 return when none of them throws. *)
Lemma gitSteps_ok i bucket rs log bs' bucket' base branch log' :
  gitSteps env gm config i bucket rs log = (Ok (bs', bucket', base, branch), log') →
  bucket' = with_branchName bucket (Some branch) ∧
  bs' = <[i := bucket']> (runBuckets rs) ∧
  base = baseBranchOf config (runBuckets rs) bucket ∧
  Js.truthy (Some branch) = Some branch.
Proof.
  unfold gitSteps. cbv beta delta [mbind mret Git_bind Git_ret bind ret].
  destruct (createBranchForBucket _ _ _ _ _) as [[br|e] l1] eqn:Hbr; [|done].
  apply createBranchForBucket_ok in Hbr as [now ->].
  destruct (stageFilesForBucket _ _ _ _) as [[[]|e] l2]; [|done].
  destruct (commitBucket _ _ _ _) as [[[]|e] l3]; [|done].
  destruct (pushBranch _ _ _ _) as [[[]|e] l4]; [|done].
  intros [= <- <- <- <- <-]. split_and!; try done.
Qed.

(** The request step pushes one result for the bucket. *)
Lemma requestStep_ok rs bs' bucket' base branch log rs' log' :
  requestStep env gm config rs (bs', bucket', base, branch) log = (Ok rs', log') →
  ∃ r, rs' = pushResult rs bs' r ∧
       ProcessingResult.bucketName r = name bucket' ∧
       ProcessingResult.branchName r = branch.
Proof.
  unfold requestStep. cbv beta delta [mbind mret Git_bind Git_ret bind ret tryCatch].
  destruct (_ || _).
  - destruct (createPRWithCLI _ _ _ _ _) as [[u|e] l1];
      intros [= <- <-]; by eexists.
  - destruct (getRepositoryUrl _ _ _) as [[u|e] l1]; [|done].
    intros [= <- <-]. by eexists.
Qed.

Lemma processBucket_inv bs j rs log rs' log' :
  RunInv bs j rs → (j < length bs)%nat →
  processBucket env gm config j rs log = (Ok rs', log') →
  RunInv bs (S j) rs'.
Proof.
  intros [Hres Hlen Hrest Hdone] Hj. unfold processBucket.
  destruct (lookup_lt_is_Some_2 bs j Hj) as [B HB].
  rewrite (Hrest j) by done. rewrite HB. unfold bind.
  destruct (gitSteps _ _ _ _ _ _ _) as [[[[[bs' bucket'] base] branch]|e] l1] eqn:Hg;
    [|done].
  apply gitSteps_ok in Hg as (-> & -> & -> & Htr).
  intros (r & -> & Hn & Hb)%requestStep_ok. simpl in *. subst branch.
  split; simpl.
  - rewrite length_app. simpl. lia.
  - by rewrite length_insert.
  - intros k Hk. rewrite list_lookup_insert_ne by lia. apply Hrest. lia.
  - intros i r' Hi. destruct (decide (i = length (results rs))) as [->|Hne].
    + rewrite list_lookup_middle in Hi by done. simplify_eq.
      exists B. split_and!; [done..|].
      apply list_lookup_insert_eq. lia.
    + rewrite lookup_app_l in Hi.
      2:{ apply lookup_lt_Some in Hi. rewrite length_app in Hi. simpl in Hi. lia. }
      destruct (Hdone i r' Hi) as (A & HA & HnA & HtA & HrA).
      exists A. split_and!; [done..|].
      rewrite list_lookup_insert_ne; [done|].
      apply lookup_lt_Some in Hi. lia.
Qed.

Lemma processFrom_inv bs n : ∀ j rs log rs' log',
  RunInv bs j rs → (j + n ≤ length bs)%nat →
  processFrom env gm config j n rs log = (Ok rs', log') →
  RunInv bs (j + n) rs'.
Proof.
  induction n as [|n IH]; intros j rs log rs' log' Hinv Hle.
  { simpl. intros [= <- <-]. by rewrite Nat.add_0_r. }
  simpl. unfold bind.
  destruct (processBucket _ _ _ _ _ _) as [[rs1|e] l1] eqn:Hp; [|done].
  intros H. replace (j + S n) with (S j + n) by lia.
  eapply IH; [|lia|done].
  eapply processBucket_inv; [done|lia|done].
Qed.

Lemma RunInv_start bs : RunInv bs 0 {| runBuckets := bs; results := [] |}.
Proof. by split. Qed.

(** [bucketByName] finds the last bucket of a name. *)
Lemma bucketByName_last bs i A d :
  bs !! i = Some A → name A = d →
  (∀ k A', (i < k)%nat → bs !! k = Some A' → name A' ≠ d) →
  bucketByName bs d = Some A.
Proof.
  intros Hi Hn Hlast. unfold bucketByName, findBucket.
  pose proof (lookup_lt_Some _ _ _ Hi) as Hlt.
  assert (list_find (λ b, name b = d) (reverse bs) = Some (length bs - S i, A))
    as ->; [|done].
  apply list_find_Some. split_and!; [|done|].
  - rewrite reverse_lookup by lia.
    by replace (length bs - S (length bs - S i)) with i by lia.
  - intros k y Hk Hki. apply reverse_lookup_Some in Hk as [Hk Hkl].
    eapply Hlast; [|done]. lia.
Qed.

Lemma bucketByName_none bs d :
  (∀ A, A ∈ bs → name A ≠ d) → bucketByName bs d = None.
Proof.
  intros Hno. unfold bucketByName, findBucket.
  destruct (list_find _ (reverse bs)) as [[k y]|] eqn:E; [|done].
  apply list_find_Some in E as (Hk & Hn & _).
  destruct (Hno y); [|done].
  apply elem_of_reverse. by eapply list_elem_of_lookup_2.
Qed.

End Run.

(** ** The log of a run *)

Section Logs.

Variable env : Env.
Variable gm : GitManager.

Lemma Extends_ret {A} (a : A) : Extends (ret a).
Proof. by intros log. Qed.

Lemma Extends_throw {A} (e : string) : Extends (@throw A e).
Proof. by intros log. Qed.

Lemma Extends_perform (e : Effect) : Extends (perform env e).
Proof. intros log. unfold perform. destruct (respond env log e); by apply prefix_app_r. Qed.

Lemma Extends_bind {A B} (m : Git A) (k : A → Git B) :
  Extends m → (∀ a, Extends (k a)) → Extends (bind m k).
Proof.
  intros Hm Hk log. unfold bind. specialize (Hm log).
  destruct (m log) as [[a|e] log1]; simpl in *; [|done].
  etrans; [done|apply Hk].
Qed.

Lemma Extends_tryCatch {A} (m : Git A) (h : string → Git A) :
  Extends m → (∀ e, Extends (h e)) → Extends (tryCatch m h).
Proof.
  intros Hm Hh log. unfold tryCatch. specialize (Hm log).
  destruct (m log) as [[a|e] log1]; simpl in *; [done|].
  etrans; [done|apply Hh].
Qed.

Lemma Extends_forEach {A} (l : list A) (body : A → Git ()) :
  (∀ x, Extends (body x)) → Extends (forEach l body).
Proof.
  intros Hb. induction l as [|x l IH]; [apply Extends_ret|].
  simpl. apply Extends_bind; [done|]. by intros _.
Qed.

Ltac extends :=
  repeat first
    [ apply Extends_ret | apply Extends_throw | apply Extends_perform
    | apply Extends_forEach; intros ?
    | apply Extends_bind; [|intros ?]
    | apply Extends_tryCatch; [|intros ?]
    | progress cbv beta delta [mbind mret Git_bind Git_ret rethrow ignoreErrors
                                execSync dateNow] ].

Lemma Extends_getRepositoryUrl : Extends (getRepositoryUrl env gm).
Proof. unfold getRepositoryUrl. extends. Qed.

Lemma Extends_stageFilesForBucket bucket :
  Extends (stageFilesForBucket env gm bucket).
Proof.
  unfold stageFilesForBucket. destruct (_ || _); [apply Extends_ret|].
  extends. unfold stageFile. destruct (isDeletion _); extends.
Qed.

Lemma Extends_commitBucket bucket : Extends (commitBucket env gm bucket).
Proof. unfold commitBucket. destruct (noWorkspace gm); extends. Qed.

Lemma Extends_pushBranch branch : Extends (pushBranch env gm branch).
Proof. unfold pushBranch. destruct (noWorkspace gm); extends. Qed.

Lemma Extends_createPRWithCLI bucket base :
  Extends (createPRWithCLI env gm bucket base).
Proof.
  unfold createPRWithCLI. destruct (_ || _); [apply Extends_throw|].
  destruct (repoType gm); [| |apply Extends_throw].
  - unfold createGitHubPR. extends.
    destruct (matchGitHubUrl _); extends.
  - unfold createBitbucketPR. extends.
Qed.

Lemma Extends_requestStep config rs done :
  Extends (requestStep env gm config rs done).
Proof.
  unfold requestStep. destruct done as [[[bs bucket] base] branch].
  destruct (_ || _); extends. apply Extends_createPRWithCLI.
Qed.

(** Branch creation in an open workspace, in full: the checkout of a base
    that is not blank and the pull after it are attempted first and their
    failure is ignored; the result is the one of [git checkout -b]. *)
Lemma createBranchForBucket_run bucketName base log :
  workspaceRoot gm ≠ "" →
  createBranchForBucket env gm bucketName base log
  = (match
       respond env
         (log ++
          match Js.truthy base with
          | Some b =>
              if bool_decide (Js.trim b = "") then []
              else
                match respond env log
                        (Exec (Some (workspaceRoot gm)) (gitCheckout b)) with
                | Ok _ => [Exec (Some (workspaceRoot gm)) (gitCheckout b);
                           Exec (Some (workspaceRoot gm)) "git pull --ff-only"]
                | Throw _ => [Exec (Some (workspaceRoot gm)) (gitCheckout b)]
                end
          | None => []
          end)
         (Exec (Some (workspaceRoot gm))
            (gitCheckoutNew (BranchName.make bucketName (clock env log))))
     with
     | Ok _ => Ok (BranchName.make bucketName (clock env log))
     | Throw e =>
         Throw (("Failed to create branch for " +:+ bucketName +:+ ": ") +:+
                Js.renderError e)
     end,
     log ++
     match Js.truthy base with
     | Some b =>
         if bool_decide (Js.trim b = "") then []
         else
           match respond env log
                   (Exec (Some (workspaceRoot gm)) (gitCheckout b)) with
           | Ok _ => [Exec (Some (workspaceRoot gm)) (gitCheckout b);
                      Exec (Some (workspaceRoot gm)) "git pull --ff-only"]
           | Throw _ => [Exec (Some (workspaceRoot gm)) (gitCheckout b)]
           end
     | None => []
     end ++
     [Exec (Some (workspaceRoot gm))
        (gitCheckoutNew (BranchName.make bucketName (clock env log)))]).
Proof.
  intros Hroot. unfold createBranchForBucket.
  rewrite (noWorkspace_false gm Hroot). git_unfold.
  destruct (Js.truthy base) as [b|].
  - destruct (bool_decide (Js.trim b = "")).
    + rewrite (right_id_L [] (++)). cbn [app]. by destruct_oracle.
    + destruct (respond env log (Exec (Some (workspaceRoot gm)) (gitCheckout b)))
        as [out|e].
      * rewrite <- ?(assoc_L (++)). cbn [app fst snd].
        repeat (destruct_oracle; cbn [fst snd]); by rewrite <- ?(assoc_L (++)).
      * rewrite <- ?(assoc_L (++)). cbn [app fst snd].
        repeat (destruct_oracle; cbn [fst snd]); by rewrite <- ?(assoc_L (++)).
  - rewrite (right_id_L [] (++)). cbn [app]. by destruct_oracle.
Qed.

(** The request through the CLI of GitHub starts with [gh pr create] on
    the base branch it is given. *)
Lemma createGitHubPR_log bucket base log :
  ∃ rest,
    (createGitHubPR env gm bucket base log).2
    = log ++ Exec (Some (workspaceRoot gm)) (ghPrCreate bucket base) :: rest.
Proof.
  unfold createGitHubPR, rethrow, tryCatch.
  cbv beta delta [mbind mret Git_bind Git_ret bind ret execSync perform throw].
  destruct (respond env log _) as [out|e]; cbn [fst snd]; [|by exists []].
  destruct (matchGitHubUrl (Js.chars out)); [by exists []|].
  pose proof (Extends_getRepositoryUrl
                (log ++ [Exec (Some (workspaceRoot gm)) (ghPrCreate bucket base)]))
    as [rest Hrest].
  destruct (getRepositoryUrl env gm _) as [[u|e] l2]; simpl in *; subst;
    exists rest; by rewrite <- (assoc_L (++)).
Qed.

Variable config : Config.

(** The loop over [n + m] buckets is the loop over [n] buckets followed,
    when it has not thrown, by the loop over the [m] others. *)
Lemma processFrom_app i n m rs log :
  processFrom env gm config i (n + m) rs log
  = match processFrom env gm config i n rs log with
    | (Ok rs', log') => processFrom env gm config (i + n) m rs' log'
    | (Throw e, log') => (Throw e, log')
    end.
Proof.
  revert i rs log. induction n as [|n IH]; intros i rs log.
  { simpl. by rewrite Nat.add_0_r. }
  simpl. unfold bind.
  destruct (processBucket env gm config i rs log) as [[rs1|e] log1]; [|done].
  rewrite IH. by replace (S i + n) with (i + S n) by lia.
Qed.

(** A run whose loop throws at the bucket of position [j] ends there, in
    the [catch] clause, with the error as the one message. *)
Lemma processAll_aborts bs log original log0 j rs logj e log' :
  getCurrentBranch env gm log = (Ok original, log0) →
  processFrom env gm config 0 j {| runBuckets := bs; results := [] |} log0
  = (Ok rs, logj) →
  (j < length bs)%nat →
  processBucket env gm config j rs logj = (Throw e, log') →
  processAll env gm config bs log
  = (Aborted [ErrorRun (Js.renderError e)], log').
Proof.
  intros Hcur Hrun Hj Hb. unfold processAll.
  cbv beta delta [mbind mret Git_bind Git_ret bind]. rewrite Hcur.
  replace (length bs) with (j + S (length bs - S j)) by lia.
  rewrite processFrom_app, Hrun. simpl. unfold bind at 1. by rewrite Hb.
Qed.

(** A branch is created in an open workspace only. *)
Lemma createBranchForBucket_open n base log branch log' :
  createBranchForBucket env gm n base log = (Ok branch, log') →
  noWorkspace gm = false.
Proof. unfold createBranchForBucket. by destruct (noWorkspace gm). Qed.

(** The turn of a bucket starts with the creation of its branch, from the
    base branch resolved for it. *)
Lemma processBucket_starts j rs B log :
  runBuckets rs !! j = Some B →
  (createBranchForBucket env gm (name B)
     (Some (baseBranchOf config (runBuckets rs) B)) log).2
    `prefix_of` (processBucket env gm config j rs log).2.
Proof.
  intros HB. unfold processBucket. rewrite HB. unfold gitSteps.
  cbv beta delta [mbind mret Git_bind Git_ret]. unfold bind at 1 2.
  destruct (createBranchForBucket _ _ _ _ _) as [[branch|e] l1]; [|done].
  cbn [snd].
  match goal with
  | |- _ `prefix_of` (let (_, _) := ?m l1 in _).2 =>
      assert (Extends m) as Hm
  end.
  { extends; [apply Extends_stageFilesForBucket|apply Extends_commitBucket|
              apply Extends_pushBranch]. }
  specialize (Hm l1).
  destruct (bind _ _ l1) as [[[[[bs' bucket'] base] br]|e] l2]; [|done].
  etrans; [exact Hm|]. apply Extends_requestStep.
Qed.

(** The last step asks for the pull request on the base branch it is
    given: in the command of the CLI of GitHub, in the address made for
    Bitbucket. *)
Lemma requestStep_base rs bs' bucket' base branch log rs' log' :
  noWorkspace gm = false → Js.truthy (branchName bucket') = Some branch →
  requestStep env gm config rs (bs', bucket', base, branch) log = (Ok rs', log') →
  ∃ r, rs' = pushResult rs bs' r ∧
       ProcessingResult.bucketName r = name bucket' ∧
       ProcessingResult.branchName r = branch ∧
       (useGitHubCLI config = true → repoType gm = github →
        Exec (Some (workspaceRoot gm)) (ghPrCreate bucket' base) ∈ log') ∧
       (repoType gm = bitbucket → ProcessingResult.success r = true →
        ∃ repoUrl,
          ProcessingResult.url r
          = Some (repoUrl +:+ "/pull-requests/new?source=" +:+
                  encodeURIComponent env branch +:+
                  "&dest=" +:+ encodeURIComponent env base +:+
                  "&title=" +:+ encodeURIComponent env (title bucket') +:+
                  "&description=" +:+
                  encodeURIComponent env (description bucket'))).
Proof.
  intros Hopen Hbranch. unfold requestStep, getRepoType.
  assert (branchName bucket' = Some branch) as Hbn.
  { destruct (branchName bucket') as [x|]; [|done]. simpl in Hbranch.
    by case_decide. }
  destruct (repoType gm) eqn:Hty.
  - destruct (useGitHubCLI config) eqn:Hcli; simpl.
    + unfold tryCatch, createPRWithCLI. rewrite Hopen, Hbranch, Hty. simpl.
      cbv beta delta [mbind mret Git_bind Git_ret bind ret].
      destruct (createGitHubPR_log bucket' base log) as [rest Hlog].
      destruct (createGitHubPR env gm bucket' base log) as [[u|e] l1];
        simpl in Hlog; intros [= <- <-]; eexists;
        (split_and!; [done|done|done| |done]); intros _ _; rewrite Hlog;
        apply elem_of_app; right; apply list_elem_of_here.
    + cbv beta delta [mbind mret Git_bind Git_ret bind ret].
      destruct (getRepositoryUrl env gm log) as [[u|e] l1]; [|done].
      intros [= <- <-]. eexists. by split_and!.
  - rewrite orb_true_r. unfold tryCatch, createPRWithCLI.
    rewrite Hopen, Hbranch, Hty. simpl. unfold createBitbucketPR, rethrow, tryCatch.
    cbv beta delta [mbind mret Git_bind Git_ret bind ret throw].
    rewrite Hbn. simpl.
    destruct (getRepositoryUrl env gm log) as [[u|e] l1];
      intros [= <- <-]; eexists; (split_and!; [done|done|done|done|]).
    + intros _ _. by exists u.
    + by intros _ ?.
  - rewrite orb_false_r. destruct (useGitHubCLI config) eqn:Hcli.
    + unfold tryCatch, createPRWithCLI. rewrite Hopen, Hbranch, Hty. simpl.
      unfold throw. cbv beta delta [mbind mret Git_bind Git_ret bind ret].
      intros [= <- <-]. eexists. by split_and!.
    + cbv beta delta [mbind mret Git_bind Git_ret bind ret].
      destruct (getRepositoryUrl env gm log) as [[u|e] l1]; [|done].
      intros [= <- <-]. eexists. by split_and!.
Qed.

End Logs.

(** C7. Base resolution: when the loop of a run comes to a bucket B that
    depends on the name [d], the base branch of B is the branch name
    recorded in the result of the bucket named [d] when that bucket was
    processed earlier in the run; it is the configured default base branch
    when no bucket of the run has that name, or when the bucket of that
    name has not been processed yet and has no branch name. (The bucket
    named [d] is the last one of that name in the run; one that comes later
    with a branch name left by an earlier run yields that name.) The turn
    of B uses that base: in an open workspace its first process is the
    checkout of the base (when the base is not blank), and when the turn
    ends with a result the pull request was asked on that base, in the
    command given to the CLI of GitHub or in the address made for
    Bitbucket. *)
Theorem baseBranch_resolution (env : Env) (gm : GitManager) (config : Config)
    (bs : list PRBucket) (j : nat) (rs : RunState) (log logj : list Effect)
    (B : PRBucket) (d : string) :
  processFrom env gm config 0 j {| runBuckets := bs; results := [] |} log
  = (Ok rs, logj) →
  bs !! j = Some B → Js.truthy (dependsOn B) = Some d →
  runBuckets rs !! j = Some B ∧
  (∀ i A, bs !! i = Some A → name A = d →
          (∀ k A', (i < k)%nat → bs !! k = Some A' → name A' ≠ d) →
          if decide (i < j)%nat
          then ∃ r, results rs !! i = Some r ∧
                    ProcessingResult.bucketName r = d ∧
                    baseBranchOf config (runBuckets rs) B
                    = ProcessingResult.branchName r
          else baseBranchOf config (runBuckets rs) B
               = default (defaultBaseBranch config) (Js.truthy (branchName A))) ∧
  ((∀ A, A ∈ bs → name A ≠ d) →
   baseBranchOf config (runBuckets rs) B = defaultBaseBranch config) ∧
  (workspaceRoot gm ≠ "" →
   Js.trim (baseBranchOf config (runBuckets rs) B) ≠ "" →
   ∃ rest,
     (processBucket env gm config j rs logj).2
     = logj ++
       Exec (Some (workspaceRoot gm))
         (gitCheckout (baseBranchOf config (runBuckets rs) B)) :: rest) ∧
  (∀ rs' log',
     processBucket env gm config j rs logj = (Ok rs', log') →
     ∃ r,
       results rs' = results rs ++ [r] ∧
       ProcessingResult.bucketName r = name B ∧
       runBuckets rs' !! j
       = Some (with_branchName B (Some (ProcessingResult.branchName r))) ∧
       (useGitHubCLI config = true → repoType gm = github →
        Exec (Some (workspaceRoot gm))
          (ghPrCreate (with_branchName B (Some (ProcessingResult.branchName r)))
             (baseBranchOf config (runBuckets rs) B)) ∈ log') ∧
       (repoType gm = bitbucket → ProcessingResult.success r = true →
        ∃ repoUrl,
          ProcessingResult.url r
          = Some (repoUrl +:+ "/pull-requests/new?source=" +:+
                  encodeURIComponent env (ProcessingResult.branchName r) +:+
                  "&dest=" +:+
                  encodeURIComponent env
                    (baseBranchOf config (runBuckets rs) B) +:+
                  "&title=" +:+ encodeURIComponent env (title B) +:+
                  "&description=" +:+ encodeURIComponent env (description B)))).
Proof.
  intros Hrun HB Hd.
  pose proof (lookup_lt_Some _ _ _ HB) as Hj.
  pose proof (processFrom_inv env gm config bs j 0 _ _ _ _ (RunInv_start bs)
                ltac:(simpl; lia) Hrun) as [Hres Hlen Hrest Hdone].
  simpl in *.
  assert (∀ k X, runBuckets rs !! k = Some X →
                 ∃ X0, bs !! k = Some X0 ∧ name X = name X0) as Hnames.
  { intros k X Hk. destruct (decide (k < j)%nat) as [Hlt|Hge].
    - rewrite <- Hres in Hlt. destruct (lookup_lt_is_Some_2 _ _ Hlt) as [r Hr].
      destruct (Hdone k r Hr) as (A & HA & _ & _ & HrA).
      rewrite HrA in Hk. simplify_eq. by exists A.
    - rewrite Hrest in Hk by lia. by exists X. }
  assert (runBuckets rs !! j = Some B) as HrB by by rewrite Hrest.
  split_and!.
  - done.
  - intros i A HA <- Hlast. unfold baseBranchOf. rewrite Hd.
    destruct (decide (i < j)%nat) as [Hlt|Hge].
    + pose proof Hlt as Hlt'. rewrite <- Hres in Hlt'.
      destruct (lookup_lt_is_Some_2 _ _ Hlt') as [r Hr].
      destruct (Hdone i r Hr) as (A0 & HA0 & Hn0 & Htr & HrA).
      rewrite HA in HA0. injection HA0 as <-.
      exists r. split_and!; [done..|].
      rewrite (bucketByName_last _ i _ (name A) HrA); [|done|].
      * simpl. by rewrite Htr.
      * intros k X Hk HX. destruct (Hnames k X HX) as (X0 & HX0 & ->).
        by eapply Hlast.
    + rewrite (bucketByName_last _ i A (name A)); [|by rewrite Hrest by lia|done|].
      * simpl. by destruct (Js.truthy (branchName A)).
      * intros k X Hk HX. destruct (Hnames k X HX) as (X0 & HX0 & ->).
        by eapply Hlast.
  - intros Hno. unfold baseBranchOf. rewrite Hd.
    rewrite bucketByName_none; [done|].
    intros X [k HX]%list_elem_of_lookup.
    destruct (Hnames k X HX) as (X0 & HX0 & ->).
    apply Hno. by eapply list_elem_of_lookup_2.
  - intros Hroot Hbase.
    pose proof (processBucket_starts env gm config j rs B logj HrB) as [rest Hlog].
    rewrite (createBranchForBucket_run env gm _ _ _ Hroot) in Hlog.
    cbn [snd] in Hlog.
    assert (Js.truthy (Some (baseBranchOf config (runBuckets rs) B))
            = Some (baseBranchOf config (runBuckets rs) B)) as Htr.
    { simpl. case_decide as He; [|done]. by rewrite He in Hbase. }
    rewrite Htr, (bool_decide_eq_false_2 _ Hbase) in Hlog.
    rewrite Hlog. rewrite <- !(assoc_L (++)).
    destruct (respond env logj _); simpl; by eexists.
  - intros rs' log'. unfold processBucket. rewrite HrB. unfold bind.
    destruct (gitSteps _ _ _ _ _ _ _) as [[[[[bs' bucket'] base] branch]|e] l1] eqn:Hg;
      [|done].
    assert (noWorkspace gm = false) as Hopen.
    { revert Hg. unfold gitSteps.
      cbv beta delta [mbind mret Git_bind Git_ret bind].
      destruct (createBranchForBucket _ _ _ _ _) as [[br|e] l0] eqn:Hbr; [|done].
      intros _. by eapply createBranchForBucket_open. }
    apply gitSteps_ok in Hg as (-> & -> & -> & Htr).
    intros Hreq.
    destruct (requestStep_base env gm config rs _ (with_branchName B (Some branch))
                _ branch _ _ _ Hopen Htr Hreq)
      as (r & -> & Hn & Hb & Hgh & Hbb).
    exists r. subst branch. split_and!; [done|done| |done|done].
    simpl. apply list_lookup_insert_eq. by eapply lookup_lt_Some.
Qed.

Lemma baseBranch_resolution_witness :
  ∃ rs logj rest,
    processFrom Examples.quiet Examples.inRepo Examples.withCLI 0 1
      {| runBuckets := Examples.stacked; results := [] |} [] = (Ok rs, logj) ∧
    ProcessingResult.branchName <$> results rs = ["feature/a-123456"] ∧
    baseBranchOf Examples.withCLI (runBuckets rs) Examples.bucketB
    = "feature/a-123456" ∧
    (processBucket Examples.quiet Examples.inRepo Examples.withCLI 1 rs logj).2
    = logj ++ Exec (Some "/work/shop") (gitCheckout "feature/a-123456") :: rest.
Proof.
  destruct (processFrom Examples.quiet Examples.inRepo Examples.withCLI 0 1
              {| runBuckets := Examples.stacked; results := [] |} [])
    as [[rs|e] logj] eqn:Hrun; [|by vm_compute in Hrun].
  destruct (baseBranch_resolution Examples.quiet Examples.inRepo Examples.withCLI
              Examples.stacked 1 rs [] logj Examples.bucketB "A" Hrun
              eq_refl eq_refl) as (_ & Hdep & _ & Hfirst & _).
  specialize (Hdep 0 Examples.bucketA eq_refl eq_refl).
  simpl in Hdep. destruct Hdep as (r & Hr & _ & Hbase).
  { intros k A' Hk HA'. destruct k as [|[|k]]; [lia| |done].
    simpl in HA'. by simplify_eq. }
  assert (ProcessingResult.branchName r = "feature/a-123456") as Hname.
  { vm_compute in Hrun. simplify_eq. simpl in Hr. by simplify_eq. }
  rewrite Hbase, Hname in Hfirst.
  destruct Hfirst as [rest Hrest]; [done|by vm_compute|].
  exists rs, logj, rest. rewrite Hbase, Hname.
  split_and!; [done| |done|done].
  vm_compute in Hrun. by simplify_eq.
Defined.

(** C1, as the code has it. The loop of a run has come to the bucket at
    position [j]. A failure of branch creation, of staging, of the commit
    or of the push is not recorded: it leaves the loop at once, the run
    ends in its [catch] clause with the error of the step as its one
    message, and nothing is run after the step that failed (the buckets
    that remain are not attempted). A failure of the request step
    ([createPRWithCLI]) is caught and recorded as the failure result of
    the bucket, and the loop goes on with the next bucket. (Without the
    CLI on GitHub the request step only reads the address of the
    repository; a failure there is not caught either.) *)
Theorem processBucket_failures (env : Env) (gm : GitManager) (config : Config)
    (bs : list PRBucket) (log log0 logj : list Effect) (original : string)
    (j : nat) (rs : RunState) (bucket : PRBucket) :
  getCurrentBranch env gm log = (Ok original, log0) →
  processFrom env gm config 0 j {| runBuckets := bs; results := [] |} log0
  = (Ok rs, logj) →
  runBuckets rs !! j = Some bucket → (j < length bs)%nat →
  (∀ e l1,
     createBranchForBucket env gm (name bucket)
       (Some (baseBranchOf config (runBuckets rs) bucket)) logj = (Throw e, l1) →
     processAll env gm config bs log
     = (Aborted [ErrorRun (Js.renderError e)], l1)) ∧
  (∀ branch l1 e l2,
     createBranchForBucket env gm (name bucket)
       (Some (baseBranchOf config (runBuckets rs) bucket)) logj = (Ok branch, l1) →
     stageFilesForBucket env gm (with_branchName bucket (Some branch)) l1
     = (Throw e, l2) →
     processAll env gm config bs log
     = (Aborted [ErrorRun (Js.renderError e)], l2)) ∧
  (∀ branch l1 l2 e l3,
     createBranchForBucket env gm (name bucket)
       (Some (baseBranchOf config (runBuckets rs) bucket)) logj = (Ok branch, l1) →
     stageFilesForBucket env gm (with_branchName bucket (Some branch)) l1
     = (Ok (), l2) →
     commitBucket env gm (with_branchName bucket (Some branch)) l2
     = (Throw e, l3) →
     processAll env gm config bs log
     = (Aborted [ErrorRun (Js.renderError e)], l3)) ∧
  (∀ branch l1 l2 l3 e l4,
     createBranchForBucket env gm (name bucket)
       (Some (baseBranchOf config (runBuckets rs) bucket)) logj = (Ok branch, l1) →
     stageFilesForBucket env gm (with_branchName bucket (Some branch)) l1
     = (Ok (), l2) →
     commitBucket env gm (with_branchName bucket (Some branch)) l2 = (Ok (), l3) →
     pushBranch env gm branch l3 = (Throw e, l4) →
     processAll env gm config bs log
     = (Aborted [ErrorRun (Js.renderError e)], l4)) ∧
  (∀ branch l1 l2 l3 l4 e l5,
     createBranchForBucket env gm (name bucket)
       (Some (baseBranchOf config (runBuckets rs) bucket)) logj = (Ok branch, l1) →
     stageFilesForBucket env gm (with_branchName bucket (Some branch)) l1
     = (Ok (), l2) →
     commitBucket env gm (with_branchName bucket (Some branch)) l2 = (Ok (), l3) →
     pushBranch env gm branch l3 = (Ok (), l4) →
     useGitHubCLI config || bool_decide (getRepoType gm = bitbucket) = true →
     createPRWithCLI env gm (with_branchName bucket (Some branch))
       (baseBranchOf config (runBuckets rs) bucket) l4 = (Throw e, l5) →
     processFrom env gm config 0 (S j) {| runBuckets := bs; results := [] |} log0
     = (Ok (pushResult rs
              (<[j := with_branchName bucket (Some branch)]> (runBuckets rs))
              (failureResult (with_branchName bucket (Some branch)) branch e)),
        l5) ∧
     processFrom env gm config 0 (length bs)
       {| runBuckets := bs; results := [] |} log0
     = processFrom env gm config (S j) (length bs - S j)
         (pushResult rs
            (<[j := with_branchName bucket (Some branch)]> (runBuckets rs))
            (failureResult (with_branchName bucket (Some branch)) branch e))
         l5) ∧
  (∀ branch l1 l2 l3 l4 e l5,
     createBranchForBucket env gm (name bucket)
       (Some (baseBranchOf config (runBuckets rs) bucket)) logj = (Ok branch, l1) →
     stageFilesForBucket env gm (with_branchName bucket (Some branch)) l1
     = (Ok (), l2) →
     commitBucket env gm (with_branchName bucket (Some branch)) l2 = (Ok (), l3) →
     pushBranch env gm branch l3 = (Ok (), l4) →
     useGitHubCLI config || bool_decide (getRepoType gm = bitbucket) = false →
     getRepositoryUrl env gm l4 = (Throw e, l5) →
     processAll env gm config bs log
     = (Aborted [ErrorRun (Js.renderError e)], l5)).
Proof.
  intros Hcur Hrun Hb Hj.
  assert (∀ e l, processBucket env gm config j rs logj = (Throw e, l) →
                 processAll env gm config bs log
                 = (Aborted [ErrorRun (Js.renderError e)], l)) as Habort.
  { intros e l. by apply (processAll_aborts env gm config bs log original log0). }
  assert (processBucket env gm config j rs logj
            = bind (bind (createBranchForBucket env gm (name bucket)
                            (Some (baseBranchOf config (runBuckets rs) bucket)))
                      (λ branch,
                         bind (stageFilesForBucket env gm
                                 (with_branchName bucket (Some branch)))
                           (λ _, bind (commitBucket env gm
                                         (with_branchName bucket (Some branch)))
                                   (λ _, bind (pushBranch env gm branch)
                                           (λ _, ret
                                              (<[j := with_branchName bucket (Some branch)]>
                                                 (runBuckets rs),
                                               with_branchName bucket (Some branch),
                                               baseBranchOf config (runBuckets rs) bucket,
                                               branch))))))
                (requestStep env gm config rs) logj) as Hunfold.
  { unfold processBucket. by rewrite Hb. }
  split_and!.
  - intros e l1 H1. apply Habort. rewrite Hunfold. unfold bind. by rewrite H1.
  - intros branch l1 e l2 H1 H2. apply Habort. rewrite Hunfold. unfold bind.
    by rewrite H1, H2.
  - intros branch l1 l2 e l3 H1 H2 H3. apply Habort. rewrite Hunfold.
    unfold bind. by rewrite H1, H2, H3.
  - intros branch l1 l2 l3 e l4 H1 H2 H3 H4. apply Habort. rewrite Hunfold.
    unfold bind. by rewrite H1, H2, H3, H4.
  - intros branch l1 l2 l3 l4 e l5 H1 H2 H3 H4 Hcli H5.
    assert (processBucket env gm config j rs logj
            = (Ok (pushResult rs
                     (<[j := with_branchName bucket (Some branch)]> (runBuckets rs))
                     (failureResult (with_branchName bucket (Some branch)) branch e)),
               l5)) as Hturn.
    { rewrite Hunfold. unfold bind. rewrite H1, H2, H3, H4.
      unfold ret at 1. unfold requestStep. rewrite Hcli.
      cbv beta delta [mbind mret Git_bind Git_ret bind ret tryCatch].
      by rewrite H5. }
    split.
    + replace (S j) with (j + 1) by lia. rewrite processFrom_app, Hrun. simpl.
      unfold bind. by rewrite Hturn.
    + replace (length bs) with (j + S (length bs - S j)) at 1 by lia.
      rewrite processFrom_app, Hrun. simpl. unfold bind at 1.
      rewrite Hturn. by replace (j + 1) with (S j) by lia.
  - intros branch l1 l2 l3 l4 e l5 H1 H2 H3 H4 Hcli H5. apply Habort.
    rewrite Hunfold. unfold bind. rewrite H1, H2, H3, H4.
    unfold ret at 1. unfold requestStep. rewrite Hcli.
    cbv beta delta [mbind mret Git_bind Git_ret bind ret].
    by rewrite H5.
Qed.

Lemma processBucket_failures_witness :
  processAll Examples.pushFails Examples.inRepo Examples.withCLI
    Examples.independent []
  = (Aborted
       [ErrorRun ("Error: Failed to push branch feature/a-123456: " +:+
                  "Error: Command failed: " +:+ gitPush "feature/a-123456")],
     [Exec (Some "/work/shop") "git branch --show-current";
      Exec (Some "/work/shop") (gitCheckout "main");
      Exec (Some "/work/shop") "git pull --ff-only";
      Exec (Some "/work/shop") (gitCheckoutNew "feature/a-123456");
      Exec (Some "/work/shop") gitReset;
      Exec (Some "/work/shop") (gitAdd "README.md");
      WriteFile "/work/shop/.git/COMMIT_EDITMSG_TEMP"
        (commitMessage (with_branchName Examples.bucketA (Some "feature/a-123456")));
      Exec (Some "/work/shop")
        ("git commit -F " +:+ Js.quote "/work/shop/.git/COMMIT_EDITMSG_TEMP");
      Unlink "/work/shop/.git/COMMIT_EDITMSG_TEMP";
      Exec (Some "/work/shop") (gitPush "feature/a-123456")]) ∧
  ∃ rs1 l5,
    ProcessingResult.success <$> results rs1 = [false] ∧
    ProcessingResult.bucketName <$> results rs1 = ["A"] ∧
    processFrom Examples.ghFails Examples.inRepo Examples.withCLI 0 2
      {| runBuckets := Examples.independent; results := [] |}
      [Exec (Some "/work/shop") "git branch --show-current"]
    = processFrom Examples.ghFails Examples.inRepo Examples.withCLI 1 1 rs1 l5.
Proof.
  split.
  - destruct (processBucket_failures Examples.pushFails Examples.inRepo
                Examples.withCLI Examples.independent []
                [Exec (Some "/work/shop") "git branch --show-current"]
                [Exec (Some "/work/shop") "git branch --show-current"] "main" 0
                {| runBuckets := Examples.independent; results := [] |}
                Examples.bucketA eq_refl eq_refl eq_refl)
      as (_ & _ & _ & Hpush & _ & _); [simpl; lia|].
    eapply Hpush; lazy; reflexivity.
  - destruct (processBucket_failures Examples.ghFails Examples.inRepo
                Examples.withCLI Examples.independent []
                [Exec (Some "/work/shop") "git branch --show-current"]
                [Exec (Some "/work/shop") "git branch --show-current"] "main" 0
                {| runBuckets := Examples.independent; results := [] |}
                Examples.bucketA eq_refl eq_refl eq_refl)
      as (_ & _ & _ & _ & Hrequest & _); [simpl; lia|].
    eexists _, _. split_and!; [| |eapply Hrequest; lazy; reflexivity];
      reflexivity.
Defined.

(** C1, as stated, fails: of two independent buckets A and C, the push of
    A fails. No result is recorded for A: the error leaves the loop and is
    shown as the error of the run. C is not attempted: its branch is never
    created, so C has no result marked succeeded, although a run on C alone
    succeeds under the same oracle. *)
Lemma processAll_pushFailure_counterexample :
  (processAll Examples.pushFails Examples.inRepo Examples.withCLI
     Examples.independent []).1
  = Aborted
      [ErrorRun ("Error: Failed to push branch feature/a-123456: " +:+
                 "Error: Command failed: " +:+ gitPush "feature/a-123456")] ∧
  checkouts (processAll Examples.pushFails Examples.inRepo Examples.withCLI
               Examples.independent []).2
  = [gitCheckout "main"; gitCheckoutNew "feature/a-123456"] ∧
  (processAll Examples.pushFails Examples.inRepo Examples.withCLI
     [Examples.bucketC] []).1
  = Completed
      {| runBuckets :=
           [with_branchName Examples.bucketC (Some "feature/c-123456")];
         results :=
           [{| ProcessingResult.bucketName := "C";
               ProcessingResult.branchName := "feature/c-123456";
               ProcessingResult.url := Some "https://github.com/acme/shop/pulls";
               ProcessingResult.success := true;
               ProcessingResult.manual := Some false;
               ProcessingResult.error := None |}] |}
      [InfoCreated 1 true] true.
Proof. split_and!; vm_compute; reflexivity. Qed.

(** C2 at its failing input: the push of bucket A fails. The run ends in
    its [catch] clause; the checkouts it has run are the one of the base
    branch and the one that created the branch of A. The working copy
    stays on [feature/a-123456]: the original branch [main] is not checked
    out again. *)
Theorem processAll_pushFailure_no_restore :
  ∃ shown log,
    processAll Examples.pushFails Examples.inRepo Examples.withCLI
      Examples.independent [] = (Aborted shown, log) ∧
    head log = Some (Exec (Some "/work/shop") "git branch --show-current") ∧
    checkouts log = [gitCheckout "main"; gitCheckoutNew "feature/a-123456"] ∧
    last log = Some (Exec (Some "/work/shop") (gitPush "feature/a-123456")).
Proof. eexists _, _. split_and!; vm_compute; reflexivity. Qed.

(** When the [try] block runs to its end (no step of branch creation,
    staging, commit or push has thrown), the last process of the run is
    the checkout of the branch that was current when the run started. *)
Lemma processAll_completed_restores (env : Env) (gm : GitManager)
    (config : Config) (bs : list PRBucket) (log log' : list Effect)
    (rs : RunState) (shown : list Notification) (cleared : bool) :
  workspaceRoot gm ≠ "" →
  processAll env gm config bs log = (Completed rs shown cleared, log') →
  ∃ original log0,
    getCurrentBranch env gm log = (Ok original, log0) ∧
    last log' = Some (Exec (Some (workspaceRoot gm)) (gitCheckout original)).
Proof.
  intros Hroot. unfold processAll.
  cbv beta delta [mbind mret Git_bind Git_ret bind ret].
  destruct (getCurrentBranch env gm log) as [[original|e] log0]; [|done].
  destruct (processFrom _ _ _ _ _ _ _) as [[rs1|e] log1]; [|done].
  unfold switchToBranch. rewrite (noWorkspace_false gm Hroot). git_unfold.
  destruct_oracle; [|done].
  intros [= <- <- <- <-]. exists original, log0. split; [done|].
  by rewrite last_snoc.
Qed.

(** ** More on the file registry *)

Section RegistryMoves.

Implicit Types (fs pool : list FileItem) (bs : list PRBucket) (p : string).

Lemma splicePath_absent p fs : p ∉ path <$> fs → splicePath p fs = (fs, false).
Proof.
  intros Hp. unfold splicePath.
  destruct (list_find _ fs) as [[i f]|] eqn:E; [|done].
  apply list_find_Some in E as (Hi & Hf & _). destruct Hp.
  apply list_elem_of_fmap. exists f. split; [done|].
  by eapply list_elem_of_lookup_2.
Qed.

Lemma with_files_same (b : PRBucket) : with_files b (files b) = b.
Proof. by destruct b. Qed.

Lemma strip_absent p (b : PRBucket) : p ∉ path <$> files b → strip p b = b.
Proof.
  intros Hp. unfold strip. rewrite splicePath_absent by done.
  apply with_files_same.
Qed.

Lemma elem_of_bucketPaths p bs :
  p ∈ bucketPaths bs ↔ ∃ b, b ∈ bs ∧ p ∈ path <$> files b.
Proof.
  induction bs as [|b bs IH].
  - split; [by intros ?%elem_of_nil|]. by intros (b & ?%elem_of_nil & _).
  - rewrite bucketPaths_cons, elem_of_app, IH. split.
    + intros [H|(x & Hx & H)]; [exists b|exists x]; split; try done;
        [apply list_elem_of_here|by apply list_elem_of_further].
    + intros (x & [->|Hx]%elem_of_cons & H); [by left|right; by exists x].
Qed.

Lemma strip_all_absent p bs : p ∉ bucketPaths bs → strip p <$> bs = bs.
Proof.
  intros Hp. induction bs as [|b bs IH]; [done|].
  rewrite bucketPaths_cons, elem_of_app in Hp.
  rewrite fmap_cons, strip_absent, IH; [done|tauto|tauto].
Qed.

(** Removing a path from a list whose last entry is the only one of that
    path removes the last entry. *)
Lemma splicePath_snoc p fs file :
  p ∉ path <$> fs → path file = p → splicePath p (fs ++ [file]) = (fs, true).
Proof.
  intros Hp Hf. unfold splicePath.
  assert (list_find (λ f, path f = p) (fs ++ [file]) = Some (length fs, file))
    as ->.
  { apply list_find_Some. split_and!; [by rewrite list_lookup_middle|done|].
    intros j y Hj Hlt Hy. apply Hp. rewrite lookup_app_l in Hj by done.
    apply list_elem_of_fmap. exists y. split; [done|].
    by eapply list_elem_of_lookup_2. }
  f_equal. rewrite delete_take_drop.
  rewrite take_app_length, drop_ge by (rewrite length_app; simpl; lia).
  by rewrite (right_id_L [] (++)).
Qed.

(** With one entry per path, the entry removed for the path of a member
    is that member. *)
Lemma splicePath_member pool file :
  NoDup (path <$> pool) → file ∈ pool →
  ∃ k, pool !! k = Some file ∧ splicePath (path file) pool = (delete k pool, true).
Proof.
  intros Hnd [k Hk]%list_elem_of_lookup. exists k. split; [done|].
  unfold splicePath.
  destruct (list_find_elem_of (λ f, path f = path file) pool file) as [[j x] Hj];
    [by eapply list_elem_of_lookup_2|done|].
  rewrite Hj. apply list_find_Some in Hj as (Hj & Hx & _).
  assert (j = k) as ->; [|done].
  eapply (NoDup_lookup (path <$> pool)); [done| |].
  - rewrite list_lookup_fmap, Hj. simpl. by rewrite Hx.
  - by rewrite list_lookup_fmap, Hk.
Qed.

Lemma giveBack_prefix pool fs : pool `prefix_of` giveBack pool fs.
Proof.
  unfold giveBack. revert pool. induction fs as [|f fs IH]; intros pool; [done|].
  simpl. destruct (hasPath (path f) pool); [apply IH|].
  etrans; [|apply IH]. by apply prefix_app_r.
Qed.

Lemma giveBack_covers pool fs f :
  f ∈ fs → path f ∈ path <$> giveBack pool fs.
Proof.
  unfold giveBack. revert pool. induction fs as [|g fs IH]; intros pool Hf;
    [by apply elem_of_nil in Hf|].
  simpl. apply elem_of_cons in Hf as [->|Hf]; [|by apply IH].
  pose proof (giveBack_prefix (if hasPath (path g) pool then pool else pool ++ [g]) fs)
    as [k Hk]. unfold giveBack in Hk. rewrite Hk, fmap_app, elem_of_app. left.
  destruct (hasPath (path g) pool) eqn:Hg; [by apply hasPath_true|].
  rewrite fmap_app, elem_of_app. right. apply list_elem_of_here.
Qed.

Lemma giveBack_from pool fs f : f ∈ giveBack pool fs → f ∈ pool ∨ f ∈ fs.
Proof.
  unfold giveBack. revert pool. induction fs as [|g fs IH]; intros pool Hf;
    [by left|].
  simpl in Hf. apply IH in Hf as [Hf|Hf]; [|right; by apply list_elem_of_further].
  destruct (hasPath (path g) pool); [by left|].
  apply elem_of_app in Hf as [Hf| ->%list_elem_of_singleton]; [by left|].
  right. apply list_elem_of_here.
Qed.

End RegistryMoves.

(** X1. Round trip: in a state where every path is held once, moving a
    file of the pool into a stored bucket and then back to the pool
    succeeds both times, leaves every bucket as it was and the pool with
    the same entries (the file now last); in between the file is held by
    a bucket and not by the pool. *)
Theorem pool_bucket_round_trip (t : MultiPRTreeProvider) (file : FileItem)
    (i : nat) (b : PRBucket) :
  WellFormed t → file ∈ gitChanges t → buckets t !! i = Some b →
  (moveFileToBucket t file (Stored i)).2 = true ∧
  isFileInBucket (moveFileToBucket t file (Stored i)).1 (path file) = true ∧
  hasPath (path file) (gitChanges (moveFileToBucket t file (Stored i)).1) = false ∧
  (moveFileToGitChanges (moveFileToBucket t file (Stored i)).1 file).2 = true ∧
  buckets (moveFileToGitChanges (moveFileToBucket t file (Stored i)).1 file).1
  = buckets t ∧
  gitChanges (moveFileToGitChanges (moveFileToBucket t file (Stored i)).1 file).1
  ≡ₚ gitChanges t.
Proof.
  intros Hwf Hfile Hb. unfold WellFormed, allPaths in Hwf.
  apply NoDup_app in Hwf as (Hpool & Hdisj & Hbs).
  assert (path file ∈ path <$> gitChanges t) as Hp.
  { apply list_elem_of_fmap. by exists file. }
  pose proof (Hdisj _ Hp) as Hnot.
  assert (path file ∉ path <$> files b) as Hnotb.
  { intros H. apply Hnot, elem_of_bucketPaths. exists b. split; [|done].
    by eapply list_elem_of_lookup_2. }
  destruct (splicePath_member _ _ Hpool Hfile) as (k & Hk & Hsplice).
  unfold moveFileToBucket. rewrite Hb.
  destruct (hasPath (path file) (files b)) eqn:Hhas;
    [by apply hasPath_true in Hhas|].
  cbn [fst snd]. rewrite (strip_all_absent _ _ Hnot), Hsplice. cbn [fst snd].
  assert (hasPath (path file) (delete k (gitChanges t)) = false) as Hgone.
  { pose proof (splicePath_gone (path file) _ Hpool) as Hg.
    rewrite Hsplice in Hg. cbn [fst] in Hg.
    destruct (hasPath (path file) (delete k (gitChanges t))) eqn:E; [|done].
    apply hasPath_true in E. by destruct Hg. }
  assert (strip (path file) <$>
            alter (λ b0, with_files b0 (files b0 ++ [file])) i (buckets t)
          = buckets t) as Hback.
  { apply list_eq. intros j. rewrite list_lookup_fmap.
    destruct (decide (j = i)) as [->|Hne].
    - rewrite list_lookup_alter_eq, Hb. simpl. f_equal. unfold strip. simpl.
      rewrite splicePath_snoc by done. by destruct b.
    - rewrite list_lookup_alter_ne by done.
      destruct (buckets t !! j) as [x|] eqn:Hx; [|done]. simpl. f_equal.
      apply strip_absent. intros H. apply Hnot, elem_of_bucketPaths.
      exists x. split; [|done]. by eapply list_elem_of_lookup_2. }
  split_and!; [done| |done| | |].
  - unfold isFileInBucket. simpl. apply existsb_exists.
    exists (with_files b (files b ++ [file])). split.
    + apply list_elem_of_In, list_elem_of_lookup. exists i.
      by rewrite list_lookup_alter_eq, Hb.
    + cbn [files with_files].
      destruct (hasPath (path file) (files b ++ [file])) eqn:E; [done|].
      apply hasPath_false in E. destruct E. rewrite fmap_app, elem_of_app.
      right. apply list_elem_of_here.
  - unfold moveFileToGitChanges. simpl. rewrite Hgone. simpl.
    apply existsb_exists. exists (with_files b (files b ++ [file])). split.
    + apply list_elem_of_In, list_elem_of_lookup. exists i.
      by rewrite list_lookup_alter_eq, Hb.
    + simpl. by rewrite splicePath_snoc.
  - unfold moveFileToGitChanges. simpl. rewrite Hgone. simpl. exact Hback.
  - unfold moveFileToGitChanges. simpl. rewrite Hgone. simpl.
    assert (existsb (λ b0, (splicePath (path file) (files b0)).2)
              (alter (λ b0, with_files b0 (files b0 ++ [file])) i (buckets t))
            = true) as ->.
    { apply existsb_exists. exists (with_files b (files b ++ [file])). split.
      - apply list_elem_of_In, list_elem_of_lookup. exists i.
        by rewrite list_lookup_alter_eq, Hb.
      - simpl. by rewrite splicePath_snoc. }
    rewrite delete_take_drop. rewrite <- (take_drop_middle _ _ _ Hk) at 3.
    rewrite <- (assoc_L (++)). apply Permutation_app_head.
    by rewrite Permutation_app_comm.
Qed.

Lemma pool_bucket_round_trip_witness :
  buckets (moveFileToGitChanges
             (moveFileToBucket (createBucket Examples.loaded "A" "A" "")
                Examples.main_ts (Stored 0)).1 Examples.main_ts).1
  = buckets (createBucket Examples.loaded "A" "A" "").
Proof.
  refine (proj1 (proj2 (proj2 (proj2 (proj2
    (pool_bucket_round_trip (createBucket Examples.loaded "A" "A" "")
       Examples.main_ts 0 (Examples.bucket "A" [] None) _ _ _)))))).
  - apply (bool_decide_unpack _). vm_compute. reflexivity.
  - vm_compute. apply list_elem_of_further, list_elem_of_here.
  - reflexivity.
Defined.

(** X2. Deleting a stored bucket drops no file: the pool keeps its
    entries, in place, every file of the bucket has its path in the pool
    afterwards, every pool entry comes from the pool or from the bucket,
    and the other buckets stay as they are. *)
Theorem deleteBucket_returns_files (t : MultiPRTreeProvider) (i : nat)
    (b : PRBucket) :
  buckets t !! i = Some b →
  buckets (deleteBucket t (Stored i)) = delete i (buckets t) ∧
  (gitChanges t `prefix_of` gitChanges (deleteBucket t (Stored i))) ∧
  (∀ f, f ∈ files b → path f ∈ path <$> gitChanges (deleteBucket t (Stored i))) ∧
  (∀ f, f ∈ gitChanges (deleteBucket t (Stored i)) →
        f ∈ gitChanges t ∨ f ∈ files b).
Proof.
  intros Hb. unfold deleteBucket. rewrite Hb. simpl. split_and!; [done|..].
  - apply giveBack_prefix.
  - intros f. apply giveBack_covers.
  - intros f. apply giveBack_from.
Qed.

Lemma deleteBucket_returns_files_witness :
  path <$> gitChanges
    (deleteBucket (applyOps Examples.loaded
                     [OpCreate "A" "A" ""; OpMoveToBucket Examples.readme (Stored 0)])
       (Stored 0))
  = ["src/main.ts"; "src/old.ts"; "README.md"] ∧
  ∀ f, f ∈ [Examples.readme] →
       path f ∈ path <$> gitChanges
         (deleteBucket (applyOps Examples.loaded
                          [OpCreate "A" "A" "";
                           OpMoveToBucket Examples.readme (Stored 0)])
            (Stored 0)).
Proof.
  split; [reflexivity|].
  refine (proj1 (proj2 (proj2
    (deleteBucket_returns_files
       (applyOps Examples.loaded
          [OpCreate "A" "A" ""; OpMoveToBucket Examples.readme (Stored 0)])
       0 (Examples.bucket "A" [Examples.readme] None) _)))).
  reflexivity.
Defined.

(** ** More on bucket names and the dependency order *)

Lemma existsb_name_false (n : string) (bs : list PRBucket) :
  existsb (λ b, bool_decide (name b = n)) bs = false → n ∉ name <$> bs.
Proof.
  intros H Hin. apply existsb_name_elem_of in Hin. congruence.
Qed.

(** X3. Through the command the bucket names stay distinct and non-empty:
    whatever is entered in the three boxes, the command either leaves the
    provider as it is, or appends one bucket without files, under the
    trimmed name entered, which is not empty and which no bucket has; the
    pool and the existing buckets stay as they are. *)
Theorem createBucketCommand_keeps_names_distinct (t : MultiPRTreeProvider)
    (nameEntry titleEntry descriptionEntry : option string) :
  NoDup (name <$> buckets t) → "" ∉ name <$> buckets t →
  NoDup (name <$> buckets
           (createBucketCommand t nameEntry titleEntry descriptionEntry).1) ∧
  ("" ∉ name <$> buckets
          (createBucketCommand t nameEntry titleEntry descriptionEntry).1) ∧
  (buckets t `prefix_of`
     buckets (createBucketCommand t nameEntry titleEntry descriptionEntry).1) ∧
  gitChanges (createBucketCommand t nameEntry titleEntry descriptionEntry).1
  = gitChanges t ∧
  ((createBucketCommand t nameEntry titleEntry descriptionEntry).1 = t ∨
   ∃ v ti d,
     nameEntry = Some v ∧ Js.trim v ≠ "" ∧ Js.trim v ∉ name <$> buckets t ∧
     buckets (createBucketCommand t nameEntry titleEntry descriptionEntry).1
     = buckets t ++
       [{| name := Js.trim v; title := ti; description := d; files := [];
           branchName := None; dependsOn := None; order := None |}]).
Proof.
  intros Hnd Hne. unfold createBucketCommand.
  destruct (Js.truthy (showInputBox (validateBucketName t) nameEntry))
    as [bucketName|] eqn:Hname; [|by split_and!; auto].
  destruct (Js.truthy (showInputBox validateTitle titleEntry)) as [ti|];
    [|by split_and!; auto].
  destruct nameEntry as [v|]; [|done]. unfold showInputBox in Hname. simpl in Hname.
  destruct (validateBucketName t v) eqn:Hv; [done|].
  simpl in Hname. case_decide; [done|]. simplify_eq.
  unfold validateBucketName in Hv.
  destruct (bool_decide (bucketName = "") || bool_decide (Js.trim bucketName = ""))
    eqn:Hempty; [done|].
  apply orb_false_iff in Hempty as [_ Htrim%bool_decide_eq_false].
  destruct (existsb _ (getBuckets t)) eqn:Hex; [done|].
  apply existsb_name_false in Hex. unfold createBucket. simpl.
  rewrite fmap_app. simpl. split_and!; [| |by apply prefix_app_r|done|].
  - apply NoDup_app. split_and!; [done| |apply NoDup_singleton].
    by intros x Hx ->%list_elem_of_singleton.
  - rewrite elem_of_app, list_elem_of_singleton. intros [?|?]; [done|].
    by apply Htrim.
  - right. by eexists bucketName, _, _.
Qed.

Lemma createBucketCommand_keeps_names_distinct_witness :
  name <$> buckets (createBucketCommand Examples.storeA
                      (Some (" B" +:+ MoreExamples.nbsp))
                      (Some "Second") None).1 = ["A"; "B"] ∧
  NoDup (name <$> buckets (createBucketCommand Examples.storeA
                             (Some (" B" +:+ MoreExamples.nbsp))
                             (Some "Second") None).1).
Proof.
  split; [reflexivity|].
  refine (proj1 (createBucketCommand_keeps_names_distinct Examples.storeA
                   (Some (" B" +:+ MoreExamples.nbsp)) (Some "Second") None _ _)).
  - apply (bool_decide_unpack _). vm_compute. reflexivity.
  - apply (bool_decide_unpack _). vm_compute. reflexivity.
Defined.

Lemma dependsOn_sameButOrder (bs bs' : list PRBucket) :
  Forall2 sameButOrder bs bs' → dependsOn <$> bs' = dependsOn <$> bs.
Proof.
  induction 1 as [|b b' bs bs' Hb _ IH]; [done|].
  rewrite !fmap_cons, IH. by rewrite (sameButOrder_dependsOn _ _ Hb).
Qed.

(** X4. A dependency that closes no cycle is applied as it is: the call
    shows no warning, every bucket keeps its [dependsOn] (the one just set
    included) and every other field but [order], and the order numbers
    rise along every edge. *)
Theorem setBucketDependency_acyclic_applied (t : MultiPRTreeProvider)
    (bucketName : string) (d : option string) (i : nat) (b : PRBucket) :
  list_find (λ x, name x = bucketName) (buckets t) = Some (i, b) →
  Acyclic (<[i := with_dependsOn b d]> (buckets t)) →
  ∃ t',
    setBucketDependency t bucketName d = Some (t', []) ∧
    Forall2 sameButOrder (<[i := with_dependsOn b d]> (buckets t)) (buckets t') ∧
    dependsOn <$> buckets t' = <[i := d]> (dependsOn <$> buckets t) ∧
    Ranked (buckets t').
Proof.
  intros Hfind Hac. unfold setBucketDependency. rewrite Hfind.
  destruct (updateBucketOrder_spec (<[i := with_dependsOn b d]> (buckets t)))
    as (bs' & ws & -> & _ & _ & Hr & Hsame & Hnone).
  rewrite (Hnone Hac) in *. specialize (Hsame eq_refl).
  simpl. eexists. split_and!; [done|done| |done].
  simpl. rewrite (dependsOn_sameButOrder _ _ Hsame).
  by rewrite list_fmap_insert.
Qed.

Lemma setBucketDependency_acyclic_applied_witness :
  ∃ t',
    setBucketDependency MoreExamples.filled "C" (Some "A") = Some (t', []) ∧
    dependsOn <$> buckets t' = [None; Some "A"] ∧
    order <$> buckets t' = [Some 0%nat; Some 1%nat] ∧
    Ranked (buckets t').
Proof.
  destruct (setBucketDependency_acyclic_applied MoreExamples.filled "C"
              (Some "A") 1 Examples.bucketC)
    as (t' & Hset & _ & Hdeps & Hranked).
  - vm_compute. reflexivity.
  - apply no_warning_Acyclic. vm_compute. reflexivity.
  - exists t'. split_and!; [done|by rewrite Hdeps| |done].
    vm_compute in Hset. by simplify_eq.
Defined.

Section Recompute.

Implicit Types (bs : list PRBucket) (st : SortState).

Lemma visit_sameButOrder bs bs' fuel n st :
  Forall2 sameButOrder bs bs' → visit fuel bs' n st = visit fuel bs n st.
Proof.
  intros Hsame. revert n st. induction fuel as [|fuel IH]; intros n st; [done|].
  simpl. rewrite (dependencyOf_sameButOrder _ _ n Hsame).
  destruct (decide _); [done|]. destruct (decide _); [done|].
  destruct (dependencyOf bs n); [|done]. by rewrite IH.
Qed.

Lemma visitAll_sameButOrder bs bs' fuel i rest rest' st st' :
  Forall2 sameButOrder bs bs' → Forall2 sameButOrder rest rest' →
  visitAll fuel bs i rest st = Ordered st' →
  visitAll fuel bs' i rest' st = Ordered st'.
Proof.
  intros Hsame Hrest. revert i st.
  induction Hrest as [|b b' rest rest' Hb _ IH]; intros i st; [done|].
  simpl. rewrite <- (sameButOrder_name _ _ Hb).
  rewrite (visit_sameButOrder _ _ _ _ _ Hsame).
  destruct (decide _); [apply IH|].
  destruct (visit fuel bs (name b) st) as [[[] st1]|]; [apply IH|done..].
Qed.

(** The array returned comes from a pass that went through. *)
Lemma updateBucketOrderWithin_final passes bs bs' ws :
  updateBucketOrderWithin passes bs = Some (bs', ws) →
  ∃ bs0 st,
    visitAll (S (length bs0)) bs0 0 bs0 emptySort = Ordered st ∧
    bs' = assignOrder 0 (orderNames st) bs0.
Proof.
  revert bs bs' ws. induction passes as [|passes IH]; intros bs bs' ws; [done|].
  simpl. destruct (visitAll _ bs 0 bs emptySort) as [st|i b|] eqn:Hv; [| |done].
  - intros [= <- <-]. by exists bs, st.
  - destruct (updateBucketOrderWithin passes _) as [[bs1 ws1]|] eqn:Hrec; [|done].
    simpl. intros [= <- <-]. by eapply IH.
Qed.

Lemma with_order_same (b : PRBucket) : with_order b (order b) = b.
Proof. by destruct b. Qed.

Lemma numbered_id index n bs :
  (∀ b, findBucket bs n = Some b → order b = Some index) →
  numbered index n bs = bs.
Proof.
  intros H. unfold numbered.
  destruct (list_find _ bs) as [[i b]|] eqn:E; [|done].
  rewrite <- (H b) by (unfold findBucket; by rewrite E).
  rewrite with_order_same. apply list_insert_id.
  by apply list_find_Some in E as (? & _).
Qed.

Lemma assignOrder_id index names bs :
  (∀ j n b, names !! j = Some n → findBucket bs n = Some b →
            order b = Some (index + j)) →
  assignOrder index names bs = bs.
Proof.
  revert index. induction names as [|n names IH]; intros index H; [done|].
  simpl. rewrite numbered_id.
  - apply IH. intros j m b Hj Hb.
    replace (S index + j) with (index + S j) by lia. by apply (H (S j) m).
  - intros b Hb. rewrite <- (Nat.add_0_r index). by apply (H 0 n).
Qed.

End Recompute.

(** X5. Recomputing the order of what [updateBucketOrder] returned changes
    nothing and shows no warning: the order numbers are stable as long as
    the buckets and their dependencies are. *)
Theorem updateBucketOrder_idempotent (bs bs' : list PRBucket) (ws : list string) :
  updateBucketOrder bs = Some (bs', ws) →
  updateBucketOrder bs' = Some (bs', []).
Proof.
  intros Hu. unfold updateBucketOrder in Hu.
  destruct (updateBucketOrderWithin_final _ _ _ _ Hu) as (bs0 & st & Hv & ->).
  pose proof (assignOrder_same 0 (orderNames st) bs0) as Hsame.
  pose proof (visitAll_pass bs0) as Hpass. rewrite Hv in Hpass.
  destruct Hpass as [Hinv Hall].
  unfold updateBucketOrder. simpl.
  rewrite <- (Forall2_length _ _ _ Hsame).
  rewrite (visitAll_sameButOrder _ _ _ _ _ _ _ _ Hsame Hsame Hv).
  f_equal. f_equal. apply assignOrder_id.
  intros j n b Hj Hb. simpl.
  destruct (assignOrder_order _ _ _ _ Hinv Hall Hb) as (j' & Hj' & ->).
  f_equal. by eapply (NoDup_lookup (orderNames st)); [apply Hinv|..].
Qed.

Lemma updateBucketOrder_idempotent_witness :
  ∃ bs',
    updateBucketOrder
      (<[1 := with_dependsOn (Examples.bucket "B" [] None) (Some "A")]>
         (buckets Examples.storeAB))
    = Some (bs', [circularWarning "A"]) ∧
    updateBucketOrder bs' = Some (bs', []).
Proof.
  eexists. split; [vm_compute; reflexivity|].
  apply (updateBucketOrder_idempotent
           (<[1 := with_dependsOn (Examples.bucket "B" [] None) (Some "A")]>
              (buckets Examples.storeAB)) _ [circularWarning "A"]).
  vm_compute. reflexivity.
Defined.

Section SortingMore.

Implicit Types (l : list PRBucket) (a b : PRBucket).

Lemma insertByOrder_filter b l k :
  filter (λ x, orderKey x = k) (insertByOrder b l)
  = filter (λ x, orderKey x = k) (b :: l).
Proof.
  induction l as [|x l IH]; [done|]. simpl.
  destruct (decide (orderKey b ≤ orderKey x)%nat) as [Hle|Hgt]; [done|].
  rewrite filter_cons, IH, !filter_cons.
  destruct (decide (orderKey x = k)), (decide (orderKey b = k)); try done. lia.
Qed.

Lemma insertByOrder_least b l :
  (∀ x, x ∈ l → (orderKey b ≤ orderKey x)%nat) → insertByOrder b l = b :: l.
Proof.
  destruct l as [|x l]; [done|]. intros H. simpl.
  rewrite decide_True; [done|]. apply H, list_elem_of_here.
Qed.

Lemma sortByOrder_sorted l : keysRise l → sortByOrder l = l.
Proof.
  induction l as [|x l IH]; [done|]. intros [Hx Hl]%keysRise_cons.
  simpl. rewrite IH by done. by apply insertByOrder_least.
Qed.

Lemma unordered_keysRise l : Forall (λ b, order b = None) l → keysRise l.
Proof.
  intros H i j x y Hi Hj _. rewrite Forall_forall in H. unfold orderKey.
  rewrite (H x), (H y); [done|by eapply list_elem_of_lookup_2..].
Qed.

End SortingMore.

(** X6. The ordered listing is the stable sort of the buckets by
    [order || 0]: it holds the same buckets, its keys never fall, and the
    buckets that share a key stand in the order of the store. *)
Theorem getBucketsInOrder_stable (t : MultiPRTreeProvider) (k : nat) :
  getBucketsInOrder t ≡ₚ buckets t ∧
  keysRise (getBucketsInOrder t) ∧
  filter (λ b, orderKey b = k) (getBucketsInOrder t)
  = filter (λ b, orderKey b = k) (buckets t).
Proof.
  unfold getBucketsInOrder. split_and!.
  - apply sortByOrder_perm.
  - apply sortByOrder_keysRise.
  - induction (buckets t) as [|b l IH]; [done|].
    simpl. by rewrite insertByOrder_filter, !filter_cons, IH.
Qed.

(** X7. When the keys of the store never fall (in particular when no order
    has been computed yet, or when buckets were only appended to an ordered
    store), the ordered listing is the store order. *)
Theorem getBucketsInOrder_store_order (t : MultiPRTreeProvider) :
  keysRise (buckets t) → getBucketsInOrder t = buckets t.
Proof. apply sortByOrder_sorted. Qed.

Lemma getBucketsInOrder_store_order_witness :
  getBucketsInOrder Examples.storeChain = buckets Examples.storeChain.
Proof.
  apply getBucketsInOrder_store_order, unordered_keysRise.
  apply (bool_decide_unpack _). vm_compute. reflexivity.
Defined.

(** ** More on the adapter *)

Section BranchNames.

Lemma dropWhile_suffix {A} (p : A → bool) (l : list A) :
  Js.dropWhile p l `suffix_of` l.
Proof.
  induction l as [|x l IH]; [done|]. simpl.
  destruct (p x); [by apply suffix_cons_r|done].
Qed.

Lemma dropWhile_head {A} (p : A → bool) (l : list A) x :
  head (Js.dropWhile p l) = Some x → p x = false.
Proof.
  induction l as [|y l IH]; [done|]. simpl.
  destruct (p y) eqn:Hy; [done|]. simpl. by intros [= <-].
Qed.

Lemma dropWhileEnd_prefix {A} (p : A → bool) (l : list A) :
  Js.dropWhileEnd p l `prefix_of` l.
Proof.
  unfold Js.dropWhileEnd. rewrite <- (reverse_involutive l) at 2.
  apply suffix_prefix_reverse, dropWhile_suffix.
Qed.

Lemma prefix_head {A} (k l : list A) x :
  k `prefix_of` l → head k = Some x → head l = Some x.
Proof. intros [m ->]. by destruct k. Qed.

Lemma Forall_suffix {A} (P : A → Prop) (k l : list A) :
  k `suffix_of` l → Forall P l → Forall P k.
Proof. intros [m ->]. by intros [_ ?]%Forall_app. Qed.

Lemma Forall_prefix {A} (P : A → Prop) (k l : list A) :
  k `prefix_of` l → Forall P l → Forall P k.
Proof. intros [m ->]. by intros [? _]%Forall_app. Qed.

Lemma lowerKept_chars (code : N) :
  Forall (λ o, ∀ c, o = Some c → Js.isLowerOrDigit c = true)
         (BranchName.lowerKept code).
Proof.
  unfold BranchName.lowerKept.
  destruct (Js.isSpace code); [by repeat constructor|].
  destruct ((65 <=? code)%N && (code <=? 90)%N) eqn:Hupper.
  { apply andb_true_iff in Hupper as [Hlo%N.leb_le Hhi%N.leb_le].
    repeat constructor. intros c [= <-]. unfold Js.isLowerOrDigit.
    rewrite nat_ascii_embedding by lia.
    apply orb_true_iff. left. apply andb_true_iff.
    split; apply Nat.leb_le; lia. }
  destruct (((97 <=? code)%N && (code <=? 122)%N) ||
            ((48 <=? code)%N && (code <=? 57)%N)) eqn:Hkept.
  { repeat constructor. intros c [= <-]. unfold Js.isLowerOrDigit.
    apply orb_true_iff in Hkept as [H|H];
      apply andb_true_iff in H as [Hlo%N.leb_le Hhi%N.leb_le];
      rewrite nat_ascii_embedding by lia; apply orb_true_iff; [left|right];
      apply andb_true_iff; split; apply Nat.leb_le; lia. }
  destruct (code =? 304)%N; [by repeat constructor; intros c [= <-]|].
  destruct (code =? 8490)%N; [by repeat constructor; intros c [= <-]|].
  constructor.
Qed.

Lemma dashSpaces_chars (inRun : bool) (l : list (option ascii)) :
  Forall (λ o, ∀ c, o = Some c → Js.isLowerOrDigit c = true) l →
  Forall (λ c, Js.isLowerOrDigit c = true ∨ c = "-"%char)
         (BranchName.dashSpaces inRun l).
Proof.
  intros H. revert inRun. induction H as [|o l Ho _ IH]; intros inRun; [done|].
  simpl. destruct o as [c|].
  - constructor; [|apply IH]. left. by apply Ho.
  - destruct inRun; [apply IH|]. constructor; [by right|apply IH].
Qed.

End BranchNames.

(** X8. The sanitized part of a branch name has at most 40 characters,
    each of them a lower-case letter, a digit or a dash, and it does not
    begin with a dash. *)
Theorem sanitize_shape (bucketName : string) :
  (length (Js.chars (BranchName.sanitize bucketName)) ≤ 40)%nat ∧
  Forall (λ c, Js.isLowerOrDigit c = true ∨ c = "-"%char)
         (Js.chars (BranchName.sanitize bucketName)) ∧
  head (Js.chars (BranchName.sanitize bucketName)) ≠ Some "-"%char.
Proof.
  unfold BranchName.sanitize, Js.substring0, Js.chars, Js.unchars.
  rewrite !list_ascii_of_string_of_list_ascii.
  set (kept := concat _).
  set (dashed := BranchName.dashSpaces false kept).
  assert (Forall (λ c, Js.isLowerOrDigit c = true ∨ c = "-"%char) dashed) as Hd.
  { apply dashSpaces_chars, Forall_concat, Forall_fmap, Forall_forall.
    intros c _. apply lowerKept_chars. }
  split_and!.
  - apply firstn_le_length.
  - apply Forall_take. eapply Forall_prefix; [apply dropWhileEnd_prefix|].
    eapply Forall_suffix; [apply dropWhile_suffix|done].
  - intros Hh.
    assert (head (Js.dropWhile BranchName.isDash dashed) = Some "-"%char) as Hh'.
    { eapply prefix_head; [apply dropWhileEnd_prefix|].
      eapply prefix_head; [apply prefix_take|done]. }
    by apply dropWhile_head in Hh'.
Qed.

(** At the names of the kind that the classes of ASCII miss: white space
    outside ASCII becomes a dash, the Kelvin sign a [k]. *)
Lemma sanitize_beyond_ascii :
  BranchName.sanitize ("Fix" +:+ MoreExamples.nbsp +:+ "the" +:+
                       MoreExamples.emsp +:+ " 2" +:+ MoreExamples.kelvin +:+
                       " limit!")
  = "fix-the-2k-limit".
Proof. vm_compute. reflexivity. Qed.

Section Steps.

Variable env : Env.
Variable gm : GitManager.

(** X9. In an open workspace, creating the branch of a bucket depends on
    [git checkout -b] alone. When a base is given that is not blank, its
    checkout is run first, and after it, when it succeeds, [git pull
    --ff-only]; the failure of either is ignored. Then the new branch is
    created, under the name made from the bucket name and the clock, and
    the call succeeds exactly when that process does. No other process is
    run. *)
Theorem createBranchForBucket_best_effort (bucketName : string)
    (base : option string) (log : list Effect) :
  workspaceRoot gm ≠ "" →
  let root := Some (workspaceRoot gm) in
  let branch := BranchName.make bucketName (clock env log) in
  let pre :=
    match Js.truthy base with
    | Some b =>
        if bool_decide (Js.trim b = "") then []
        else
          match respond env log (Exec root (gitCheckout b)) with
          | Ok _ => [Exec root (gitCheckout b); Exec root "git pull --ff-only"]
          | Throw _ => [Exec root (gitCheckout b)]
          end
    | None => []
    end in
  createBranchForBucket env gm bucketName base log
  = (match respond env (log ++ pre) (Exec root (gitCheckoutNew branch)) with
     | Ok _ => Ok branch
     | Throw e =>
         Throw (("Failed to create branch for " +:+ bucketName +:+ ": ") +:+
                Js.renderError e)
     end,
     log ++ pre ++ [Exec root (gitCheckoutNew branch)]).
Proof. intros Hroot. by apply createBranchForBucket_run. Qed.

(** X10. In an open workspace, committing a bucket writes the message to
    the temporary file, runs [git commit -F] on it and then removes the
    file. The call succeeds exactly when the write and the commit do; a
    failure to remove the file is ignored, and when the write or the
    commit fails the removal is not attempted. *)
Theorem commitBucket_effects (bucket : PRBucket) (log : list Effect) :
  workspaceRoot gm ≠ "" →
  let tempFile := pathJoin env [workspaceRoot gm; ".git"; "COMMIT_EDITMSG_TEMP"] in
  let write := WriteFile tempFile (commitMessage bucket) in
  let commit := Exec (Some (workspaceRoot gm)) ("git commit -F " +:+ Js.quote tempFile) in
  commitBucket env gm bucket log
  = match respond env log write with
    | Throw e =>
        (Throw (("Failed to commit " +:+ name bucket +:+ ": ") +:+
                Js.renderError e),
         log ++ [write])
    | Ok _ =>
        match respond env (log ++ [write]) commit with
        | Throw e =>
            (Throw (("Failed to commit " +:+ name bucket +:+ ": ") +:+
                    Js.renderError e),
             log ++ [write; commit])
        | Ok _ => (Ok (), log ++ [write; commit; Unlink tempFile])
        end
    end.
Proof.
  intros Hroot. unfold commitBucket.
  rewrite (noWorkspace_false gm Hroot). git_unfold. cbv zeta.
  rewrite <- ?(assoc_L (++)). cbn [app].
  repeat (destruct_oracle; cbn [fst snd]); by rewrite <- ?(assoc_L (++)).
Qed.

End Steps.

Lemma createBranchForBucket_best_effort_witness :
  createBranchForBucket (Examples.oracle (Js.startsWith "git pull"))
    Examples.inRepo "A" (Some "main") []
  = (Ok "feature/a-123456",
     [Exec (Some "/work/shop") (gitCheckout "main");
      Exec (Some "/work/shop") "git pull --ff-only";
      Exec (Some "/work/shop") (gitCheckoutNew "feature/a-123456")]).
Proof.
  rewrite (createBranchForBucket_best_effort
             (Examples.oracle (Js.startsWith "git pull")) Examples.inRepo
             "A" (Some "main") []).
  - reflexivity.
  - vm_compute. discriminate.
Defined.

Lemma commitBucket_effects_witness :
  commitBucket (Examples.oracle (Js.startsWith "git commit")) Examples.inRepo
    Examples.bucketA []
  = (Throw ("Failed to commit A: Error: Command failed: git commit -F " +:+
            Js.quote "/work/shop/.git/COMMIT_EDITMSG_TEMP"),
     [WriteFile "/work/shop/.git/COMMIT_EDITMSG_TEMP"
        (commitMessage Examples.bucketA);
      Exec (Some "/work/shop")
        ("git commit -F " +:+ Js.quote "/work/shop/.git/COMMIT_EDITMSG_TEMP")]).
Proof.
  rewrite (commitBucket_effects
             (Examples.oracle (Js.startsWith "git commit")) Examples.inRepo
             Examples.bucketA []).
  - reflexivity.
  - vm_compute. discriminate.
Defined.

(** ** More on the run *)

Section RunResults.

Variable env : Env.
Variable gm : GitManager.
Variable config : Config.

Implicit Types (bs : list PRBucket) (rs : RunState) (log : list Effect).

Lemma requestStep_reported rs bs' bucket' base branch log rs' log' :
  requestStep env gm config rs (bs', bucket', base, branch) log = (Ok rs', log') →
  ∃ r, rs' = pushResult rs bs' r ∧ WellReported gm config r.
Proof.
  unfold requestStep, getRepoType.
  cbv beta delta [mbind mret Git_bind Git_ret bind ret tryCatch].
  destruct (useGitHubCLI config || bool_decide (repoType gm = bitbucket)) eqn:Hcli.
  - destruct (createPRWithCLI _ _ _ _ _) as [[u|e] l1];
      intros [= <- <-]; eexists; (split; [done|]); unfold WellReported; simpl.
    + split_and!; [by eexists|done|]. f_equal.
      destruct (bool_decide (repoType gm = bitbucket)); [done|].
      simpl in *. by rewrite orb_false_r in Hcli; rewrite Hcli.
    + split_and!; [done|by eexists|done].
  - destruct (getRepositoryUrl _ _ _) as [[u|e] l1]; [|done].
    intros [= <- <-]. eexists. split; [done|]. unfold WellReported. simpl.
    apply orb_false_iff in Hcli as [-> ->]. split_and!; [by eexists|done..].
Qed.

Lemma processBucket_reported j rs log rs' log' :
  Forall (WellReported gm config) (results rs) →
  processBucket env gm config j rs log = (Ok rs', log') →
  Forall (WellReported gm config) (results rs').
Proof.
  intros Hall. unfold processBucket.
  destruct (runBuckets rs !! j) as [B|]; [|by intros [= <- <-]].
  unfold bind.
  destruct (gitSteps _ _ _ _ _ _ _) as [[[[[bs' bucket'] base] branch]|e] l1];
    [|done].
  intros (r & -> & Hr)%requestStep_reported. simpl.
  apply Forall_app. split; [done|by constructor].
Qed.

Lemma processFrom_reported n : ∀ j rs log rs' log',
  Forall (WellReported gm config) (results rs) →
  processFrom env gm config j n rs log = (Ok rs', log') →
  Forall (WellReported gm config) (results rs').
Proof.
  induction n as [|n IH]; intros j rs log rs' log' Hall.
  { simpl. by intros [= <- <-]. }
  simpl. unfold bind.
  destruct (processBucket _ _ _ _ _ _) as [[rs1|e] l1] eqn:Hp; [|done].
  intros H. eapply IH; [|done]. by eapply processBucket_reported.
Qed.

End RunResults.

(** X11. A run that reaches the end of its [try] block has exactly one
    result per bucket, in the order of the buckets and under their names;
    each bucket carries the branch name of its result; every result is a
    success with a URL (marked manual on Bitbucket and without the CLI) or
    a failure of the request step with its error; and the buckets are
    cleared exactly when at least one result is a success. *)
Theorem processAll_completed_results (env : Env) (gm : GitManager)
    (config : Config) (bs : list PRBucket) (log log' : list Effect)
    (rs : RunState) (shown : list Notification) (cleared : bool) :
  processAll env gm config bs log = (Completed rs shown cleared, log') →
  ProcessingResult.bucketName <$> results rs = name <$> bs ∧
  name <$> runBuckets rs = name <$> bs ∧
  branchName <$> runBuckets rs
  = (λ r, Some (ProcessingResult.branchName r)) <$> results rs ∧
  Forall (WellReported gm config) (results rs) ∧
  (cleared = true ↔
   ∃ r, r ∈ results rs ∧ ProcessingResult.success r = true).
Proof.
  unfold processAll. cbv beta delta [mbind mret Git_bind Git_ret bind ret].
  destruct (getCurrentBranch env gm log) as [[original|e] log0]; [|done].
  destruct (processFrom _ _ _ _ _ _ _) as [[rs1|e] log1] eqn:Hrun; [|done].
  destruct (switchToBranch _ _ _ _) as [[[]|e] log2]; [|done].
  intros [= <- <- <- <-].
  pose proof (processFrom_inv env gm config bs (length bs) 0 _ _ _ _
                (RunInv_start bs) ltac:(simpl; lia) Hrun)
    as [Hres Hlen Hrest Hdone].
  simpl in Hres.
  assert (∀ i r, results rs1 !! i = Some r →
            ∃ A, bs !! i = Some A ∧ ProcessingResult.bucketName r = name A ∧
                 runBuckets rs1 !! i
                 = Some (with_branchName A (Some (ProcessingResult.branchName r))))
    as Hd.
  { intros i r Hr. destruct (Hdone i r Hr) as (A & ? & ? & _ & ?). by exists A. }
  split_and!.
  - apply list_eq. intros i. rewrite !list_lookup_fmap.
    destruct (results rs1 !! i) as [r|] eqn:Hr.
    + destruct (Hd i r Hr) as (A & -> & Hn & _). simpl. by rewrite Hn.
    + apply lookup_ge_None in Hr. rewrite Hres in Hr.
      by rewrite (lookup_ge_None_2 bs i).
  - apply list_eq. intros i. rewrite !list_lookup_fmap.
    destruct (results rs1 !! i) as [r|] eqn:Hr.
    + destruct (Hd i r Hr) as (A & -> & _ & ->). done.
    + apply lookup_ge_None in Hr. rewrite Hres in Hr.
      rewrite (lookup_ge_None_2 bs i) by done.
      by rewrite (lookup_ge_None_2 (runBuckets rs1) i) by lia.
  - apply list_eq. intros i. rewrite !list_lookup_fmap.
    destruct (results rs1 !! i) as [r|] eqn:Hr.
    + destruct (Hd i r Hr) as (A & _ & _ & ->). done.
    + apply lookup_ge_None in Hr. rewrite Hres in Hr.
      by rewrite (lookup_ge_None_2 (runBuckets rs1) i) by lia.
  - eapply processFrom_reported; [|done]. constructor.
  - unfold report. cbn [snd]. rewrite bool_decide_eq_true. split.
    + intros Hpos.
      destruct (filter _ (results rs1)) as [|r l] eqn:Hf; [simpl in Hpos; lia|].
      exists r.
      assert (r ∈ filter (λ r, ProcessingResult.success r = true) (results rs1))
        as Hin by (rewrite Hf; apply list_elem_of_here).
      apply list_elem_of_filter in Hin. tauto.
    + intros (r & Hr & Hs).
      assert (r ∈ filter (λ r, ProcessingResult.success r = true) (results rs1))
        as Hin by by apply list_elem_of_filter.
      destruct (filter _ (results rs1)); [by apply elem_of_nil in Hin|simpl; lia].
Qed.

Lemma processAll_completed_results_witness :
  ∃ rs shown log',
    processAll Examples.ghFails Examples.inRepo Examples.withCLI
      Examples.independent [] = (Completed rs shown false, log') ∧
    ProcessingResult.bucketName <$> results rs = ["A"; "C"] ∧
    Forall (WellReported Examples.inRepo Examples.withCLI) (results rs).
Proof.
  destruct (processAll Examples.ghFails Examples.inRepo Examples.withCLI
              Examples.independent []) as [[rs shown cleared|shown] log'] eqn:Hrun;
    [|by vm_compute in Hrun].
  destruct (processAll_completed_results _ _ _ _ _ _ _ _ _ Hrun)
    as (Hnames & _ & _ & Hall & _).
  assert (cleared = false) as -> by (vm_compute in Hrun; by simplify_eq).
  by exists rs, shown, log'.
Defined.

(** ** The checks before a run *)

(** X12. Every failure of [checkGitHubCLI] is reported as "GitHub CLI not
    found": when [gh --version] succeeds and [gh auth status] fails, the
    error "found but not authenticated" is thrown inside the outer [try]
    and replaced by its [catch] clause, so that message never leaves the
    function. *)
Theorem checkGitHubCLI_one_error (env : Env) (log log' : list Effect)
    (e : string) :
  checkGitHubCLI env log = (Throw e, log') →
  e = cliNotFound ∧ e ≠ notAuthenticated ∧
  (log' = log ++ [Exec None "gh --version"] ∨
   log' = log ++ [Exec None "gh --version"; Exec None "gh auth status"]).
Proof.
  unfold checkGitHubCLI, execSyncHere. git_unfold.
  repeat (destruct_oracle; cbn [fst snd]); intros [= <- <-];
    (split_and!; [done|done|]); rewrite <- ?(assoc_L (++)); auto.
Qed.

Lemma checkGitHubCLI_one_error_witness :
  checkGitHubCLI MoreExamples.loggedOut []
  = (Throw cliNotFound, [Exec None "gh --version"; Exec None "gh auth status"]).
Proof.
  destruct (checkGitHubCLI MoreExamples.loggedOut []) as [[u|e] log'] eqn:H;
    [by vm_compute in H|].
  destruct (checkGitHubCLI_one_error _ _ _ _ H) as (-> & _ & _).
  vm_compute in H. by simplify_eq.
Defined.

Section Command.

Variable env : Env.
Variable gm : GitManager.
Variable config : Config.

Lemma checkCLI_log log :
  (checkCLI env gm log).2 = log ∨
  (checkCLI env gm log).2 = log ++ [Exec None "gh --version"] ∨
  (checkCLI env gm log).2
  = log ++ [Exec None "gh --version"; Exec None "gh auth status"].
Proof.
  unfold checkCLI. destruct (repoType gm); [|by left..].
  unfold checkGitHubCLI, execSyncHere. git_unfold.
  repeat (destruct_oracle; cbn [fst snd]); rewrite <- ?(assoc_L (++)); auto.
Qed.

End Command.

(** X13. Nothing is run before the confirmation but the checks of the
    hosting CLI: when the answer to the confirmation is not "Yes, Create
    PRs" the command does not start the run, and the only processes it
    has run are [gh --version] and [gh auth status]; no git command has
    been issued. *)
Theorem processAllCommand_unconfirmed (env : Env) (gm : GitManager)
    (config : Config) (t : MultiPRTreeProvider)
    (installChoice proceed : option string) (log : list Effect) :
  proceed ≠ Some "Yes, Create PRs" →
  (∀ preview outcome,
     (processAllCommand env gm config t installChoice proceed log).1
     ≠ Ran preview outcome) ∧
  ((processAllCommand env gm config t installChoice proceed log).2 = log ∨
   (processAllCommand env gm config t installChoice proceed log).2
   = log ++ [Exec None "gh --version"] ∨
   (processAllCommand env gm config t installChoice proceed log).2
   = log ++ [Exec None "gh --version"; Exec None "gh auth status"]).
Proof.
  intros Hno. unfold processAllCommand.
  rewrite (bool_decide_eq_false_2 _ Hno).
  pose proof (checkCLI_log env gm log) as Hlog.
  destruct (bool_decide (length (bucketsToProcess t) = 0)); [by auto|].
  destruct (useGitHubCLI config && bool_decide (getRepoType gm = github)).
  - destruct (checkCLI env gm log) as [[[]|e] log1]; simpl in Hlog;
      repeat case_bool_decide; by auto.
  - repeat case_bool_decide; by auto.
Qed.

Lemma processAllCommand_unconfirmed_witness :
  processAllCommand Examples.quiet Examples.inRepo Examples.withCLI
    MoreExamples.filled None (Some "Cancel") []
  = (NotConfirmed
       (previewLines Examples.inRepo Examples.withCLI
          (bucketsToProcess MoreExamples.filled)),
     [Exec None "gh --version"; Exec None "gh auth status"]).
Proof.
  pose proof (processAllCommand_unconfirmed Examples.quiet Examples.inRepo
                Examples.withCLI MoreExamples.filled None (Some "Cancel") [])
    as [_ _]; [discriminate|].
  vm_compute. reflexivity.
Defined.

(** X14. A repository of unknown type is refused before anything is
    touched: whatever the answers, the command runs no process and starts
    no run. *)
Theorem processAllCommand_unknown_repository (env : Env) (gm : GitManager)
    (config : Config) (t : MultiPRTreeProvider)
    (installChoice proceed : option string) (log : list Effect) :
  repoType gm = unknown →
  processAllCommand env gm config t installChoice proceed log
  = (if bool_decide (length (bucketsToProcess t) = 0)
     then NoBucketsWithFiles else UnknownRepository, log).
Proof.
  intros Hu. unfold processAllCommand, getRepoType. rewrite Hu.
  destruct (bool_decide (length (bucketsToProcess t) = 0)); [done|].
  by rewrite andb_false_r.
Qed.

Lemma processAllCommand_unknown_repository_witness :
  processAllCommand Examples.quiet MoreExamples.unknownRepo Examples.withCLI
    MoreExamples.filled None (Some "Yes, Create PRs") []
  = (UnknownRepository, []).
Proof.
  rewrite (processAllCommand_unknown_repository Examples.quiet
             MoreExamples.unknownRepo Examples.withCLI MoreExamples.filled
             None (Some "Yes, Create PRs") []); reflexivity.
Defined.

(** ** More on loading the changed files *)

Section Loading.

Variable env : Env.
Variable providerRoot : string.
Variable isGitRepo : bool.
Variable statSync : string → option Stats.

Lemma isFileInBucket_false (t : MultiPRTreeProvider) (p : string) :
  isFileInBucket t p = false → p ∉ bucketPaths (buckets t).
Proof.
  unfold isFileInBucket. intros H (b & Hb & Hp)%elem_of_bucketPaths.
  assert (existsb (λ b, hasPath p (files b)) (buckets t) = true) as Ht;
    [|congruence].
  apply existsb_exists. exists b. split; [by apply list_elem_of_In|].
  destruct (hasPath p (files b)) eqn:E; [done|].
  by apply hasPath_false in E.
Qed.

Lemma parseStatusLine_fields line f :
  parseStatusLine env providerRoot statSync line = Some f →
  gitStatus f = Some (Js.trim (Js.substring0 2 line)) ∧
  status f = getStatusLabel (Js.trim (Js.substring0 2 line)) ∧
  label f = path f ∧ isDirectory f = Some false.
Proof.
  unfold parseStatusLine. case_match; [done|]. by intros [= <-].
Qed.



Lemma parseStatus_elem_of t output f :
  f ∈ parseStatus env providerRoot statSync t output →
  isFileInBucket t (path f) = false ∧
  ∃ line, line ∈ Lines.split output ∧
          parseStatusLine env providerRoot statSync line = Some f.
Proof.
  unfold parseStatus. intros [Hb Hf]%list_elem_of_filter. split; [done|].
  apply list_elem_of_omap in Hf as (line & Hl & Hp).
  apply list_elem_of_filter in Hl as [_ Hl]. by exists line.
Qed.

End Loading.

(** X15. Loading the changed files never throws and never touches the
    buckets; no file it puts in the pool has a path that a bucket holds,
    so the pool and the buckets share no path; every loaded file is a
    plain entry labelled with its path; and the pool is empty when there
    is no workspace folder, no git repository, or [git status] fails. *)
Theorem loadGitChanges_excludes_bucket_files (env : Env) (providerRoot : string)
    (isGitRepo : bool) (statSync : string → option Stats)
    (t : MultiPRTreeProvider) (log : list Effect) :
  ∃ t',
    (loadGitChanges env providerRoot isGitRepo statSync t log).1 = Ok t' ∧
    buckets t' = buckets t ∧
    (∀ f, f ∈ gitChanges t' →
          (path f ∉ bucketPaths (buckets t')) ∧
          label f = path f ∧ isDirectory f = Some false) ∧
    (NoDup (bucketPaths (buckets t)) → NoDup (path <$> gitChanges t') →
     WellFormed t') ∧
    (providerRoot = "" ∨ isGitRepo = false ∨
     (∃ e, respond env log (gitStatusPorcelain providerRoot) = Throw e) →
     gitChanges t' = []).
Proof.
  unfold loadGitChanges. git_unfold.
  assert (∀ fs,
    (∀ f, f ∈ fs → (path f ∉ bucketPaths (buckets t)) ∧
                   label f = path f ∧ isDirectory f = Some false) →
    NoDup (bucketPaths (buckets t)) → NoDup (path <$> fs) →
    WellFormed (with_gitChanges t fs)) as Hwf.
  { intros fs Hfs Hb Hp. unfold WellFormed, allPaths. simpl.
    apply NoDup_app. split_and!; [done| |done].
    intros p (f & -> & Hf)%list_elem_of_fmap. by apply Hfs. }
  assert (∀ f : FileItem, f ∈ [] →
            (path f ∉ bucketPaths (buckets t)) ∧
            label f = path f ∧ isDirectory f = Some false) as Hnil
    by by intros f ?%elem_of_nil.
  destruct (bool_decide (providerRoot = "")) eqn:Hroot.
  { eexists. split_and!; [done|done|done|by apply Hwf|done]. }
  destruct isGitRepo; simpl.
  2:{ eexists. split_and!; [done|done|done|by apply Hwf|done]. }
  apply bool_decide_eq_false in Hroot.
  destruct (respond env log (gitStatusPorcelain providerRoot)) as [output|e] eqn:Hr;
    simpl.
  - assert (∀ f, f ∈ parseStatus env providerRoot statSync t output →
              (path f ∉ bucketPaths (buckets t)) ∧
              label f = path f ∧ isDirectory f = Some false) as Hfs.
    { intros f (Hb & line & _ & Hl)%parseStatus_elem_of.
      apply parseStatusLine_fields in Hl as (_ & _ & ? & ?).
      split_and!; [by apply isFileInBucket_false|done..]. }
    eexists. split_and!; [done|done|done|by apply Hwf|].
    intros [?|[?|[e He]]]; done.
  - eexists. split_and!; [done|done|done|by apply Hwf|done].
Qed.

Lemma loadGitChanges_excludes_bucket_files_witness :
  ∃ t',
    (loadGitChanges MoreExamples.statusOracle "/work/shop" true
       MoreExamples.stat MoreExamples.holdingReadme []).1 = Ok t' ∧
    path <$> gitChanges t' = ["src/main.ts"; "src/old.ts"] ∧
    WellFormed t'.
Proof.
  destruct (loadGitChanges_excludes_bucket_files MoreExamples.statusOracle
              "/work/shop" true MoreExamples.stat MoreExamples.holdingReadme [])
    as (t' & Hload & _ & _ & Hwf & _).
  exists t'. split; [done|].
  vm_compute in Hload. injection Hload as <-.
  split; [reflexivity|].
  apply Hwf; apply (bool_decide_unpack _); vm_compute; reflexivity.
Defined.



(** ** The dependency command and drag and drop *)

Lemma keptOrCleared_name (b b' : PRBucket) : keptOrCleared b b' → name b' = name b.
Proof.
  intros [H|H]; apply (f_equal name) in H; by destruct b, b'.
Qed.

Lemma names_keptOrCleared (bs bs' : list PRBucket) :
  Forall2 keptOrCleared bs bs' → name <$> bs' = name <$> bs.
Proof.
  induction 1 as [|b b' bs bs' Hb _ IH]; [done|].
  rewrite !fmap_cons, IH. by rewrite (keptOrCleared_name _ _ Hb).
Qed.

Lemma keptOrCleared_dependsOn (b b' : PRBucket) (d : string) :
  keptOrCleared b b' → Js.truthy (dependsOn b') = Some d →
  dependsOn b' = dependsOn b.
Proof.
  intros [H|H] Hd; apply (f_equal dependsOn) in H; destruct b, b';
    simpl in *; [done|]. by rewrite <- H in Hd.
Qed.

Lemma truthy_Some (o : option string) (d : string) :
  Js.truthy o = Some d → o = Some d.
Proof.
  destruct o as [s|]; [|done]. simpl. by case_decide; [|intros [= ->]].
Qed.

(** X17. Through the command a bucket is never made to depend on itself
    nor on a name that no bucket has: the command always returns, keeps
    the pool and the names of the buckets, and every dependency found
    afterwards was there before on a bucket of the same name, or is the
    entry chosen, on a bucket named as the one of the command, and then
    it is the name of another bucket and not the entry [None]. *)
Theorem setDependencyCommand_dependencies (t : MultiPRTreeProvider)
    (bucket : PRBucket) (choice : option string) :
  ∃ t' ws,
    setDependencyCommand t bucket choice = Some (t', ws) ∧
    gitChanges t' = gitChanges t ∧
    name <$> buckets t' = name <$> buckets t ∧
    ∀ b' d, b' ∈ buckets t' → Js.truthy (dependsOn b') = Some d →
      (∃ b0, b0 ∈ buckets t ∧ name b0 = name b' ∧ dependsOn b0 = dependsOn b') ∨
      (name b' = name bucket ∧ choice = Some d ∧ d ≠ "None" ∧
       d ≠ name bucket ∧ d ∈ name <$> buckets t).
Proof.
  assert (∀ b' (d : string), b' ∈ buckets t → Js.truthy (dependsOn b') = Some d →
    (∃ b0, b0 ∈ buckets t ∧ name b0 = name b' ∧ dependsOn b0 = dependsOn b') ∨
    (name b' = name bucket ∧ choice = Some d ∧ d ≠ "None" ∧
     d ≠ name bucket ∧ d ∈ name <$> buckets t)) as Hsame.
  { intros b' d Hb' _. left. by exists b'. }
  unfold setDependencyCommand, showQuickPick.
  destruct choice as [c|]; simpl; [|by eexists _, _].
  case_bool_decide as Hpick; simpl; [|by eexists _, _].
  unfold setBucketDependency.
  destruct (list_find _ (buckets t)) as [[i b]|] eqn:Hfind; [|by eexists _, _].
  apply list_find_Some in Hfind as (Hi & Hname & _).
  destruct (updateBucketOrder_spec
              (<[i := with_dependsOn b (if bool_decide (c = "None") then None
                                        else Some c)]> (buckets t)))
    as (bs' & ws & -> & Hk & _).
  simpl. eexists _, _. split_and!; [done|done| |]; simpl.
  { rewrite (names_keptOrCleared _ _ Hk), list_fmap_insert.
    apply list_insert_id. rewrite list_lookup_fmap, Hi. by destruct b. }
  intros b' d [j Hj]%list_elem_of_lookup Hd.
  destruct (Forall2_lookup_r _ _ _ _ _ Hk Hj) as (x & Hx & Hxb).
  pose proof (keptOrCleared_name _ _ Hxb) as Hn.
  pose proof (keptOrCleared_dependsOn _ _ _ Hxb Hd) as Hdep.
  destruct (decide (j = i)) as [->|Hne].
  - rewrite list_lookup_insert_eq in Hx by by eapply lookup_lt_Some.
    injection Hx as <-. right.
    assert (name b' = name bucket) as Hnb by (rewrite Hn, <- Hname; by destruct b).
    apply truthy_Some in Hd. rewrite Hdep in Hd.
    assert ((if bool_decide (c = "None") then None else Some c) = Some d) as Hc
      by by destruct b.
    case_bool_decide as Hnone; [done|]. injection Hc as ->.
    unfold dependencyPicks in Hpick.
    apply elem_of_cons in Hpick as [?|Hpick]; [done|].
    apply list_elem_of_filter in Hpick as [? ?]. by split_and!.
  - rewrite list_lookup_insert_ne in Hx by done. left. exists x.
    split_and!; [by eapply list_elem_of_lookup_2|done|done].
Qed.

Lemma setDependencyCommand_dependencies_witness :
  ∃ t' ws,
    setDependencyCommand Examples.storeAB (Examples.bucket "B" [] None)
      (Some "A") = Some (t', ws) ∧
    gitChanges t' = [] ∧ name <$> buckets t' = ["A"; "B"].
Proof.
  destruct (setDependencyCommand_dependencies Examples.storeAB
              (Examples.bucket "B" [] None) (Some "A"))
    as (t' & ws & Hrun & Hpool & Hnames & _).
  by exists t', ws.
Defined.

Section Drop.

Implicit Types (t : MultiPRTreeProvider) (fs : list FileItem) (p : string).

(** The files that [handleDrag] lets through. *)
Lemma handleDrag_files (source : list TreeElement) (f : FileItem) :
  FileElement f ∈ source → isDirectory f ≠ Some true →
  ∃ fs, handleDrag source = Some fs ∧ f ∈ fs.
Proof.
  intros Hf Hd. unfold handleDrag.
  match goal with |- context [omap ?g source] => set (fs := omap g source) end.
  assert (f ∈ fs) as Hin.
  { apply list_elem_of_omap. exists (FileElement f). split; [done|].
    by rewrite bool_decide_eq_false_2. }
  case_bool_decide as Hnil; [by rewrite Hnil in Hin; apply elem_of_nil in Hin|].
  by exists fs.
Qed.

Lemma handleDrag_from (source : list TreeElement) fs (f : FileItem) :
  handleDrag source = Some fs → f ∈ fs →
  FileElement f ∈ source ∧ isDirectory f ≠ Some true.
Proof.
  unfold handleDrag. case_bool_decide; [done|]. intros [= <-].
  intros ([b|g] & Hin & Hg)%list_elem_of_omap; [done|].
  case_bool_decide; [done|]. by injection Hg as ->.
Qed.

Lemma omap_length_le {A B} (g : A → option B) (l : list A) :
  (length (omap g l) ≤ length l)%nat.
Proof.
  induction l as [|x l IH]; [done|]. csimpl. destruct (g x); simpl; lia.
Qed.

Lemma handleDrag_length (source : list TreeElement) fs :
  handleDrag source = Some fs → (length fs ≤ length source)%nat.
Proof.
  unfold handleDrag. case_bool_decide; [done|]. intros [= <-].
  apply omap_length_le.
Qed.

Lemma name_strip p (bs : list PRBucket) : name <$> (strip p <$> bs) = name <$> bs.
Proof.
  rewrite <- list_fmap_compose. apply list_fmap_ext. by intros i [].
Qed.

Lemma name_alter_files (g : PRBucket → list FileItem) i (bs : list PRBucket) :
  name <$> alter (λ b, with_files b (g b)) i bs = name <$> bs.
Proof.
  revert i. induction bs as [|b bs IH]; intros [|i]; [done|done| |].
  - by destruct b.
  - change (alter ?f (S i) (b :: bs)) with (b :: alter f i bs).
    by rewrite !fmap_cons, IH.
Qed.

(** One move onto the bucket at position [i]. *)
Lemma moveFileToBucket_stored t file i b :
  buckets t !! i = Some b →
  ∃ b', buckets (moveFileToBucket t file (Stored i)).1 !! i = Some b' ∧
        name <$> buckets (moveFileToBucket t file (Stored i)).1
        = name <$> buckets t ∧
        gitChanges (moveFileToBucket t file (Stored i)).1
          `sublist_of` gitChanges t ∧
        path file ∈ path <$> files b' ∧
        ((files b' = files b ∧ (moveFileToBucket t file (Stored i)).2 = false) ∨
         (files b' = files b ++ [file] ∧
          (moveFileToBucket t file (Stored i)).2 = true)).
Proof.
  intros Hb. unfold moveFileToBucket. rewrite Hb.
  destruct (hasPath (path file) (files b)) eqn:Hp.
  - exists b. split_and!; [done|done|done|by apply hasPath_true|by left].
  - apply hasPath_false in Hp. simpl.
    exists (with_files b (files b ++ [file])). split_and!.
    + rewrite list_lookup_alter_eq, list_lookup_fmap, Hb.
      cbn [fmap option_fmap option_map]. by rewrite (strip_absent _ _ Hp).
    + by rewrite name_alter_files, name_strip.
    + apply splicePath_sublist.
    + destruct b. simpl. rewrite fmap_app, elem_of_app. right.
      apply list_elem_of_here.
    + right. by destruct b.
Qed.

Lemma dropOnBucket_snoc t r fs file :
  dropOnBucket t r (fs ++ [file])
  = ((moveFileToBucket (dropOnBucket t r fs).1 file r).1,
     if (moveFileToBucket (dropOnBucket t r fs).1 file r).2
     then S (dropOnBucket t r fs).2 else (dropOnBucket t r fs).2).
Proof. unfold dropOnBucket. by rewrite foldl_app. Qed.

Lemma dropOnBucket_stored t i b fs :
  WellFormed t → buckets t !! i = Some b →
  WellFormed (dropOnBucket t (Stored i) fs).1 ∧
  name <$> buckets (dropOnBucket t (Stored i) fs).1 = name <$> buckets t ∧
  gitChanges (dropOnBucket t (Stored i) fs).1 `sublist_of` gitChanges t ∧
  ((dropOnBucket t (Stored i) fs).2 ≤ length fs)%nat ∧
  ∃ b', buckets (dropOnBucket t (Stored i) fs).1 !! i = Some b' ∧
        files b `prefix_of` files b' ∧
        (∀ f, f ∈ fs → path f ∈ path <$> files b') ∧
        (∀ f, f ∈ files b' → f ∈ files b ∨ f ∈ fs).
Proof.
  intros Hwf Hb. induction fs as [|file fs IH] using rev_ind.
  { split_and!; [done|done|done|done|]. exists b.
    split_and!; [done|done|by intros f ?%elem_of_nil|by left]. }
  destruct IH as (Hwf1 & Hn1 & Hs1 & Hc1 & b1 & Hb1 & Hpre & Hall & Hfrom).
  rewrite dropOnBucket_snoc. cbn [fst snd].
  destruct (moveFileToBucket_stored _ file i b1 Hb1)
    as (b2 & Hb2 & Hn2 & Hs2 & Hin & Hcase).
  split_and!.
  - by apply moveFileToBucket_wf.
  - by rewrite Hn2.
  - by etrans.
  - rewrite length_app. destruct Hcase as [[_ ->]|[_ ->]]; simpl; lia.
  - exists b2. split_and!; [done| | |].
    + destruct Hcase as [[-> _]|[-> _]]; [done|]. by apply prefix_app_r.
    + intros f [Hf| ->%list_elem_of_singleton]%elem_of_app; [|done].
      specialize (Hall f Hf).
      destruct Hcase as [[-> _]|[-> _]]; [done|].
      rewrite fmap_app, elem_of_app. by left.
    + intros f Hf. rewrite elem_of_app.
      destruct Hcase as [[Hfiles _]|[Hfiles _]]; rewrite Hfiles in Hf.
      * destruct (Hfrom f Hf); auto.
      * apply elem_of_app in Hf as [Hf|Hf]; [destruct (Hfrom f Hf); auto|auto].
Qed.







End Drop.

(** X18. Files dragged onto a bucket of the store all end in that bucket:
    every file entry of the drag that is not a folder has its path in the
    target afterwards, behind the files the target held, and the target
    receives nothing else; buckets and folders of the drag are left out;
    every path is still held once, the pool only loses entries, and the
    count reported is at most the number of dragged elements. *)
Theorem handleDrop_onto_bucket (t : MultiPRTreeProvider) (i : nat)
    (b : PRBucket) (source : list TreeElement) :
  WellFormed t → buckets t !! i = Some b →
  WellFormed (handleDrop t (OnBucket (Stored i)) (handleDrag source)).1 ∧
  name <$> buckets (handleDrop t (OnBucket (Stored i)) (handleDrag source)).1
  = name <$> buckets t ∧
  (gitChanges (handleDrop t (OnBucket (Stored i)) (handleDrag source)).1
     `sublist_of` gitChanges t) ∧
  ((handleDrop t (OnBucket (Stored i)) (handleDrag source)).2
   ≤ length source)%nat ∧
  ∃ b',
    buckets (handleDrop t (OnBucket (Stored i)) (handleDrag source)).1 !! i
    = Some b' ∧
    (files b `prefix_of` files b') ∧
    (∀ f, FileElement f ∈ source → isDirectory f ≠ Some true →
          path f ∈ path <$> files b') ∧
    (∀ f, f ∈ files b' →
          f ∈ files b ∨ (FileElement f ∈ source ∧ isDirectory f ≠ Some true)).
Proof.
  intros Hwf Hb. unfold handleDrop.
  destruct (handleDrag source) as [fs|] eqn:Hdrag.
  - destruct (dropOnBucket_stored t i b fs Hwf Hb)
      as (Hwf' & Hn & Hs & Hc & b' & Hb' & Hpre & Hall & Hfrom).
    split_and!; [done|done|done| |].
    { pose proof (handleDrag_length _ _ Hdrag). lia. }
    exists b'. split_and!; [done|done| |].
    + intros f Hf Hd. apply Hall.
      destruct (handleDrag_files source f Hf Hd) as (fs' & Hfs' & Hin).
      by simplify_eq.
    + intros f Hf. destruct (Hfrom f Hf) as [?|Hin]; [by left|right].
      by eapply handleDrag_from.
  - simpl. split_and!; [done|done|done|lia|].
    exists b. split_and!; [done|done| |by left].
    intros f Hf Hd. destruct (handleDrag_files source f Hf Hd) as (? & ? & _).
    congruence.
Qed.

Lemma handleDrop_onto_bucket_witness :
  ∃ b',
    buckets (handleDrop MoreExamples.filled (OnBucket (Stored 1))
               (handleDrag [FileElement Examples.readme;
                            BucketElement Examples.bucketA;
                            FileElement Examples.old_ts])).1 !! 1 = Some b' ∧
    path <$> files b' = ["src/main.ts"; "README.md"; "src/old.ts"].
Proof.
  destruct (handleDrop_onto_bucket MoreExamples.filled 1 Examples.bucketC
              [FileElement Examples.readme; BucketElement Examples.bucketA;
               FileElement Examples.old_ts])
    as (_ & _ & _ & _ & b' & Hb' & _).
  - apply (bool_decide_unpack _). vm_compute. reflexivity.
  - reflexivity.
  - exists b'. split; [done|]. vm_compute in Hb'. by injection Hb' as <-.
Defined.



(** ** The command around the run, the preview and the reset *)

Lemma processAll_reported (env : Env) (gm : GitManager) (config : Config)
    (bs : list PRBucket) (log log' : list Effect) (rs : RunState)
    (shown : list Notification) (cleared : bool) :
  processAll env gm config bs log = (Completed rs shown cleared, log') →
  Forall (WellReported gm config) (results rs).
Proof.
  unfold processAll. cbv beta delta [mbind mret Git_bind Git_ret bind ret].
  destruct (getCurrentBranch env gm log) as [[original|e] log0]; [|done].
  destruct (processFrom _ _ _ _ _ _ _) as [[rs1|e] log1] eqn:Hrun; [|done].
  destruct (switchToBranch _ _ _ _) as [[[]|e] log2]; [|done].
  intros [= <- <- <- <-].
  eapply processFrom_reported; [|done]. constructor.
Qed.

(** X20. The answer "Use Manual Method" does not make the run manual: on
    a GitHub repository with the CLI enabled, whatever the check of the
    CLI found and whatever was answered to it, a run that completes was
    confirmed, records every success as automatic (not manual) and every
    failure with its error, as the request step of the CLI path does. *)
Theorem processAllCommand_manual_method (env : Env) (gm : GitManager)
    (config : Config) (t : MultiPRTreeProvider)
    (installChoice proceed : option string) (log log' : list Effect)
    (preview : list string) (rs : RunState) (shown : list Notification)
    (cleared : bool) :
  useGitHubCLI config = true → repoType gm = github →
  processAllCommand env gm config t installChoice proceed log
  = (Ran preview (Completed rs shown cleared), log') →
  proceed = Some "Yes, Create PRs" ∧
  preview = previewLines gm config (bucketsToProcess t) ∧
  Forall (λ r, ProcessingResult.success r = true →
               ProcessingResult.manual r = Some false) (results rs) ∧
  Forall (λ r, ProcessingResult.success r = false →
               is_Some (ProcessingResult.error r)) (results rs).
Proof.
  intros Hcli Hgh. unfold processAllCommand, getRepoType. rewrite Hcli, Hgh.
  simpl. case_bool_decide; [done|].
  assert (∀ log1,
    (if bool_decide (proceed = Some "Yes, Create PRs")
     then let (outcome, log2) :=
            processAll env gm config (bucketsToProcess t) log1 in
          (Ran (previewLines gm config (bucketsToProcess t)) outcome, log2)
     else (NotConfirmed (previewLines gm config (bucketsToProcess t)), log1))
    = (Ran preview (Completed rs shown cleared), log') →
    proceed = Some "Yes, Create PRs" ∧
    preview = previewLines gm config (bucketsToProcess t) ∧
    Forall (λ r, ProcessingResult.success r = true →
                 ProcessingResult.manual r = Some false) (results rs) ∧
    Forall (λ r, ProcessingResult.success r = false →
                 is_Some (ProcessingResult.error r)) (results rs)) as Hconfirm.
  { intros log1. case_bool_decide as Hyes; [|done].
    destruct (processAll env gm config (bucketsToProcess t) log1)
      as [outcome log2] eqn:Hrun.
    intros [= <- -> <-].
    pose proof (processAll_reported _ _ _ _ _ _ _ _ _ Hrun) as Hall.
    split_and!; [done|done| |].
    - eapply Forall_impl; [apply Hall|]. intros r Hr Hs.
      unfold WellReported in Hr. rewrite Hs in Hr. destruct Hr as (_ & _ & ->).
      by rewrite Hcli, Hgh.
    - eapply Forall_impl; [apply Hall|]. intros r Hr Hs.
      unfold WellReported in Hr. rewrite Hs in Hr. tauto. }
  destruct (checkCLI env gm log) as [[[]|e] log1]; [apply Hconfirm|].
  repeat case_bool_decide; try done; apply Hconfirm.
Qed.

Lemma processAllCommand_manual_method_witness :
  ∃ preview rs shown log',
    processAllCommand MoreExamples.loggedOut Examples.inRepo Examples.withCLI
      MoreExamples.filled (Some "Use Manual Method") (Some "Yes, Create PRs") []
    = (Ran preview (Completed rs shown true), log') ∧
    ProcessingResult.manual <$> results rs = [Some false; Some false].
Proof.
  destruct (processAllCommand MoreExamples.loggedOut Examples.inRepo
              Examples.withCLI MoreExamples.filled (Some "Use Manual Method")
              (Some "Yes, Create PRs") [])
    as [[| | | |pre|pre [rs shown cleared|shown]] log'] eqn:Hrun;
    try (by vm_compute in Hrun).
  destruct (processAllCommand_manual_method MoreExamples.loggedOut
              Examples.inRepo Examples.withCLI MoreExamples.filled
              (Some "Use Manual Method") (Some "Yes, Create PRs") [] log'
              pre rs shown cleared eq_refl eq_refl Hrun) as (_ & _ & _ & _).
  exists pre, rs, shown, log'.
  vm_compute in Hrun. by simplify_eq.
Defined.

(** X21. Before any branch exists the plan preview shows the default base
    branch for every bucket, also for a bucket that depends on another:
    the base is looked up at the time of the preview, when no bucket
    carries a branch name yet. *)
Theorem preview_default_base (config : Config) (bs : list PRBucket)
    (b : PRBucket) :
  Forall (λ a, Js.truthy (branchName a) = None) bs →
  baseBranchOf config bs b = defaultBaseBranch config ∧
  ∃ rest,
    previewBucket config bs b
    = ("## " +:+ name b) ::
      ("- Base branch: " +:+ defaultBaseBranch config) :: rest.
Proof.
  intros Hnone.
  assert (baseBranchOf config bs b = defaultBaseBranch config) as Hbase.
  { unfold baseBranchOf. destruct (Js.truthy (dependsOn b)) as [d|]; [|done].
    unfold bucketByName.
    destruct (findBucket (reverse bs) d) as [a|] eqn:Ha; [|done]. simpl.
    apply findBucket_name in Ha as [_ Ha]. rewrite elem_of_reverse in Ha.
    rewrite Forall_forall in Hnone. by rewrite (Hnone a Ha). }
  split; [done|]. unfold previewBucket. rewrite Hbase. by eexists.
Qed.

Lemma preview_default_base_witness :
  baseBranchOf Examples.withCLI Examples.stacked Examples.bucketB = "main".
Proof.
  refine (proj1 (preview_default_base Examples.withCLI Examples.stacked
                   Examples.bucketB _)).
  apply (bool_decide_unpack _). vm_compute. reflexivity.
Defined.

(** X22. Clearing the buckets forgets the store: the result never throws,
    has no bucket, and does not depend on what the buckets and the pool
    held; when [git status] answers, the pool is every file entry of the
    answer, none filtered out. *)
Theorem clearBuckets_forgets (env : Env) (providerRoot : string)
    (isGitRepo : bool) (statSync : string → option Stats)
    (t t0 : MultiPRTreeProvider) (log : list Effect) :
  clearBuckets env providerRoot isGitRepo statSync t log
  = clearBuckets env providerRoot isGitRepo statSync t0 log ∧
  ∃ t',
    (clearBuckets env providerRoot isGitRepo statSync t log).1 = Ok t' ∧
    buckets t' = [] ∧
    ∀ output,
      providerRoot ≠ "" → isGitRepo = true →
      respond env log (gitStatusPorcelain providerRoot) = Ok output →
      gitChanges t'
      = omap (parseStatusLine env providerRoot statSync)
          (filter (λ line, Js.trim line ≠ "") (Lines.split output)).
Proof.
  assert (∀ (l : list FileItem) (gc : list FileItem),
            filter (λ f, isFileInBucket {| buckets := []; gitChanges := gc |}
                           (path f) = false) l = l) as Hfilter.
  { intros l gc. induction l as [|f l IH]; [done|].
    rewrite filter_cons_True by done. by rewrite IH. }
  unfold clearBuckets, loadGitChanges, parseStatus, with_gitChanges. git_unfold.
  split; [reflexivity|].
  destruct (bool_decide (providerRoot = "")) eqn:Hroot.
  { apply bool_decide_eq_true in Hroot. eexists. by split_and!. }
  destruct isGitRepo; simpl; [|eexists; by split_and!].
  destruct (respond env log (gitStatusPorcelain providerRoot)) as [out|e] eqn:Hr;
    simpl.
  - eexists. split_and!; [done|done|]. intros output _ _ [= <-].
    apply Hfilter.
  - eexists. by split_and!.
Qed.

Lemma clearBuckets_forgets_witness :
  ∃ t',
    (clearBuckets MoreExamples.statusOracle "/work/shop" true MoreExamples.stat
       MoreExamples.holdingReadme []).1 = Ok t' ∧
    buckets t' = [] ∧
    path <$> gitChanges t' = ["README.md"; "src/main.ts"; "src/old.ts"].
Proof.
  destruct (clearBuckets_forgets MoreExamples.statusOracle "/work/shop" true
              MoreExamples.stat MoreExamples.holdingReadme Examples.loaded [])
    as (_ & t' & Hrun & Hnone & Hpool).
  exists t'. split_and!; [done|done|].
  rewrite (Hpool MoreExamples.porcelain); [reflexivity|done|done|reflexivity].
Defined.

(** X23. The detection of the hosting service never throws: it runs one
    process in the workspace root; the type is GitHub only for a remote
    that includes [github.com], Bitbucket only for one that includes
    [bitbucket.org] and not [github.com], and unknown when the process
    fails. *)
Theorem detectRepoType_total (env : Env) (root : string) (log : list Effect) :
  ∃ ty,
    detectRepoType env root log
    = (Ok ty, log ++ [Exec (Some root) "git config --get remote.origin.url"]) ∧
    (ty = github →
     ∃ out, respond env log
              (Exec (Some root) "git config --get remote.origin.url") = Ok out ∧
            Js.includes "github.com" (Js.trim out) = true) ∧
    (ty = bitbucket →
     ∃ out, respond env log
              (Exec (Some root) "git config --get remote.origin.url") = Ok out ∧
            Js.includes "github.com" (Js.trim out) = false ∧
            Js.includes "bitbucket.org" (Js.trim out) = true) ∧
    ((∃ e, respond env log
             (Exec (Some root) "git config --get remote.origin.url") = Throw e) →
     ty = unknown).
Proof.
  unfold detectRepoType. git_unfold.
  destruct (respond env log _) as [out|e] eqn:Hr; simpl.
  - destruct (Js.includes "github.com" (Js.trim out)) eqn:Hg;
      [|destruct (Js.includes "bitbucket.org" (Js.trim out)) eqn:Hb];
      eexists; (split_and!; [done| | |by intros [? ?]]); try done;
      intros _; by exists out.
  - exists unknown. by split_and!.
Qed.

Lemma detectRepoType_total_witness :
  detectRepoType Examples.quiet "/work/shop" []
  = (Ok github,
     [Exec (Some "/work/shop") "git config --get remote.origin.url"]).
Proof.
  destruct (detectRepoType_total Examples.quiet "/work/shop" [])
    as (ty & Hrun & _).
  assert (ty = github) as -> by (vm_compute in Hrun; by simplify_eq).
  exact Hrun.
Defined.

(** ** The addresses of the repository and of the pull request *)

Lemma prefix_indexOf (p s : string) :
  p ≠ "" → String.prefix p s = true → Js.indexOf p s = Some 0%nat.
Proof.
  intros Hp Hpre. unfold Js.indexOf. destruct s as [|c s].
  - by destruct p.
  - cbn -[String.prefix]. by rewrite Hpre.
Qed.

Lemma substring_all (s : string) : String.substring 0 (String.length s) s = s.
Proof. induction s as [|c s IH]; [done|]. simpl. by rewrite IH. Qed.

Lemma substring_zero (s : string) : String.substring 0 0 s = "".
Proof. by destruct s. Qed.

Lemma substring_append (p r : string) :
  String.substring (String.length p)
    (String.length (p +:+ r) - String.length p) (p +:+ r) = r.
Proof.
  induction p as [|c p IH]; simpl.
  - rewrite Nat.sub_0_r. apply substring_all.
  - apply IH.
Qed.

Lemma prefix_append (p r : string) : String.prefix p (p +:+ r) = true.
Proof.
  induction p as [|c p IH]; simpl; [by destruct r|].
  by destruct (ascii_dec c c).
Qed.

(** Replacing a prefix. *)
Lemma replaceFirst_prefix (p rep r : string) :
  p ≠ "" → Js.replaceFirst p rep (p +:+ r) = rep +:+ r.
Proof.
  intros Hp. unfold Js.replaceFirst.
  rewrite (prefix_indexOf p (p +:+ r) Hp (prefix_append p r)).
  cbn [Nat.add]. by rewrite substring_zero, substring_append.
Qed.

(** X24. For a remote given as the SSH address [git@github.com:] followed
    by [r], the address of the repository is what the replacement of the
    first occurrence of [.git] by nothing makes of [https://github.com/]
    followed by [r]: the occurrence removed is the first one, wherever it
    is, not the suffix. One process is run. *)
Theorem getRepositoryUrl_ssh (env : Env) (gm : GitManager) (log : list Effect)
    (out r : string) :
  respond env log
    (Exec (Some (workspaceRoot gm)) "git config --get remote.origin.url")
  = Ok out →
  Js.trim out = "git@github.com:" +:+ r →
  getRepositoryUrl env gm log
  = (Ok (Js.replaceFirst ".git" "" ("https://github.com/" +:+ r)),
     log ++ [Exec (Some (workspaceRoot gm)) "git config --get remote.origin.url"]).
Proof.
  intros Hout Htrim. unfold getRepositoryUrl. git_unfold. rewrite Hout.
  cbn [fst snd]. rewrite Htrim.
  assert (Js.startsWith "git@github.com:" ("git@github.com:" +:+ r) = true)
    as -> by apply prefix_append.
  by rewrite replaceFirst_prefix.
Qed.

Lemma getRepositoryUrl_ssh_witness :
  getRepositoryUrl MoreExamples.pagesRemote Examples.inRepo []
  = (Ok "https://github.com/acme/acmehub.io.git",
     [Exec (Some "/work/shop") "git config --get remote.origin.url"]).
Proof.
  rewrite (getRepositoryUrl_ssh MoreExamples.pagesRemote Examples.inRepo []
             ("git@github.com:acme/acme.github.io.git" +:+ Js.nl)
             "acme/acme.github.io.git"); reflexivity.
Defined.

Lemma stripPrefix_Some (p l rest : list ascii) :
  stripPrefix p l = Some rest → l = p ++ rest.
Proof.
  revert l. induction p as [|a p IH]; intros l; [by intros [= ->]|].
  destruct l as [|b l]; [done|]. simpl. case_decide; [|done].
  intros ->%IH. by subst.
Qed.

Lemma stripPrefix_app (p rest : list ascii) : stripPrefix p (p ++ rest) = Some rest.
Proof.
  induction p as [|a p IH]; [done|]. simpl. by rewrite decide_True.
Qed.

Lemma takeWhile_split {A} (f : A → bool) (l : list A) :
  ∃ post, l = takeWhile f l ++ post ∧ Forall (λ x, f x = true) (takeWhile f l) ∧
          (post = [] ∨ ∃ c post', post = c :: post' ∧ f c = false).
Proof.
  induction l as [|x l (post & Hl & Hall & Hpost)]; [by exists []; split_and!; auto|].
  simpl. destruct (f x) eqn:Hx.
  - exists post. split_and!; [simpl; congruence|by constructor|done].
  - exists (x :: l). split_and!; [done|done|right; by exists x, l].
Qed.

(** The characters of a text are made of its bytes, in order. *)
Lemma bytes_cons (c : N * list ascii) (l : list (N * list ascii)) :
  Js.bytes (c :: l) = c.2 ++ Js.bytes l.
Proof. done. Qed.

Lemma bytes_app (k l : list (N * list ascii)) :
  Js.bytes (k ++ l) = Js.bytes k ++ Js.bytes l.
Proof. unfold Js.bytes. by rewrite fmap_app, concat_app. Qed.

Lemma codePoints_cons (a : ascii) (r : list ascii) :
  Js.codePoints (a :: r)
  = if (N_of_ascii a <? 128)%N then (N_of_ascii a, [a]) :: Js.codePoints r
    else
      match r with
      | b :: r1 =>
          if (194 <=? N_of_ascii a)%N && (N_of_ascii a <? 224)%N &&
             Js.isContinuation b
          then ((N_of_ascii a - 192) * 64 + Js.low6 b, [a; b])%N
               :: Js.codePoints r1
          else
            match r1 with
            | c :: r2 =>
                if (224 <=? N_of_ascii a)%N && (N_of_ascii a <? 240)%N &&
                   Js.isContinuation b && Js.isContinuation c &&
                   (0x800 <=? (N_of_ascii a - 224) * 4096 + Js.low6 b * 64 +
                              Js.low6 c)%N &&
                   negb ((0xD800 <=? (N_of_ascii a - 224) * 4096 +
                                     Js.low6 b * 64 + Js.low6 c)%N &&
                         ((N_of_ascii a - 224) * 4096 + Js.low6 b * 64 +
                          Js.low6 c <? 0xE000)%N)
                then ((N_of_ascii a - 224) * 4096 + Js.low6 b * 64 +
                      Js.low6 c, [a; b; c])%N :: Js.codePoints r2
                else
                  match r2 with
                  | d :: r3 =>
                      if (240 <=? N_of_ascii a)%N && (N_of_ascii a <? 248)%N &&
                         Js.isContinuation b && Js.isContinuation c &&
                         Js.isContinuation d &&
                         (0x10000 <=? (N_of_ascii a - 240) * 262144 +
                                      Js.low6 b * 4096 + Js.low6 c * 64 +
                                      Js.low6 d)%N &&
                         ((N_of_ascii a - 240) * 262144 + Js.low6 b * 4096 +
                          Js.low6 c * 64 + Js.low6 d <? 0x110000)%N
                      then ((N_of_ascii a - 240) * 262144 + Js.low6 b * 4096 +
                            Js.low6 c * 64 + Js.low6 d, [a; b; c; d])%N
                           :: Js.codePoints r3
                      else Js.stray a :: Js.codePoints r
                  | [] => Js.stray a :: Js.codePoints r
                  end
            | [] => Js.stray a :: Js.codePoints r
            end
      | [] => [Js.stray a]
      end.
Proof. done. Qed.

Lemma codePoints_bytes (l : list ascii) : Js.bytes (Js.codePoints l) = l.
Proof.
  assert (∀ n l, (length l ≤ n)%nat → Js.bytes (Js.codePoints l) = l) as H;
    [|by apply (H (length l))].
  clear l. induction n as [|n IH]; intros l Hl.
  { by destruct l; [|simpl in Hl; lia]. }
  destruct l as [|a r]; [done|]. simpl in Hl.
  rewrite codePoints_cons.
  assert (Js.bytes (Js.codePoints r) = r) as Hr by (apply IH; lia).
  assert (Js.bytes (Js.stray a :: Js.codePoints r) = a :: r) as Hstray
    by (rewrite bytes_cons, Hr; done).
  destruct (N_of_ascii a <? 128)%N; [by rewrite bytes_cons, Hr|].
  destruct r as [|b r1]; [done|]. simpl in Hl.
  destruct (_ && Js.isContinuation b).
  { rewrite bytes_cons, IH by lia. done. }
  destruct r1 as [|c r2]; [done|]. simpl in Hl.
  match goal with |- Js.bytes (if ?t then _ else _) = _ => destruct t end.
  { rewrite bytes_cons, IH by lia. done. }
  destruct r2 as [|d r3]; [done|]. simpl in Hl.
  match goal with |- Js.bytes (if ?t then _ else _) = _ => destruct t end.
  { rewrite bytes_cons, IH by lia. done. }
  done.
Qed.

Lemma matchGitHubUrl_unfold (l : list ascii) :
  matchGitHubUrl l
  = match
      match stripPrefix (Js.chars "https://github.com/") l with
      | Some rest =>
          match takeWhile (λ c, negb (Js.isSpace c.1)) (Js.codePoints rest) with
          | [] => None
          | run => Some (Js.unchars (Js.chars "https://github.com/" ++
                                     Js.bytes run))
          end
      | None => None
      end, l
    with
    | Some u, _ => Some u
    | None, [] => None
    | None, _ :: r => matchGitHubUrl r
    end.
Proof. by destruct l. Qed.

(** What the search returns is the leftmost place of the text where the
    prefix is followed by a character that is not white space, with the
    characters from there up to the next white space. *)
Lemma matchGitHubUrl_sound (l : list ascii) (u : string) :
  matchGitHubUrl l = Some u →
  ∃ pre run post,
    l = pre ++ Js.chars "https://github.com/" ++ Js.bytes run ++ Js.bytes post ∧
    Js.codePoints (Js.bytes run ++ Js.bytes post) = run ++ post ∧
    u = Js.unchars (Js.chars "https://github.com/" ++ Js.bytes run) ∧
    run ≠ [] ∧ Forall (λ c, Js.isSpace c.1 = false) run ∧
    (post = [] ∨ ∃ c post', post = c :: post' ∧ Js.isSpace c.1 = true) ∧
    (∀ pre' rest' c cs,
       l = pre' ++ Js.chars "https://github.com/" ++ rest' →
       Js.codePoints rest' = c :: cs → Js.isSpace c.1 = false →
       (length pre ≤ length pre')%nat).
Proof.
  revert u. induction l as [|x l IH]; intros u; rewrite matchGitHubUrl_unfold.
  { by simpl. }
  assert (∀ v,
    match stripPrefix (Js.chars "https://github.com/") (x :: l) with
    | Some rest =>
        match takeWhile (λ c, negb (Js.isSpace c.1)) (Js.codePoints rest) with
        | [] => None
        | run => Some (Js.unchars (Js.chars "https://github.com/" ++
                                   Js.bytes run))
        end
    | None => None
    end = None →
    matchGitHubUrl l = Some v →
    ∃ pre run post,
      x :: l
      = pre ++ Js.chars "https://github.com/" ++ Js.bytes run ++ Js.bytes post ∧
      Js.codePoints (Js.bytes run ++ Js.bytes post) = run ++ post ∧
      v = Js.unchars (Js.chars "https://github.com/" ++ Js.bytes run) ∧
      run ≠ [] ∧ Forall (λ c, Js.isSpace c.1 = false) run ∧
      (post = [] ∨ ∃ c post', post = c :: post' ∧ Js.isSpace c.1 = true) ∧
      (∀ pre' rest' c cs,
         x :: l = pre' ++ Js.chars "https://github.com/" ++ rest' →
         Js.codePoints rest' = c :: cs → Js.isSpace c.1 = false →
         (length pre ≤ length pre')%nat)) as Hnext.
  { intros v Hhere (pre & run & post & -> & ? & ? & ? & ? & ? & Hleft)%IH.
    exists (x :: pre), run, post. split_and!; [done..|].
    intros [|x' pre'] rest' c cs Hsplit Hrest Hc.
    - rewrite app_nil_l in Hsplit. rewrite Hsplit, stripPrefix_app in Hhere.
      rewrite Hrest in Hhere. simpl in Hhere. by rewrite Hc in Hhere.
    - injection Hsplit as -> Hsplit. simpl.
      pose proof (Hleft pre' rest' c cs Hsplit Hrest Hc). lia. }
  destruct (stripPrefix _ (x :: l)) as [rest|] eqn:Hstrip; [|by apply Hnext].
  destruct (takeWhile_split (λ c, negb (Js.isSpace c.1)) (Js.codePoints rest))
    as (post & Hrest & Hall & Hpost).
  destruct (takeWhile _ (Js.codePoints rest)) as [|y run] eqn:Hrun;
    [by apply Hnext|].
  intros [= <-]. apply stripPrefix_Some in Hstrip.
  rewrite ?Hrun in Hrest, Hall.
  assert (rest = Js.bytes (y :: run) ++ Js.bytes post) as Hbytes
    by by rewrite <- bytes_app, <- Hrest, codePoints_bytes.
  exists [], (y :: run), post.
  split_and!; [by rewrite Hstrip, Hbytes at 1|by rewrite <- Hbytes|done|done| |
               |simpl; lia].
  - eapply Forall_impl; [apply Hall|]. intros z. cbv beta.
    by destruct (Js.isSpace z.1).
  - destruct Hpost as [?|(z & post' & -> & Hz)]; [by left|right].
    exists z, post'. split; [done|]. cbv beta in Hz.
    by destruct (Js.isSpace z.1).
Qed.

(** X25. The address that [createGitHubPR] returns is read from what the
    CLI printed, or made from the address of the repository: it is the
    leftmost text of the output that starts with [https://github.com/]
    and goes on with a character that is not white space, taken up to the
    next white space (of ASCII or not), found with the one process run;
    or, when the output holds no such text, the address of the repository
    followed by [/pulls], after a second process. *)
Theorem createGitHubPR_url (env : Env) (gm : GitManager) (bucket : PRBucket)
    (baseBranch : string) (log log' : list Effect) (u : string) :
  createGitHubPR env gm bucket baseBranch log = (Ok u, log') →
  ∃ out,
    respond env log
      (Exec (Some (workspaceRoot gm)) (ghPrCreate bucket baseBranch)) = Ok out ∧
    ((log' = log ++ [Exec (Some (workspaceRoot gm)) (ghPrCreate bucket baseBranch)] ∧
      ∃ pre run post,
        Js.chars out
        = pre ++ Js.chars "https://github.com/" ++ Js.bytes run ++ Js.bytes post ∧
        Js.codePoints (Js.bytes run ++ Js.bytes post) = run ++ post ∧
        u = Js.unchars (Js.chars "https://github.com/" ++ Js.bytes run) ∧
        run ≠ [] ∧ Forall (λ c, Js.isSpace c.1 = false) run ∧
        (post = [] ∨ ∃ c post', post = c :: post' ∧ Js.isSpace c.1 = true) ∧
        (∀ pre' rest' c cs,
           Js.chars out = pre' ++ Js.chars "https://github.com/" ++ rest' →
           Js.codePoints rest' = c :: cs → Js.isSpace c.1 = false →
           (length pre ≤ length pre')%nat)) ∨
     (matchGitHubUrl (Js.chars out) = None ∧
      ∃ repoUrl,
        getRepositoryUrl env gm
          (log ++ [Exec (Some (workspaceRoot gm)) (ghPrCreate bucket baseBranch)])
        = (Ok repoUrl, log') ∧
        u = repoUrl +:+ "/pulls")).
Proof.
  unfold createGitHubPR, rethrow, tryCatch.
  cbv beta delta [mbind mret Git_bind Git_ret bind ret execSync perform].
  cbv zeta.
  destruct (respond env log
              (Exec (Some (workspaceRoot gm)) (ghPrCreate bucket baseBranch)))
    as [out|e] eqn:Hr; cbn [fst snd]; [|done].
  destruct (matchGitHubUrl (Js.chars out)) as [v|] eqn:Hm.
  - intros [= <- <-]. exists out. split; [done|]. left.
    split; [done|]. by apply matchGitHubUrl_sound.
  - destruct (getRepositoryUrl env gm _) as [[repoUrl|e] l2] eqn:Hg; [|done].
    intros [= <- <-]. exists out. split; [done|]. right.
    split; [done|]. by exists repoUrl.
Qed.

Lemma createGitHubPR_url_witness :
  createGitHubPR MoreExamples.draftRemark Examples.inRepo
    (with_branchName Examples.bucketA (Some "feature/a-123456")) "main" []
  = (Ok "https://github.com/acme/shop/pull/7",
     [Exec (Some "/work/shop")
        (ghPrCreate (with_branchName Examples.bucketA (Some "feature/a-123456"))
           "main")]).
Proof.
  destruct (createGitHubPR MoreExamples.draftRemark Examples.inRepo
              (with_branchName Examples.bucketA (Some "feature/a-123456"))
              "main" []) as [[u|e] log'] eqn:Hrun; [|by vm_compute in Hrun].
  destruct (createGitHubPR_url MoreExamples.draftRemark Examples.inRepo
              (with_branchName Examples.bucketA (Some "feature/a-123456"))
              "main" [] log' u Hrun) as (_ & _ & _).
  vm_compute in Hrun. by simplify_eq.
Defined.
